(** * Football-Robot: the control loop scheduler and the multi-robot scene
      generator of [src/simulation/main.js] and [multiRobotGenerator.js].

    The development follows the two source files:
    - [JS]: the fragment of JavaScript values the code manipulates.  Numbers
      are IEEE-754 binary64, taken from the Standard Library's [SpecFloat]
      at precision 53 and exponent bound 1024, with [Math.max], [Math.min],
      [Math.round], [Math.floor] and [Number.isFinite] written out.
    - [Regex]: a backtracking matcher for the regular expressions of the
      generator and [String.prototype.replace] with the [g] flag.
    - [Generator]: [generateMultiRobotXML], [addPrefixToRobotBody] and
      [addPrefixToMotors].
    - [Demo]: the methods of the [MuJoCoDemo] class the specification talks
      about: [generateMultiRobotScene], [reload], [main_loop],
      [resetSimulation] and [requestMotion].
    - [Follow] and [Screen]: [updateFollowBodyId], [setFollowRobotIndex],
      [setRenderScale] and [onWindowResize] of the same class. *)

From Stdlib Require Import ZArith Bool Ascii String Lia DecimalString DecimalNat.
From Stdlib Require Import SpecFloat.
From stdpp Require Import base list gmap strings.

Set Default Proof Using "Type".

(* ===================================================================== *)
(** ** JavaScript numbers                                                 *)
(* ===================================================================== *)

Module JS.

Abbreviation num := spec_float.

Definition prec : Z := 53.
Definition emax : Z := 1024.

Abbreviation NaN := S754_nan.
Definition pzero : num := S754_zero false.

(** [a + b], [a - b], [a * b], [a / b] on numbers. *)
Definition add (a b : num) : num := SFadd prec emax a b.
Definition sub (a b : num) : num := SFsub prec emax a b.
Definition mul (a b : num) : num := SFmul prec emax a b.
Definition div (a b : num) : num := SFdiv prec emax a b.

(** [a < b] on numbers; false as soon as one side is NaN. *)
Definition lt (a b : num) : bool := SFltb a b.
Definition le (a b : num) : bool := SFleb a b.

(** The number with integer value [n]. *)
Definition of_Z (n : Z) : num := binary_normalize prec emax n 0 false.

(** Literals of the source, as the binary64 value nearest to the decimal. *)
Definition lit_1 : num := S754_finite false 4503599627370496 (-52).
Definition lit_5 : num := S754_finite false 5629499534213120 (-50).
Definition lit_0_02 : num := S754_finite false 5764607523034235 (-58).
Definition lit_0_004 : num := S754_finite false 4611686018427388 (-60).
Definition lit_0_05 : num := S754_finite false 7205759403792794 (-57).

(** [Number.isFinite(x)] for a number [x]. *)
Definition Number_isFinite (x : num) : bool :=
  match x with
  | S754_zero _ | S754_finite _ _ _ => true
  | S754_infinity _ | S754_nan => false
  end.

(** [Math.max(a, b)]: NaN if either is NaN, [+0] larger than [-0]. *)
Definition Math_max (a b : num) : num :=
  match a, b with
  | S754_nan, _ | _, S754_nan => S754_nan
  | S754_zero sa, S754_zero sb => S754_zero (sa && sb)
  | _, _ => if lt a b then b else a
  end.

(** [Math.min(a, b)]: NaN if either is NaN, [-0] smaller than [+0]. *)
Definition Math_min (a b : num) : num :=
  match a, b with
  | S754_nan, _ | _, S754_nan => S754_nan
  | S754_zero sa, S754_zero sb => S754_zero (sa || sb)
  | _, _ => if lt b a then b else a
  end.

(** The signed integer [±m] of a finite number [±m * 2^e]. *)
Definition signed (s : bool) (m : positive) : Z := cond_Zopp s (Zpos m).

(** [Math.round(x)]: [x] itself when it is not finite or already an
    integer; otherwise the integer nearest to [x], ties towards +infinity,
    keeping the sign of [x] when the result is zero. *)
Definition Math_round (x : num) : num :=
  match x with
  | S754_finite s m e =>
      if (0 <=? e)%Z then x
      else
        let n := Z.shiftr (2 * signed s m + 2 ^ (- e)) (- e + 1) in
        match n with
        | Z0 => S754_zero s
        | _ => of_Z n
        end
  | _ => x
  end.

(** The integer [Math.floor(x)] of a finite number; [None] for NaN and the
    infinities, which [Math.floor] returns unchanged. *)
Definition floorZ (x : num) : option Z :=
  match x with
  | S754_zero _ => Some 0%Z
  | S754_finite s m e =>
      Some (if (0 <=? e)%Z then Z.shiftl (signed s m) e
            else Z.shiftr (signed s m) (- e))
  | _ => None
  end.

(** The value stored in a [Float32Array] slot: [x] rounded to binary32. *)
Definition fround (x : num) : num :=
  match x with
  | S754_finite s m e =>
      match binary_round 24 128 s m e with
      | S754_finite s' m' e' => binary_round prec emax s' m' e'
      | y => y
      end
  | _ => x
  end.

(** *** Values

    The values that reach the modelled code: what a policy's [step] may
    resolve to, and the arguments of [requestMotion].  An [Array] holds
    numbers, [null] or [undefined]; [VObject] stands for any other object
    (truthy, without indexed properties). *)
Inductive prim :=
  | PUndefined
  | PNull
  | PNumber (x : num).

Inductive value :=
  | VUndefined
  | VNull
  | VBoolean (b : bool)
  | VNumber (x : num)
  | VString (s : string)
  | VArray (xs : list prim)
  | VFloat32Array (xs : list num)
  | VObject.

(** Truthiness, as tested by [!v] and [v ? a : b]. *)
Definition truthy (v : value) : bool :=
  match v with
  | VUndefined | VNull => false
  | VBoolean b => b
  | VNumber x =>
      match x with
      | S754_zero _ | S754_nan => false
      | _ => true
      end
  | VString s => negb (String.eqb s EmptyString)
  | VArray _ | VFloat32Array _ | VObject => true
  end.

(** [Array.isArray(v) || v instanceof Float32Array]. *)
Definition is_array_like (v : value) : bool :=
  match v with
  | VArray _ | VFloat32Array _ => true
  | _ => false
  end.

(** [v.length] of an array or typed array. *)
Definition length_of (v : value) : nat :=
  match v with
  | VArray xs => length xs
  | VFloat32Array xs => length xs
  | _ => 0
  end.

(** [v[i]]: the element, or [undefined] beyond the end and on values without
    indexed properties. *)
Definition index (v : value) (i : nat) : prim :=
  match v with
  | VArray xs => default PUndefined (xs !! i)
  | VFloat32Array xs =>
      match xs !! i with
      | Some x => PNumber x
      | None => PUndefined
      end
  | _ => PUndefined
  end.

(** [ToNumber] on array elements. *)
Definition to_number (p : prim) : num :=
  match p with
  | PUndefined => NaN
  | PNull => pzero
  | PNumber x => x
  end.

(** [arr[adr]] of a numeric (typed) array, as seen by arithmetic: a missing
    address or one beyond the end reads [undefined], which is NaN there. *)
Definition read (arr : list num) (adr : option nat) : num :=
  match adr with
  | Some a => default NaN (arr !! a)
  | None => NaN
  end.

(** [String(n)] for a non-negative integer. *)
Definition string_of_nat (n : nat) : string :=
  NilEmpty.string_of_uint (Nat.to_uint n).

End JS.

(* ===================================================================== *)
(** ** Data model                                                         *)
(* ===================================================================== *)

(** A spawn pose [{x, y, z}]; [requestMotion] adds the [motion] property. *)
Module Config.
Record t := { x : JS.num; y : JS.num; z : JS.num; motion : option string }.
Definition set_motion (name : string) (c : t) : t :=
  {| x := x c; y := y c; z := z c; motion := Some name |}.
End Config.

(** An entry of [robotJointMappings]. *)
Module Mapping.
Record t := {
  qpos_adr_policy : list nat;
  qvel_adr_policy : list nat;
  ctrl_adr_policy : list nat;
  numActions : nat;
  freejoint_qpos_adr : option nat;
  freejoint_qvel_adr : option nat
}.
End Mapping.

(* ===================================================================== *)
(** ** Strings and regular expressions                                    *)
(* ===================================================================== *)

Module Regex.

Definition text : Type := list ascii.

(** A string literal of the source as a text. *)
Definition lit (s : string) : text := list_ascii_of_string s.

(** The double quote character. *)
Definition dq : ascii := "034"%char.

(** A literal of XML text, written with an apostrophe wherever the source
    has a double quote. *)
Definition xml (s : string) : text :=
  (fun c => if Ascii.eqb c "'"%char then dq else c) <$> list_ascii_of_string s.

(** The regular expressions of the generator: literal characters, character
    classes, greedy [*] and [+] on a class, a greedy optional group and
    capture groups. *)
Inductive regex :=
  | Eps
  | Chr (c : ascii)
  | Seq (r1 r2 : regex)
  | Many (p : ascii -> bool)
  | Many1 (p : ascii -> bool)
  | Opt (r : regex)
  | Group (n : nat) (r : regex).

(** The literal [s]. *)
Fixpoint Lit (s : text) : regex :=
  match s with
  | [] => Eps
  | c :: s => Seq (Chr c) (Lit s)
  end.

(** [\s] on 8-bit code units. *)
Definition is_space (c : ascii) : bool :=
  match nat_of_ascii c with
  | 9 | 10 | 11 | 12 | 13 | 32 | 160 => true
  | _ => false
  end.

(** [[^c]]. *)
Definition is_not (c : ascii) (x : ascii) : bool := negb (Ascii.eqb x c).

Definition captures : Type := gmap nat text.

Section Matcher.
Context {R : Type}.

(** Greedy [p*] followed by the continuation [k], with backtracking. *)
Fixpoint many (p : ascii -> bool) (s : text) (k : text -> option R) : option R :=
  match s with
  | c :: s' =>
      if p c then
        match many p s' k with
        | Some r => Some r
        | None => k s
        end
      else k s
  | [] => k s
  end.

(** Backtracking matcher: [mt r s caps k] matches [r] at the start of [s]
    and hands the rest of the text and the captures to [k]; alternatives are
    tried in the order of the ECMAScript semantics. *)
Fixpoint mt (r : regex) (s : text) (caps : captures)
    (k : text -> captures -> option R) : option R :=
  match r with
  | Eps => k s caps
  | Chr c =>
      match s with
      | x :: s' => if Ascii.eqb x c then k s' caps else None
      | [] => None
      end
  | Seq r1 r2 => mt r1 s caps (fun s' caps' => mt r2 s' caps' k)
  | Many p => many p s (fun s' => k s' caps)
  | Many1 p =>
      match s with
      | x :: s' => if p x then many p s' (fun s'' => k s'' caps) else None
      | [] => None
      end
  | Opt r' =>
      match mt r' s caps k with
      | Some res => Some res
      | None => k s caps
      end
  | Group n r' =>
      mt r' s caps
         (fun s' caps' => k s' (<[n := take (length s - length s') s]> caps'))
  end.
End Matcher.

(** [exec r s]: the match of [r] at the start of [s], as the matched text
    and the captures. *)
Definition exec (r : regex) (s : text) : option (text * captures) :=
  mt r s ∅ (fun s' caps => Some (take (length s - length s') s, caps)).

(** [s.replace(r, f)] for a global [r]: scan from the left; at a match emit
    [f match captures] and go on after it (one unit further after an empty
    match); elsewhere copy the unit. [skip] counts the units of the current
    match still to pass. *)
Fixpoint replace_from (r : regex) (f : text -> captures -> text) (s : text)
    (skip : nat) : text :=
  match s with
  | [] =>
      match skip, exec r [] with
      | 0, Some (m, caps) => f m caps
      | _, _ => []
      end
  | c :: s' =>
      match skip with
      | S n => replace_from r f s' n
      | 0 =>
          match exec r s with
          | Some (m, caps) =>
              match length m with
              | 0 => f m caps ++ c :: replace_from r f s' 0
              | S n => f m caps ++ replace_from r f s' n
              end
          | None => c :: replace_from r f s' 0
          end
      end
  end.

Definition replace_all (r : regex) (f : text -> captures -> text) (s : text) : text :=
  replace_from r f s 0.

(** [s.indexOf(needle, from)]. *)
Fixpoint index_from (needle : text) (s : text) (i : nat) : option nat :=
  match s with
  | [] => if bool_decide (needle = []) then Some i else None
  | _ :: s' =>
      if bool_decide (needle `prefix_of` s) then Some i
      else index_from needle s' (S i)
  end.

Definition indexOf (needle s : text) : option nat := index_from needle s 0.

Definition indexOf_from (needle s : text) (from : nat) : option nat :=
  index_from needle (drop from s) (Nat.min from (length s)).

(** [s.substring(a, b)]: the arguments are swapped when [a > b]. *)
Definition substring (a b : nat) (s : text) : text :=
  take (Nat.max a b - Nat.min a b) (drop (Nat.min a b) s).

(** [s.startsWith(p)]. *)
Definition startsWith (p s : text) : bool := bool_decide (p `prefix_of` s).

(** A text stops the greedy loop on [p]: it is empty or begins off [p]. *)
Definition stops (p : ascii -> bool) (b : text) : Prop :=
  match b with
  | [] => True
  | c :: _ => p c = false
  end.


End Regex.

(* ===================================================================== *)
(** ** multiRobotGenerator.js                                             *)
(* ===================================================================== *)

Module Generator.
Import Regex.

(** What [await fetch(baseXmlPath)] gives: a rejection, or a response with
    its [ok] flag, status and text. *)
Inductive response :=
  | NetworkError
  | Response (ok : bool) (status : nat) (body : text).

(** The errors thrown while a scene is generated, by message:
    ['Robot configs cannot be empty'], ['Maximum 11 robots allowed'],
    [`Failed to load base XML: ${status}`], the rejection of [fetch],
    ['Could not find pelvis body in XML'],
    ['Could not find end of pelvis body'],
    ['Could not find actuator section'],
    ['Could not find motors in actuator section'],
    ['Could not find end of actuator section']. *)
Inductive error :=
  | RobotConfigsEmpty
  | MaximumRobots
  | FailedToLoadBaseXML (status : nat)
  | FetchRejected
  | PelvisNotFound
  | PelvisEndNotFound
  | ActuatorNotFound
  | MotorsNotFound
  | ActuatorEndNotFound.

Inductive result (A : Type) :=
  | Ok (a : A)
  | Throw (e : error).
Arguments Ok {A} a.
Arguments Throw {A} e.

(** The global pattern of the rename steps: the tag opener, [\s+], [name=],
    a double quote, a capture of characters other than the double quote, and
    a double quote. *)
Definition re_named (tag : string) : regex :=
  Seq (Lit (lit tag))
      (Seq (Many1 is_space)
           (Seq (Lit (xml "name='"))
                (Seq (Group 1 (Many (is_not dq))) (Chr dq)))).

(** The global pattern of the geom and motor-joint steps: the tag opener,
    [\s+], an optional first capture made of characters other than [>]
    followed by [\s+], the attribute name with [=] and a double quote, a
    second capture of characters other than the double quote, and a double
    quote. *)
Definition re_attr (tag attr : string) : regex :=
  Seq (Lit (lit tag))
      (Seq (Many1 is_space)
           (Seq (Opt (Group 1 (Seq (Many (is_not ">")) (Many1 is_space))))
                (Seq (Lit (lit attr ++ xml "='"))
                     (Seq (Group 2 (Many (is_not dq))) (Chr dq))))).

(** The pattern built for step 5: [<body name='${escapedPrefix}pelvis' pos='],
    characters other than the double quote, and a double quote (['] stands
    for the double quote, as in [xml]); after the escaping, the prefix
    stands for itself. *)
Definition re_pelvis_pos (prefix : text) : regex :=
  Seq (Lit (xml "<body name='" ++ prefix ++ xml "pelvis' pos='"))
      (Seq (Many (is_not dq)) (Chr dq)).

(** The callback [(match, name) => `<TAG name='${prefix}${name}'`]. *)
Definition rename_cb (tag : string) (prefix : text) (m : text) (caps : captures)
  : text :=
  lit tag ++ xml " name='" ++ prefix ++ default [] (caps !! 1) ++ [dq].

(** The callback of the geom and motor-joint patterns, with its test
    [name.startsWith(prefix)]. *)
Definition guarded_cb (tag attr : string) (prefix : text) (m : text)
    (caps : captures) : text :=
  let name := default [] (caps !! 2) in
  if startsWith prefix name then m
  else lit tag ++ lit " " ++ default [] (caps !! 1)
       ++ lit attr ++ xml "='" ++ prefix ++ name ++ [dq].

Section WithNumberToString.

(** [String(x)] for a number, as a template literal interpolates it; it
    yields digits, signs, [.], [e], [Infinity] or [NaN], never a [$], so the
    replacement strings below are taken literally. *)
Variable Number_toString : JS.num -> text.

(** [`${config.x} ${config.y} ${config.z}`]. *)
Definition pos_of (config : Config.t) : text :=
  Number_toString (Config.x config) ++ lit " "
  ++ Number_toString (Config.y config) ++ lit " "
  ++ Number_toString (Config.z config).

(** The replacement of every match of the position pattern by
    [`<body name='${prefix}pelvis' pos='${config.x} ${config.y} ${config.z}'`]. *)
Definition set_pelvis_pos (prefix : text) (config : Config.t) (s : text) : text :=
  replace_all (re_pelvis_pos prefix)
    (fun _ _ => xml "<body name='" ++ prefix ++ xml "pelvis' pos='"
                ++ pos_of config ++ [dq])
    s.

(** [addPrefixToRobotBody]. *)
Definition addPrefixToRobotBody (bodyContent prefix : text) (config : Config.t)
  : text :=
  if bool_decide (prefix = []) then set_pelvis_pos [] config bodyContent
  else
    let newBody := bodyContent in
    let newBody := replace_all (re_named "<body") (rename_cb "<body" prefix) newBody in
    let newBody := replace_all (re_named "<joint") (rename_cb "<joint" prefix) newBody in
    let newBody := replace_all (re_named "<freejoint") (rename_cb "<freejoint" prefix) newBody in
    let newBody := replace_all (re_named "<site") (rename_cb "<site" prefix) newBody in
    let newBody := replace_all (re_attr "<geom" "name") (guarded_cb "<geom" "name" prefix) newBody in
    set_pelvis_pos prefix config newBody.

(** [addPrefixToMotors]. *)
Definition addPrefixToMotors (motorsContent prefix : text) : text :=
  let newMotors := motorsContent in
  let newMotors := replace_all (re_named "<motor") (rename_cb "<motor" prefix) newMotors in
  replace_all (re_attr "<motor" "joint") (guarded_cb "<motor" "joint" prefix) newMotors.

(** [index === 0 ? '' : `robot${index + 1}_`]. *)
Definition robotId (index : nat) : text :=
  if index =? 0 then []
  else lit "robot" ++ lit (JS.string_of_nat (index + 1)) ++ lit "_".

(** The loop that looks for the end of the pelvis body: [s] is the text from
    position [i] on. *)
Fixpoint scan_body (pelvisStartIdx : nat) (s : text) (i : nat) (bodyDepth : Z)
    (foundPelvisStart : bool) : option nat :=
  match s with
  | [] => None
  | _ :: s' =>
      let substr := take 10 s in
      if startsWith (lit "<body") substr then
        scan_body pelvisStartIdx s' (S i) (bodyDepth + 1)
                  (foundPelvisStart || (i =? pelvisStartIdx))
      else if startsWith (lit "</body>") substr then
        let bodyDepth := (bodyDepth - 1)%Z in
        if foundPelvisStart && (bodyDepth =? 0)%Z then Some (i + 7)
        else scan_body pelvisStartIdx s' (S i) bodyDepth foundPelvisStart
      else scan_body pelvisStartIdx s' (S i) bodyDepth foundPelvisStart
  end.

Definition indexed {A} (l : list A) : list (nat * A) := zip (seq 0 (length l)) l.

(** The text assembled after the five searches succeeded. *)
Definition assemble (xmlContent : text) (robotConfigs : list Config.t)
    (pelvisStartIdx pelvisEndIdx motorStartIdx actuatorEndIdx : nat) : text :=
  let pelvisBodyContent := substring pelvisStartIdx pelvisEndIdx xmlContent in
  let motorsContent := substring motorStartIdx actuatorEndIdx xmlContent in
  substring 0 pelvisStartIdx xmlContent
  ++ mjoin ((fun ic : nat * Config.t =>
               addPrefixToRobotBody pelvisBodyContent (robotId ic.1) ic.2
               ++ lit (String "010" "        "))
            <$> indexed robotConfigs)
  ++ substring pelvisEndIdx motorStartIdx xmlContent
  ++ mjoin ((fun ic : nat * Config.t =>
               if ic.1 =? 0 then motorsContent
               else addPrefixToMotors motorsContent (robotId ic.1))
            <$> indexed robotConfigs)
  ++ drop actuatorEndIdx xmlContent.

(** [generateMultiRobotXML], given what the fetch of [baseXmlPath] gives. *)
Definition generateMultiRobotXML (fetched : response)
    (robotConfigs : list Config.t) : result text :=
  match fetched with
  | NetworkError => Throw FetchRejected
  | Response false status _ => Throw (FailedToLoadBaseXML status)
  | Response true _ xmlContent =>
      match robotConfigs with
      | [config] => Ok (set_pelvis_pos [] config xmlContent)
      | _ =>
          match indexOf (xml "<body name='pelvis'") xmlContent with
          | None => Throw PelvisNotFound
          | Some pelvisStartIdx =>
              match scan_body pelvisStartIdx (drop pelvisStartIdx xmlContent)
                              pelvisStartIdx 0 false with
              | None => Throw PelvisEndNotFound
              | Some pelvisEndIdx =>
                  match indexOf (lit "<actuator>") xmlContent with
                  | None => Throw ActuatorNotFound
                  | Some actuatorStartIdx =>
                      match indexOf_from (xml "<motor name='") xmlContent
                                         actuatorStartIdx with
                      | None => Throw MotorsNotFound
                      | Some motorStartIdx =>
                          match indexOf (lit "</actuator>") xmlContent with
                          | None => Throw ActuatorEndNotFound
                          | Some actuatorEndIdx =>
                              Ok (assemble xmlContent robotConfigs pelvisStartIdx
                                           pelvisEndIdx motorStartIdx actuatorEndIdx)
                          end
                      end
                  end
              end
          end
      end
  end.

End WithNumberToString.

(** The opener of the anchor tag up to the value of its position attribute. *)
Definition anchor_pos_open (prefix : text) : text :=
  xml "<body name='" ++ prefix ++ xml "pelvis' pos='".

(** [only_pos_rewritten new s s']: [s'] is [s] except that the values of some
    position attributes of primary anchor tags have become [new]. *)
Inductive only_pos_rewritten (new : text) : text -> text -> Prop :=
  | opr_nil : only_pos_rewritten new [] []
  | opr_copy c s s' :
      only_pos_rewritten new s s' -> only_pos_rewritten new (c :: s) (c :: s')
  | opr_pos old s s' :
      Forall (fun c => c <> dq) old ->
      only_pos_rewritten new s s' ->
      only_pos_rewritten new (anchor_pos_open [] ++ old ++ dq :: s)
                             (anchor_pos_open [] ++ new ++ dq :: s').

(** [needle] occurs in [s] at offset [i]. *)
Definition occurs_at (needle s : text) (i : nat) : Prop :=
  i <= length s /\ needle `prefix_of` drop i s.

(** The offsets at which [needle] occurs in [s], counted from [i]. *)
Fixpoint offsets_from (needle s : text) (i : nat) : list nat :=
  (if startsWith needle s then [i] else [])
  ++ match s with
     | [] => []
     | _ :: s' => offsets_from needle s' (S i)
     end.

(** The opener of an attribute: its name, [=] and a double quote. *)
Definition attr_open (attr : string) : text := lit attr ++ xml "='".

(** White space followed by the opener of attribute [attr] occurs nowhere in
    [t]. *)
Definition no_attr (attr : string) (t : text) : Prop :=
  forall x w y, t = x ++ w :: attr_open attr ++ y -> is_space w = false.

(** The same as a test. *)
Fixpoint no_attr_b (attr : string) (t : text) : bool :=
  match t with
  | [] => true
  | w :: t' =>
      negb (is_space w && startsWith (attr_open attr) t') && no_attr_b attr t'
  end.

(** The characters of an attribute name: no white space and no [>]. *)
Definition attr_ok (attr : string) : Prop :=
  Forall (fun c => is_space c = false /\ c <> ">"%char) (lit attr).

(** [A] can stand between the white space after the tag name and an
    attribute: it is empty, or begins off white space and ends with it. *)
Definition attrs_before (A : text) : Prop :=
  A = [] \/ exists a A' w, A = a :: A' ++ [w] /\ is_space a = false /\ is_space w = true.

(** The first capture of the attribute pattern: undefined where the optional
    group took no part. *)
Definition before_capture (before : text) : captures :=
  match before with
  | [] => ∅
  | _ => <[1 := before]> ∅
  end.

(** A segment of a text: a [<] followed by units other than [<]. *)
Definition segment (t : text) : Prop :=
  exists b, t = "<"%char :: b /\ Forall (fun c => c <> "<"%char) b.

(** A text is empty or begins with [<]. *)
Definition at_tag (rest : text) : Prop :=
  match rest with
  | [] => True
  | c :: _ => c = "<"%char
  end.

(** [t] begins with [tag] followed by white space. *)
Definition opens (tag : string) (t : text) : Prop :=
  exists w y, t = lit tag ++ w :: y /\ is_space w = true.

(** A pattern that can only match at a [<]. *)
Definition tag_pattern (r : regex) : Prop :=
  exec r [] = None /\ forall c s, c <> "<"%char -> exec r (c :: s) = None.

(** A [<body] opener, a [</body>] closer at the head of a text. *)
Definition opener_at (s : text) : bool := startsWith (lit "<body") s.
Definition closer_at (s : text) : bool := startsWith (lit "</body>") s.

(** The nesting depth after the first [k] positions of [s], from [depth]. *)
Fixpoint depth_after (s : text) (k : nat) (depth : Z) : Z :=
  match k, s with
  | S k', _ :: s' =>
      depth_after s' k'
        (if opener_at s then depth + 1 else if closer_at s then depth - 1 else depth)
  | _, _ => depth
  end.

(** [k] is the first offset of [s] with a closer that brings the depth, from
    [depth], back to zero. *)
Definition closes_at (s : text) (depth : Z) (k : nat) : Prop :=
  k < length s /\ closer_at (drop k s) = true /\ depth_after s k depth = 1%Z
  /\ forall k', k' < k -> closer_at (drop k' s) = true -> depth_after s k' depth <> 1%Z.

End Generator.

(* ===================================================================== *)
(** ** The text of the anchor sub-tree and of the motors, by segments    *)
(* ===================================================================== *)

Module Markup.
Import Regex Generator.

(** The tags whose names the generator rewrites inside a clone. *)
Inductive tagname := Body | Joint | Freejoint | Site | Geom.

#[global] Instance tagname_eq_dec : EqDecision tagname.
Proof. solve_decision. Defined.

Definition opener (T : tagname) : string :=
  match T with
  | Body => "<body"
  | Joint => "<joint"
  | Freejoint => "<freejoint"
  | Site => "<site"
  | Geom => "<geom"
  end.

(** A tag with a name attribute, and the text up to the next tag: the white
    space after the tag name, the attributes before the name, the name, the
    position attribute where it directly follows the name, the other
    attributes up to the closing [>], and the text behind it. *)
Record named := {
  n_tag : tagname;
  n_gap : text;
  n_before : text;
  n_name : text;
  n_pos : option text;
  n_attrs : text;
  n_tail : text
}.

(** The segments of a body text: a tag of one of the five kinds with a name
    attribute; such a tag without one; any other segment. *)
Inductive item :=
  | Named (x : named)
  | Unnamed (T : tagname) (region tail : text)
  | Plain (t : text).

Definition pos_attr (pos : option text) : text :=
  match pos with
  | Some v => xml " pos='" ++ v ++ [dq]
  | None => []
  end.

Definition render_item (it : item) : text :=
  match it with
  | Named x =>
      lit (opener (n_tag x)) ++ n_gap x ++ n_before x
      ++ xml "name='" ++ n_name x ++ dq :: pos_attr (n_pos x)
      ++ n_attrs x ++ ">"%char :: n_tail x
  | Unnamed T region tail => lit (opener T) ++ region ++ ">"%char :: tail
  | Plain t => t
  end.

Definition render (doc : list item) : text := concat (render_item <$> doc).

Definition plain_char (c : ascii) : Prop := c <> "<"%char /\ c <> ">"%char.
Definition value_char (c : ascii) : Prop := c <> dq /\ plain_char c.

(** The texts a named tag is well formed with. *)
Record wf_named (x : named) : Prop := {
  wf_gap_ne : n_gap x <> [];
  wf_gap : Forall (fun c => is_space c = true) (n_gap x);
  wf_before : attrs_before (n_before x);
  wf_before_chars : Forall plain_char (n_before x);
  wf_before_first : ~ xml "name='" `prefix_of` n_before x;
  wf_name : Forall value_char (n_name x);
  wf_pos : forall v, n_pos x = Some v -> Forall value_char v;
  wf_no_pos : n_pos x = None -> ~ xml " pos='" `prefix_of` n_attrs x;
  wf_attrs : Forall plain_char (n_attrs x);
  wf_last :
    no_attr "name" (xml "name='" ++ n_name x ++ dq :: pos_attr (n_pos x) ++ n_attrs x);
  wf_tail : Forall (fun c => c <> "<"%char) (n_tail x)
}.

Definition wf_item (it : item) : Prop :=
  match it with
  | Named x => wf_named x
  | Unnamed T region tail =>
      Forall (fun c => c <> "<"%char) region /\ no_attr "name" region
      /\ Forall (fun c => c <> "<"%char) tail
  | Plain t => segment t /\ forall T, ~ opens (opener T) t
  end.

(** A prefix is made of characters of names other than white space. *)
Definition prefix_ok (p : text) : Prop :=
  p <> [] /\ Forall (fun c => value_char c /\ is_space c = false) p.

(** The tag [x] with a single space after the tag name and its name
    prefixed. *)
Definition renamed (p : text) (x : named) : named :=
  {| n_tag := n_tag x; n_gap := lit " "; n_before := n_before x;
     n_name := p ++ n_name x; n_pos := n_pos x; n_attrs := n_attrs x;
     n_tail := n_tail x |}.

(** The tag [x] with the value of its position attribute, if it has one,
    replaced. *)
Definition placed (new : text) (x : named) : named :=
  {| n_tag := n_tag x; n_gap := n_gap x; n_before := n_before x;
     n_name := n_name x; n_pos := (fun _ => new) <$> n_pos x;
     n_attrs := n_attrs x; n_tail := n_tail x |}.

(** What the rename of a clone does to a segment: the name of a body, joint,
    free joint or site is prefixed where the name is the first attribute,
    whatever the name; the name of a geom is prefixed unless it begins with
    the prefix; the position of a body named [pelvis] whose name is the
    first attribute is set. *)
Definition rename_item (p new : text) (it : item) : item :=
  match it with
  | Named x =>
      match n_tag x, n_before x with
      | Geom, _ => if startsWith p (n_name x) then it else Named (renamed p x)
      | Body, [] =>
          if bool_decide (n_name x = lit "pelvis")
          then Named (placed new (renamed p x))
          else Named (renamed p x)
      | _, [] => Named (renamed p x)
      | _, _ => it
      end
  | _ => it
  end.

(** The six steps of [addPrefixToRobotBody], segment by segment. *)
Definition step_named (T0 : tagname) (p : text) (it : item) : item :=
  match it with
  | Named x =>
      if bool_decide (n_tag x = T0 /\ n_before x = []) then Named (renamed p x)
      else it
  | _ => it
  end.

Definition step_geom (p : text) (it : item) : item :=
  match it with
  | Named x =>
      if bool_decide (n_tag x = Geom) then
        if startsWith p (n_name x) then it else Named (renamed p x)
      else it
  | _ => it
  end.

Definition step_pos (p new : text) (it : item) : item :=
  match it with
  | Named x =>
      if bool_decide (n_tag x = Body /\ n_gap x = lit " " /\ n_before x = []
                      /\ n_name x = p ++ lit "pelvis")
      then Named (placed new x)
      else it
  | _ => it
  end.

(** Well-formedness as a test. *)
Definition not_lt_b (c : ascii) : bool := negb (Ascii.eqb c "<"%char).
Definition plain_b (c : ascii) : bool := not_lt_b c && negb (Ascii.eqb c ">"%char).
Definition value_b (c : ascii) : bool := negb (Ascii.eqb c dq) && plain_b c.

Definition attrs_before_b (A : text) : bool :=
  match A with
  | [] => true
  | a :: A' =>
      negb (is_space a)
      && match last A' with
         | Some w => is_space w
         | None => false
         end
  end.

Definition wf_named_b (x : named) : bool :=
  match n_gap x with [] => false | _ => true end
  && forallb is_space (n_gap x)
  && attrs_before_b (n_before x)
  && forallb plain_b (n_before x)
  && negb (startsWith (xml "name='") (n_before x))
  && forallb value_b (n_name x)
  && match n_pos x with
     | Some v => forallb value_b v
     | None => negb (startsWith (xml " pos='") (n_attrs x))
     end
  && forallb plain_b (n_attrs x)
  && no_attr_b "name" (xml "name='" ++ n_name x ++ dq :: pos_attr (n_pos x) ++ n_attrs x)
  && forallb not_lt_b (n_tail x).

Definition segment_b (t : text) : bool :=
  match t with
  | c :: b => Ascii.eqb c "<"%char && forallb not_lt_b b
  | [] => false
  end.

Definition opens_b (tag : string) (t : text) : bool :=
  startsWith (lit tag) t
  && match drop (length (lit tag)) t with
     | w :: _ => is_space w
     | [] => false
     end.

Definition wf_item_b (it : item) : bool :=
  match it with
  | Named x => wf_named_b x
  | Unnamed T region tail =>
      forallb not_lt_b region && no_attr_b "name" region && forallb not_lt_b tail
  | Plain t =>
      segment_b t
      && forallb (fun T => negb (opens_b (opener T) t)) [Body; Joint; Freejoint; Site; Geom]
  end.

(** A position value: characters of values, and no opener of a name
    attribute arises at its closing quote. *)
Definition pos_ok (new : text) : Prop :=
  Forall value_char new /\ no_attr "name" (new ++ [dq]).

Definition pos_ok_b (new : text) : bool :=
  forallb value_b new && no_attr_b "name" (new ++ [dq]).

(** A motor entry and the text up to the next tag: the white space after the
    tag name, the name (the first attribute), what stands between the name
    and the joint reference, the joint reference, the other attributes up to
    the closing [>], and the text behind it. *)
Record motor := {
  m_gap : text;
  m_name : text;
  m_between : text;
  m_joint : text;
  m_attrs : text;
  m_tail : text
}.

(** The segments of the text of the motors: a motor entry, or a segment that
    opens no motor. *)
Inductive motor_item :=
  | Motor (m : motor)
  | Other (t : text).

Definition render_motor_item (it : motor_item) : text :=
  match it with
  | Motor m =>
      lit "<motor" ++ m_gap m ++ xml "name='" ++ m_name m ++ dq :: m_between m
      ++ xml "joint='" ++ m_joint m ++ dq :: m_attrs m ++ ">"%char :: m_tail m
  | Other t => t
  end.

Definition render_motors (l : list motor_item) : text :=
  concat (render_motor_item <$> l).

Record wf_motor (m : motor) : Prop := {
  wm_gap_ne : m_gap m <> [];
  wm_gap : Forall (fun c => is_space c = true) (m_gap m);
  wm_name : Forall value_char (m_name m);
  wm_between : exists B w, m_between m = B ++ [w] /\ is_space w = true;
  wm_between_chars : Forall plain_char (m_between m);
  wm_joint : Forall value_char (m_joint m);
  wm_attrs : Forall plain_char (m_attrs m);
  wm_last : no_attr "joint" (xml "joint='" ++ m_joint m ++ dq :: m_attrs m);
  wm_tail : Forall (fun c => c <> "<"%char) (m_tail m)
}.

Definition wf_motor_item (it : motor_item) : Prop :=
  match it with
  | Motor m => wf_motor m
  | Other t => segment t /\ ~ opens "<motor" t
  end.

(** What [addPrefixToMotors] does to a segment: the name of a motor is
    prefixed whatever it is, its joint reference unless it begins with the
    prefix. *)
Definition rename_motor (p : text) (it : motor_item) : motor_item :=
  match it with
  | Motor m =>
      Motor {| m_gap := lit " "; m_name := p ++ m_name m; m_between := m_between m;
               m_joint := if startsWith p (m_joint m) then m_joint m
                          else p ++ m_joint m;
               m_attrs := m_attrs m; m_tail := m_tail m |}
  | Other t => Other t
  end.

(** The two steps of [addPrefixToMotors], segment by segment. *)
Definition step_motor_name (p : text) (it : motor_item) : motor_item :=
  match it with
  | Motor m =>
      Motor {| m_gap := lit " "; m_name := p ++ m_name m; m_between := m_between m;
               m_joint := m_joint m; m_attrs := m_attrs m; m_tail := m_tail m |}
  | Other t => Other t
  end.

Definition step_motor_joint (p : text) (it : motor_item) : motor_item :=
  match it with
  | Motor m =>
      if startsWith p (m_joint m) then it
      else Motor {| m_gap := lit " "; m_name := m_name m; m_between := m_between m;
                    m_joint := p ++ m_joint m; m_attrs := m_attrs m;
                    m_tail := m_tail m |}
  | Other t => Other t
  end.

Definition ends_space_b (t : text) : bool :=
  match last t with
  | Some w => is_space w
  | None => false
  end.

Definition wf_motor_b (m : motor) : bool :=
  match m_gap m with [] => false | _ => true end
  && forallb is_space (m_gap m)
  && forallb value_b (m_name m)
  && ends_space_b (m_between m)
  && forallb plain_b (m_between m)
  && forallb value_b (m_joint m)
  && forallb plain_b (m_attrs m)
  && no_attr_b "joint" (xml "joint='" ++ m_joint m ++ dq :: m_attrs m)
  && forallb not_lt_b (m_tail m).

Definition wf_motor_item_b (it : motor_item) : bool :=
  match it with
  | Motor m => wf_motor_b m
  | Other t => segment_b t && negb (opens_b "<motor" t)
  end.

Definition prefix_ok_b (p : text) : bool :=
  match p with [] => false | _ => true end
  && forallb (fun c => value_b c && negb (is_space c)) p.

(** The segments of the clone of robot [k]: the first robot keeps its names
    and has its position set, the others are renamed. *)
Definition clone_item (k : nat) (new : text) : item -> item :=
  if k =? 0 then step_pos [] new else rename_item (robotId k) new.

Definition clone_motor (k : nat) : motor_item -> motor_item :=
  if k =? 0 then id else rename_motor (robotId k).

End Markup.

(* ===================================================================== *)
(** ** The [MuJoCoDemo] class                                             *)
(* ===================================================================== *)

Module Demo.
Import JS.

(** [this.params]. *)
Record Params := { paused : bool; current_motion : string }.

(** An entry of [robotPolicyParams]. *)
Record PolicyParams := { kp : option (list num); kd : option (list num) }.

(** The state a policy observes. *)
Record PolicyState := {
  jointPos : list num;
  jointVel : list num;
  rootPos : list num;
  rootQuat : list num;
  rootAngVel : list num
}.

(** The [tracking] helper of a policy runner: the motion names it knows, the
    answer of its gated [requestMotion], and whether it offers
    [_startMotionFromCurrent]. *)
Record Tracking := {
  motions : list string;
  tracking_requestMotion : string -> PolicyState -> bool;
  has_startMotionFromCurrent : bool
}.

Record Runner := { tracking : option Tracking }.

(** The part of [this.model] the class reads. *)
Record Model := {
  actuator_ctrlrange : option (list num);
  nbody : nat;
  names : list ascii;
  name_bodyadr : list nat;
  njnt : nat;
  jnt_bodyid : list nat;
  jnt_qposadr : list Z
}.

(** The state arrays of [this.simulation]. *)
Record Simulation := {
  qpos : list num;
  qvel : list num;
  ctrl : list num;
  qfrc_applied : list num
}.

Definition set_ctrl (v : list num) (sim : Simulation) : Simulation :=
  {| qpos := qpos sim; qvel := qvel sim; ctrl := v;
     qfrc_applied := qfrc_applied sim |}.
Definition set_qpos (v : list num) (sim : Simulation) : Simulation :=
  {| qpos := v; qvel := qvel sim; ctrl := ctrl sim;
     qfrc_applied := qfrc_applied sim |}.
Definition set_qfrc_applied (v : list num) (sim : Simulation) : Simulation :=
  {| qpos := qpos sim; qvel := qvel sim; ctrl := ctrl sim;
     qfrc_applied := v |}.

Inductive ControlType := joint_position | torque | other_control.

(** The fields of [this] the modelled methods use.  [numActions],
    [qpos_adr_policy], [qvel_adr_policy] and [ctrl_adr_policy] are the
    single-robot tables; [decimation] is the number of iterations of the
    sub-step loop for the stored [this.decimation]; [FS] is the MEMFS of the
    physics engine. *)
Record Demo := {
  alive : bool;
  params : Params;
  policyRunner : option Runner;
  policyRunners : list (option Runner);
  kpPolicy : option (list num);
  kdPolicy : option (list num);
  robotPolicyParams : list (option PolicyParams);
  actionTarget : value;
  model : option Model;
  data : bool;
  simulation : option Simulation;
  robotConfigs : list Config.t;
  robotPelvisBodyIds : gmap nat nat;
  robotJointMappings : list (option Mapping.t);
  numActions : nat;
  qpos_adr_policy : list nat;
  qvel_adr_policy : list nat;
  ctrl_adr_policy : list nat;
  control_type : ControlType;
  timestep : num;
  decimation : nat;
  FS : gmap string (list ascii)
}.

Definition set_alive (v : bool) (d : Demo) : Demo :=
  {| alive := v;
     params := params d;
     policyRunner := policyRunner d;
     policyRunners := policyRunners d;
     kpPolicy := kpPolicy d;
     kdPolicy := kdPolicy d;
     robotPolicyParams := robotPolicyParams d;
     actionTarget := actionTarget d;
     model := model d;
     data := data d;
     simulation := simulation d;
     robotConfigs := robotConfigs d;
     robotPelvisBodyIds := robotPelvisBodyIds d;
     robotJointMappings := robotJointMappings d;
     numActions := numActions d;
     qpos_adr_policy := qpos_adr_policy d;
     qvel_adr_policy := qvel_adr_policy d;
     ctrl_adr_policy := ctrl_adr_policy d;
     control_type := control_type d;
     timestep := timestep d;
     decimation := decimation d;
     FS := FS d |}.

Definition set_params (v : Params) (d : Demo) : Demo :=
  {| alive := alive d;
     params := v;
     policyRunner := policyRunner d;
     policyRunners := policyRunners d;
     kpPolicy := kpPolicy d;
     kdPolicy := kdPolicy d;
     robotPolicyParams := robotPolicyParams d;
     actionTarget := actionTarget d;
     model := model d;
     data := data d;
     simulation := simulation d;
     robotConfigs := robotConfigs d;
     robotPelvisBodyIds := robotPelvisBodyIds d;
     robotJointMappings := robotJointMappings d;
     numActions := numActions d;
     qpos_adr_policy := qpos_adr_policy d;
     qvel_adr_policy := qvel_adr_policy d;
     ctrl_adr_policy := ctrl_adr_policy d;
     control_type := control_type d;
     timestep := timestep d;
     decimation := decimation d;
     FS := FS d |}.

Definition set_actionTarget (v : value) (d : Demo) : Demo :=
  {| alive := alive d;
     params := params d;
     policyRunner := policyRunner d;
     policyRunners := policyRunners d;
     kpPolicy := kpPolicy d;
     kdPolicy := kdPolicy d;
     robotPolicyParams := robotPolicyParams d;
     actionTarget := v;
     model := model d;
     data := data d;
     simulation := simulation d;
     robotConfigs := robotConfigs d;
     robotPelvisBodyIds := robotPelvisBodyIds d;
     robotJointMappings := robotJointMappings d;
     numActions := numActions d;
     qpos_adr_policy := qpos_adr_policy d;
     qvel_adr_policy := qvel_adr_policy d;
     ctrl_adr_policy := ctrl_adr_policy d;
     control_type := control_type d;
     timestep := timestep d;
     decimation := decimation d;
     FS := FS d |}.

Definition set_simulation (v : option Simulation) (d : Demo) : Demo :=
  {| alive := alive d;
     params := params d;
     policyRunner := policyRunner d;
     policyRunners := policyRunners d;
     kpPolicy := kpPolicy d;
     kdPolicy := kdPolicy d;
     robotPolicyParams := robotPolicyParams d;
     actionTarget := actionTarget d;
     model := model d;
     data := data d;
     simulation := v;
     robotConfigs := robotConfigs d;
     robotPelvisBodyIds := robotPelvisBodyIds d;
     robotJointMappings := robotJointMappings d;
     numActions := numActions d;
     qpos_adr_policy := qpos_adr_policy d;
     qvel_adr_policy := qvel_adr_policy d;
     ctrl_adr_policy := ctrl_adr_policy d;
     control_type := control_type d;
     timestep := timestep d;
     decimation := decimation d;
     FS := FS d |}.

Definition set_robotConfigs (v : list Config.t) (d : Demo) : Demo :=
  {| alive := alive d;
     params := params d;
     policyRunner := policyRunner d;
     policyRunners := policyRunners d;
     kpPolicy := kpPolicy d;
     kdPolicy := kdPolicy d;
     robotPolicyParams := robotPolicyParams d;
     actionTarget := actionTarget d;
     model := model d;
     data := data d;
     simulation := simulation d;
     robotConfigs := v;
     robotPelvisBodyIds := robotPelvisBodyIds d;
     robotJointMappings := robotJointMappings d;
     numActions := numActions d;
     qpos_adr_policy := qpos_adr_policy d;
     qvel_adr_policy := qvel_adr_policy d;
     ctrl_adr_policy := ctrl_adr_policy d;
     control_type := control_type d;
     timestep := timestep d;
     decimation := decimation d;
     FS := FS d |}.

Definition set_robotPelvisBodyIds (v : gmap nat nat) (d : Demo) : Demo :=
  {| alive := alive d;
     params := params d;
     policyRunner := policyRunner d;
     policyRunners := policyRunners d;
     kpPolicy := kpPolicy d;
     kdPolicy := kdPolicy d;
     robotPolicyParams := robotPolicyParams d;
     actionTarget := actionTarget d;
     model := model d;
     data := data d;
     simulation := simulation d;
     robotConfigs := robotConfigs d;
     robotPelvisBodyIds := v;
     robotJointMappings := robotJointMappings d;
     numActions := numActions d;
     qpos_adr_policy := qpos_adr_policy d;
     qvel_adr_policy := qvel_adr_policy d;
     ctrl_adr_policy := ctrl_adr_policy d;
     control_type := control_type d;
     timestep := timestep d;
     decimation := decimation d;
     FS := FS d |}.

Definition set_timestep (v : num) (d : Demo) : Demo :=
  {| alive := alive d;
     params := params d;
     policyRunner := policyRunner d;
     policyRunners := policyRunners d;
     kpPolicy := kpPolicy d;
     kdPolicy := kdPolicy d;
     robotPolicyParams := robotPolicyParams d;
     actionTarget := actionTarget d;
     model := model d;
     data := data d;
     simulation := simulation d;
     robotConfigs := robotConfigs d;
     robotPelvisBodyIds := robotPelvisBodyIds d;
     robotJointMappings := robotJointMappings d;
     numActions := numActions d;
     qpos_adr_policy := qpos_adr_policy d;
     qvel_adr_policy := qvel_adr_policy d;
     ctrl_adr_policy := ctrl_adr_policy d;
     control_type := control_type d;
     timestep := v;
     decimation := decimation d;
     FS := FS d |}.

Definition set_decimation (v : nat) (d : Demo) : Demo :=
  {| alive := alive d;
     params := params d;
     policyRunner := policyRunner d;
     policyRunners := policyRunners d;
     kpPolicy := kpPolicy d;
     kdPolicy := kdPolicy d;
     robotPolicyParams := robotPolicyParams d;
     actionTarget := actionTarget d;
     model := model d;
     data := data d;
     simulation := simulation d;
     robotConfigs := robotConfigs d;
     robotPelvisBodyIds := robotPelvisBodyIds d;
     robotJointMappings := robotJointMappings d;
     numActions := numActions d;
     qpos_adr_policy := qpos_adr_policy d;
     qvel_adr_policy := qvel_adr_policy d;
     ctrl_adr_policy := ctrl_adr_policy d;
     control_type := control_type d;
     timestep := timestep d;
     decimation := v;
     FS := FS d |}.

Definition set_FS (v : gmap string (list ascii)) (d : Demo) : Demo :=
  {| alive := alive d;
     params := params d;
     policyRunner := policyRunner d;
     policyRunners := policyRunners d;
     kpPolicy := kpPolicy d;
     kdPolicy := kdPolicy d;
     robotPolicyParams := robotPolicyParams d;
     actionTarget := actionTarget d;
     model := model d;
     data := data d;
     simulation := simulation d;
     robotConfigs := robotConfigs d;
     robotPelvisBodyIds := robotPelvisBodyIds d;
     robotJointMappings := robotJointMappings d;
     numActions := numActions d;
     qpos_adr_policy := qpos_adr_policy d;
     qvel_adr_policy := qvel_adr_policy d;
     ctrl_adr_policy := ctrl_adr_policy d;
     control_type := control_type d;
     timestep := timestep d;
     decimation := decimation d;
     FS := v |}.

Definition set_policyRunners (v : list (option Runner)) (d : Demo) : Demo :=
  {| alive := alive d;
     params := params d;
     policyRunner := policyRunner d;
     policyRunners := v;
     kpPolicy := kpPolicy d;
     kdPolicy := kdPolicy d;
     robotPolicyParams := robotPolicyParams d;
     actionTarget := actionTarget d;
     model := model d;
     data := data d;
     simulation := simulation d;
     robotConfigs := robotConfigs d;
     robotPelvisBodyIds := robotPelvisBodyIds d;
     robotJointMappings := robotJointMappings d;
     numActions := numActions d;
     qpos_adr_policy := qpos_adr_policy d;
     qvel_adr_policy := qvel_adr_policy d;
     ctrl_adr_policy := ctrl_adr_policy d;
     control_type := control_type d;
     timestep := timestep d;
     decimation := decimation d;
     FS := FS d |}.
Definition set_paused (b : bool) (d : Demo) : Demo :=
  set_params {| paused := b; current_motion := current_motion (params d) |} d.
Definition set_current_motion (name : string) (d : Demo) : Demo :=
  set_params {| paused := paused (params d); current_motion := name |} d.

(** Which runner a call goes to: [this.policyRunner] or
    [this.policyRunners[robotIdx]]. *)
Inductive runner_ref := the_runner | runner_of (robotIdx : nat).

(** What awaiting a policy's [step] gives. *)
Inductive outcome := Returned (v : value) | Raised.

(** The calls and writes a method performs, in order. *)
Inductive event :=
  | PolicyStep (r : runner_ref) (state : PolicyState)
  | PolicyReset (r : runner_ref) (state : PolicyState)
  | CtrlWrite (r : runner_ref) (i : nat) (ctrlAdr : option nat) (ctrlValue : num)
  | PhysicsStep (substep : nat)
  | SetPaused (b : bool)
  | ResetData
  | Forward
  | ApplyToRobot (idx : nat)
  | StartMotionFromCurrent (idx : nat) (name : string) (state : PolicyState)
  | RequestMotion (idx : nat) (name : string) (state : PolicyState).

(** [reload]: [this.decimation = Math.max(1, Math.round(0.02 / this.timestep))]. *)
Definition decimation_of (timestep : num) : num :=
  Math_max lit_1 (Math_round (div lit_0_02 timestep)).

(** The number of iterations of
    [for (let substep = 0; substep < dec; substep++)]: none when the test
    fails at once, [None] when it never fails. *)
Definition substep_count (dec : num) : option nat :=
  match dec with
  | S754_nan | S754_zero _ | S754_infinity true | S754_finite true _ _ => Some 0
  | S754_infinity false => None
  | S754_finite false m e =>
      Some (Z.to_nat (if (0 <=? e)%Z then Z.shiftl (Zpos m) e
                      else - Z.shiftr (- Zpos m) (- e)))
  end.

(** *** Reading the policy state *)

(** [readPolicyState]. *)
Definition readPolicyState (d : Demo) (sim : Simulation) : PolicyState :=
  {| jointPos := map (fun i => fround (read (qpos sim) (qpos_adr_policy d !! i)))
                     (seq 0 (numActions d));
     jointVel := map (fun i => fround (read (qvel sim) (qvel_adr_policy d !! i)))
                     (seq 0 (numActions d));
     rootPos := map (fun k => fround (read (qpos sim) (Some k))) [0; 1; 2];
     rootQuat := map (fun k => fround (read (qpos sim) (Some k))) [3; 4; 5; 6];
     rootAngVel := map (fun k => fround (read (qvel sim) (Some k))) [3; 4; 5] |}.

(** [readPolicyStateForRobot]. *)
Definition readPolicyStateForRobot (d : Demo) (sim : Simulation) (robotIndex : nat)
  : PolicyState :=
  match mjoin (robotJointMappings d !! robotIndex) with
  | None => readPolicyState d sim
  | Some mapping =>
      let freejointQposAdr := default 0 (Mapping.freejoint_qpos_adr mapping) in
      let freejointQvelAdr := default 0 (Mapping.freejoint_qvel_adr mapping) in
      {| jointPos :=
           map (fun i => fround (read (qpos sim) (Mapping.qpos_adr_policy mapping !! i)))
               (seq 0 (Mapping.numActions mapping));
         jointVel :=
           map (fun i => fround (read (qvel sim) (Mapping.qvel_adr_policy mapping !! i)))
               (seq 0 (Mapping.numActions mapping));
         rootPos :=
           map (fun k => fround (read (qpos sim) (Some (freejointQposAdr + k)))) [0; 1; 2];
         rootQuat :=
           map (fun k => fround (read (qpos sim) (Some (freejointQposAdr + k)))) [3; 4; 5; 6];
         rootAngVel :=
           map (fun k => fround (read (qvel sim) (Some (freejointQvelAdr + k)))) [3; 4; 5] |}
  end.

(** *** The PD law and the actuator clamp *)

(** [kp * (targetJpos - qpos[qposAdr]) + kd * (0 - qvel[qvelAdr])]. *)
Definition pd_torque (kp kd targetJpos q v : num) : num :=
  add (mul kp (sub targetJpos q)) (mul kd (sub pzero v)).

(** The declared range [(min, max)] of the actuator at [ctrlAdr], when
    [actuator_ctrlrange] is present and long enough to hold it. *)
Definition declared_range (ctrlRange : option (list num)) (ctrlAdr : option nat)
  : option (num * num) :=
  match ctrlRange, ctrlAdr with
  | Some r, Some a =>
      if (a + 1) * 2 <=? length r then
        match r !! (a * 2), r !! (a * 2 + 1) with
        | Some min, Some max => Some (min, max)
        | _, _ => None
        end
      else None
  | _, _ => None
  end.

(** [ctrlValue] after the range test of the loop body. *)
Definition clamp_ctrl (ctrlRange : option (list num)) (ctrlAdr : option nat)
    (torque : num) : num :=
  match declared_range ctrlRange ctrlAdr with
  | Some (min, max) =>
      if Number_isFinite min && Number_isFinite max && lt min max
      then Math_min (Math_max torque min) max
      else torque
  | None => torque
  end.

(** [this.simulation.ctrl[ctrlAdr] = ctrlValue] on the typed array: nothing
    happens beyond its end or without an address. *)
Definition write_ctrl (ctrlAdr : option nat) (ctrlValue : num) (sim : Simulation)
  : Simulation :=
  match ctrlAdr with
  | Some a => set_ctrl (<[a := ctrlValue]> (ctrl sim)) sim
  | None => sim
  end.

(** [kpArr ? kpArr[i] : 0.0]. *)
Definition gain (arr : option (list num)) (i : nat) : num :=
  match arr with
  | Some a => read a (Some i)
  | None => pzero
  end.

(** [robotParams?.kp ?? this.kpPolicy] and the same for [kd], with
    [robotParams = this.robotPolicyParams?.[robotIdx] ?? null]. *)
Definition kpArr (d : Demo) (robotIdx : nat) : option (list num) :=
  match mjoin (robotPolicyParams d !! robotIdx) ≫= kp with
  | Some a => Some a
  | None => kpPolicy d
  end.
Definition kdArr (d : Demo) (robotIdx : nat) : option (list num) :=
  match mjoin (robotPolicyParams d !! robotIdx) ≫= kd with
  | Some a => Some a
  | None => kdPolicy d
  end.

Definition ctrlRange_of (d : Demo) : option (list num) :=
  model d ≫= actuator_ctrlrange.

(** The state threaded through a tick: the simulation arrays and the events
    so far. *)
Definition run : Type := Simulation * list event.

(** The value the multi-robot loop computes for index [i]: from
    [const qposAdr] down to the range test. *)
Definition ctrl_value_multi (d : Demo) (robotIdx : nat) (mapping : Mapping.t)
    (actionTarget : value) (sim : Simulation) (i : nat) : num :=
  let qposAdr := Mapping.qpos_adr_policy mapping !! i in
  let qvelAdr := Mapping.qvel_adr_policy mapping !! i in
  let ctrlAdr := Mapping.ctrl_adr_policy mapping !! i in
  let targetJpos :=
    match index actionTarget i with
    | PNumber t => t
    | PUndefined | PNull => pzero
    end in
  let kp := gain (kpArr d robotIdx) i in
  let kd := gain (kdArr d robotIdx) i in
  let torque := pd_torque kp kd targetJpos (read (qpos sim) qposAdr)
                          (read (qvel sim) qvelAdr) in
  clamp_ctrl (ctrlRange_of d) ctrlAdr torque.

(** Body of the multi-robot loop over [i]. *)
Definition control_dof_multi (d : Demo) (robotIdx : nat) (mapping : Mapping.t)
    (actionTarget : value) (st : run) (i : nat) : run :=
  let '(sim, tr) := st in
  let ctrlAdr := Mapping.ctrl_adr_policy mapping !! i in
  let ctrlValue := ctrl_value_multi d robotIdx mapping actionTarget sim i in
  (write_ctrl ctrlAdr ctrlValue sim,
   tr ++ [CtrlWrite (runner_of robotIdx) i ctrlAdr ctrlValue]).

(** The three tests of the sub-step loop on [actionTargets[robotIdx]]:
    present, an [Array] or [Float32Array], of length [numActions]. *)
Definition usable_target (mapping : Mapping.t) (actionTarget : value) : bool :=
  truthy actionTarget
  && is_array_like actionTarget
  && (length_of actionTarget =? Mapping.numActions mapping).

(** Body of the multi-robot loop over [robotIdx], with its [continue]s. *)
Definition control_robot (d : Demo) (actionTargets : gmap nat value) (st : run)
    (robotIdx : nat) : run :=
  match mjoin (robotJointMappings d !! robotIdx) with
  | None => st
  | Some mapping =>
      let actionTarget := default VUndefined (actionTargets !! robotIdx) in
      if usable_target mapping actionTarget
      then foldl (control_dof_multi d robotIdx mapping actionTarget) st
                 (seq 0 (Mapping.numActions mapping))
      else st
  end.

(** The value the single-robot loop computes for index [i]. *)
Definition ctrl_value_single (d : Demo) (sim : Simulation) (i : nat) : num :=
  let qpos_adr := qpos_adr_policy d !! i in
  let qvel_adr := qvel_adr_policy d !! i in
  let ctrl_adr := ctrl_adr_policy d !! i in
  let targetJpos :=
    if truthy (actionTarget d) then to_number (index (actionTarget d) i)
    else pzero in
  let kp := gain (kpPolicy d) i in
  let kd := gain (kdPolicy d) i in
  let torque := pd_torque kp kd targetJpos (read (qpos sim) qpos_adr)
                          (read (qvel sim) qvel_adr) in
  clamp_ctrl (ctrlRange_of d) ctrl_adr torque.

(** Body of the single-robot loop over [i]. *)
Definition control_dof_single (d : Demo) (st : run) (i : nat) : run :=
  let '(sim, tr) := st in
  let ctrl_adr := ctrl_adr_policy d !! i in
  let ctrlValue := ctrl_value_single d sim i in
  (write_ctrl ctrl_adr ctrlValue sim,
   tr ++ [CtrlWrite the_runner i ctrl_adr ctrlValue]).

Definition isMultiRobot (d : Demo) : bool := 1 <? length (robotJointMappings d).

(** The control writes of one sub-step. *)
Definition control_phase (d : Demo) (actionTargets : gmap nat value) (st : run)
  : run :=
  match control_type d with
  | joint_position =>
      if isMultiRobot d then
        foldl (control_robot d actionTargets) st
              (seq 0 (length (robotJointMappings d)))
      else foldl (control_dof_single d) st (seq 0 (numActions d))
  | torque | other_control => st
  end.


(** *** The writes of a control phase, as a list

    [phase_writes] lists, in program order, the writes the control phase of
    a sub-step performs: robot (or single runner), index, address, value. *)
Definition write : Type := runner_ref * nat * option nat * num.
Definition write_adr (w : write) : option nat := w.1.2.
Definition write_val (w : write) : num := w.2.
Definition write_event (w : write) : event :=
  CtrlWrite w.1.1.1 w.1.1.2 w.1.2 w.2.
Definition apply_write (sim : Simulation) (w : write) : Simulation :=
  write_ctrl (write_adr w) (write_val w) sim.
Definition apply_writes (ws : list write) (sim : Simulation) : Simulation :=
  foldl apply_write sim ws.

Definition dof_writes_multi (d : Demo) (r : nat) (m : Mapping.t) (target : value)
    (sim : Simulation) : list write :=
  map (fun i => (runner_of r, i, Mapping.ctrl_adr_policy m !! i,
                 ctrl_value_multi d r m target sim i))
      (seq 0 (Mapping.numActions m)).

Definition robot_writes (d : Demo) (actionTargets : gmap nat value)
    (sim : Simulation) (r : nat) : list write :=
  match mjoin (robotJointMappings d !! r) with
  | None => []
  | Some m =>
      let target := default VUndefined (actionTargets !! r) in
      if usable_target m target then dof_writes_multi d r m target sim else []
  end.

Definition single_writes (d : Demo) (sim : Simulation) : list write :=
  map (fun i => (the_runner, i, ctrl_adr_policy d !! i, ctrl_value_single d sim i))
      (seq 0 (numActions d)).

Definition phase_writes (d : Demo) (actionTargets : gmap nat value)
    (sim : Simulation) : list write :=
  match control_type d with
  | joint_position =>
      if isMultiRobot d then
        mjoin (robot_writes d actionTargets sim
               <$> seq 0 (length (robotJointMappings d)))
      else single_writes d sim
  | torque | other_control => []
  end.


(** *** A controlled degree of freedom, in the specification's words

    Gains [kp[i]], [kd[i]], target [target[i]], position [qpos[qpos_adr[i]]],
    velocity [qvel[qvel_adr[i]]] and mapped control address. *)
Record dof := {
  dof_kp : num; dof_kd : num; dof_target : num;
  dof_qpos : num; dof_qvel : num; dof_ctrlAdr : nat
}.

Definition spec_torque (x : dof) : num :=
  add (mul (dof_kp x) (sub (dof_target x) (dof_qpos x)))
      (mul (dof_kd x) (sub pzero (dof_qvel x))).

Definition range_applies (range : option (num * num)) : bool :=
  match range with
  | Some (min, max) => Number_isFinite min && Number_isFinite max && lt min max
  | None => false
  end.

Definition spec_ctrl (range : option (num * num)) (x : dof) : num :=
  match range with
  | Some (min, max) =>
      if range_applies range then Math_min (Math_max (spec_torque x) min) max
      else spec_torque x
  | None => spec_torque x
  end.

Definition controlled_multi (d : Demo) (actionTargets : gmap nat value)
    (sim : Simulation) (r i : nat) (x : dof) : Prop :=
  exists m target kps kds qa va,
    mjoin (robotJointMappings d !! r) = Some m
    /\ actionTargets !! r = Some target
    /\ usable_target m target = true
    /\ i < Mapping.numActions m
    /\ index target i = PNumber (dof_target x)
    /\ kpArr d r = Some kps /\ kps !! i = Some (dof_kp x)
    /\ kdArr d r = Some kds /\ kds !! i = Some (dof_kd x)
    /\ Mapping.qpos_adr_policy m !! i = Some qa /\ qpos sim !! qa = Some (dof_qpos x)
    /\ Mapping.qvel_adr_policy m !! i = Some va /\ qvel sim !! va = Some (dof_qvel x)
    /\ Mapping.ctrl_adr_policy m !! i = Some (dof_ctrlAdr x).

Definition controlled_single (d : Demo) (sim : Simulation) (i : nat) (x : dof) : Prop :=
  exists kps kds qa va,
    truthy (actionTarget d) = true
    /\ i < numActions d
    /\ index (actionTarget d) i = PNumber (dof_target x)
    /\ kpPolicy d = Some kps /\ kps !! i = Some (dof_kp x)
    /\ kdPolicy d = Some kds /\ kds !! i = Some (dof_kd x)
    /\ qpos_adr_policy d !! i = Some qa /\ qpos sim !! qa = Some (dof_qpos x)
    /\ qvel_adr_policy d !! i = Some va /\ qvel sim !! va = Some (dof_qvel x)
    /\ ctrl_adr_policy d !! i = Some (dof_ctrlAdr x).

Definition controlled (d : Demo) (actionTargets : gmap nat value)
    (sim : Simulation) (r : runner_ref) (i : nat) (x : dof) : Prop :=
  match r with
  | runner_of r => isMultiRobot d = true /\ controlled_multi d actionTargets sim r i x
  | the_runner => isMultiRobot d = false /\ controlled_single d sim i x
  end.

Definition sole_writer (d : Demo) (r : runner_ref) (i c : nat) : Prop :=
  match r with
  | runner_of r =>
      forall r' m' j,
        mjoin (robotJointMappings d !! r') = Some m' ->
        Mapping.ctrl_adr_policy m' !! j = Some c -> r' = r /\ j = i
  | the_runner => forall j, ctrl_adr_policy d !! j = Some c -> j = i
  end.


Section Physics.

(** The physics engine and the drag interaction are external: [mj_step] is
    [simulation.step()], and [drag] is the force the drag-state manager
    applies through [simulation.applyForce] (the identity while nothing is
    dragged). *)
Variables mj_step drag : Simulation -> Simulation.

(** One iteration of the sub-step loop. *)
Definition substep (d : Demo) (actionTargets : gmap nat value) (st : run)
    (k : nat) : run :=
  let '(sim, tr) := control_phase d actionTargets st in
  let sim := set_qfrc_applied (map (fun _ => pzero) (qfrc_applied sim)) sim in
  let sim := drag sim in
  (mj_step sim, tr ++ [PhysicsStep k]).

Definition substeps (d : Demo) (actionTargets : gmap nat value) (st : run) : run :=
  foldl (substep d actionTargets) st (seq 0 (decimation d)).

(** The test on the value a runner of the multi-robot loop resolved to. *)
Definition invalid_result (actionTarget : value) : bool :=
  negb (truthy actionTarget)
  || negb (is_array_like actionTarget)
  || (length_of actionTarget =? 0).

(** The inference loop of the multi-robot branch over the remaining robot
    indices; [None] when a [step] raised. *)
Fixpoint infer_multi (oracle : runner_ref -> PolicyState -> outcome) (d : Demo)
    (sim : Simulation) (robots : list nat) (actionTargets : gmap nat value)
    (tr : list event) : option (gmap nat value) * list event :=
  match robots with
  | [] => (Some actionTargets, tr)
  | robotIdx :: rest =>
      match mjoin (policyRunners d !! robotIdx) with
      | None => infer_multi oracle d sim rest actionTargets tr
      | Some _ =>
          let state := readPolicyStateForRobot d sim robotIdx in
          let tr := tr ++ [PolicyStep (runner_of robotIdx) state] in
          match oracle (runner_of robotIdx) state with
          | Raised => (None, tr)
          | Returned actionTarget =>
              if invalid_result actionTarget
              then infer_multi oracle d sim rest actionTargets tr
              else infer_multi oracle d sim rest
                     (<[robotIdx := actionTarget]> actionTargets) tr
          end
      end
  end.

(** What one pass through the body of [while (this.alive)] leaves: the
    object, the events, and whether the pass left the loop by [break]. *)
Record TickResult := { demo : Demo; trace : list event; broke : bool }.

Definition hasPolicyRunner (d : Demo) : bool :=
  if isMultiRobot d then 0 <? length (policyRunners d)
  else bool_decide (is_Some (policyRunner d)).

(** One pass through the loop body, up to the pacing sleep.  The snapshot
    for the renderer and the rate meter are not part of the model. *)
Definition tick (oracle : runner_ref -> PolicyState -> outcome) (d : Demo)
  : TickResult :=
  match model d, simulation d with
  | Some _, Some sim =>
      if negb (paused (params d)) && data d && hasPolicyRunner d then
        if isMultiRobot d then
          match infer_multi oracle d sim (seq 0 (length (robotJointMappings d))) ∅ [] with
          | (None, tr) =>
              {| demo := set_alive false d; trace := tr; broke := true |}
          | (Some actionTargets, tr) =>
              let d := set_actionTarget (default VUndefined (actionTargets !! 0)) d in
              let '(sim, tr) := substeps d actionTargets (sim, tr) in
              {| demo := set_simulation (Some sim) d; trace := tr; broke := false |}
          end
        else
          let state := readPolicyState d sim in
          let tr := [PolicyStep the_runner state] in
          match oracle the_runner state with
          | Raised => {| demo := set_alive false d; trace := tr; broke := true |}
          | Returned v =>
              let d := set_actionTarget v d in
              let '(sim, tr) := substeps d {[ 0 := v ]} (sim, tr) in
              {| demo := set_simulation (Some sim) d; trace := tr; broke := false |}
          end
      else {| demo := d; trace := []; broke := false |}
  | _, _ => {| demo := d; trace := []; broke := false |}
  end.

(** [main_loop], for at most [fuel] passes; [oracles n] answers the policy
    calls of pass [n]. *)
Fixpoint main_loop_from (fuel n : nat)
    (oracles : nat -> runner_ref -> PolicyState -> outcome) (d : Demo)
  : Demo * list event :=
  match fuel with
  | 0 => (d, [])
  | S fuel =>
      if alive d then
        let r := tick (oracles n) d in
        if broke r then (demo r, trace r)
        else
          let '(d', tr) := main_loop_from fuel (S n) oracles (demo r) in
          (d', trace r ++ tr)
      else (d, [])
  end.

Definition main_loop (fuel : nat)
    (oracles : nat -> runner_ref -> PolicyState -> outcome) (d : Demo)
  : Demo * list event :=
  if bool_decide (policyRunner d = None) && (length (policyRunners d) =? 0)
  then (d, [])
  else main_loop_from fuel 0 oracles d.

End Physics.

(** The value a runner resolved to passes both the test of the inference
    loop and the tests of the sub-step loop. *)
Definition valid_target (mapping : Mapping.t) (actionTarget : value) : bool :=
  usable_target mapping actionTarget && negb (invalid_result actionTarget).

(** [this.policyRunners[r] = null]. *)
Definition detach (r : nat) (d : Demo) : Demo :=
  set_policyRunners (<[r := None]> (policyRunners d)) d.

Definition is_PhysicsStep (e : event) : bool :=
  match e with PhysicsStep _ => true | _ => false end.
Definition is_CtrlWrite (e : event) : bool :=
  match e with CtrlWrite _ _ _ _ => true | _ => false end.
Definition is_PolicyStep (e : event) : bool :=
  match e with PolicyStep _ _ => true | _ => false end.

(** Some [step] awaited during the pass raises. *)
Definition raises (oracle : runner_ref -> PolicyState -> outcome) (d : Demo)
    (sim : Simulation) : Prop :=
  if isMultiRobot d then
    exists r, r < length (robotJointMappings d)
      /\ is_Some (mjoin (policyRunners d !! r))
      /\ oracle (runner_of r) (readPolicyStateForRobot d sim r) = Raised
  else oracle the_runner (readPolicyState d sim) = Raised.

(** The guard of the loop body holds: not paused, model, data, simulation
    and a policy runner present. *)
Definition running (d : Demo) (sim : Simulation) : Prop :=
  is_Some (model d) /\ simulation d = Some sim /\ paused (params d) = false
  /\ data d = true /\ hasPolicyRunner d = true.

(** What the inference loop keeps of robot [r]'s answer: the value when a
    runner is attached, its [step] returns and the value passes the test. *)
Definition accepted (oracle : runner_ref -> PolicyState -> outcome) (d : Demo)
    (sim : Simulation) (r : nat) : option value :=
  match mjoin (policyRunners d !! r) with
  | None => None
  | Some _ =>
      match oracle (runner_of r) (readPolicyStateForRobot d sim r) with
      | Returned v => if invalid_result v then None else Some v
      | Raised => None
      end
  end.

(** *** The sub-step loop, as a function of the simulation alone *)

Section Views.
Variables mj_step drag : Simulation -> Simulation.

Definition after_substep (d : Demo) (ats : gmap nat value) (s : Simulation)
  : Simulation :=
  let s := apply_writes (phase_writes d ats s) s in
  mj_step (drag (set_qfrc_applied (map (fun _ => pzero) (qfrc_applied s)) s)).

Fixpoint run_substeps (d : Demo) (ats : gmap nat value) (s : Simulation)
    (ks : list nat) : Simulation * list event :=
  match ks with
  | [] => (s, [])
  | k :: ks =>
      let '(s', tr) := run_substeps d ats (after_substep d ats s) ks in
      (s', map write_event (phase_writes d ats s) ++ PhysicsStep k :: tr)
  end.
End Views.


Definition attached (d : Demo) (r : nat) : Prop := is_Some (mjoin (policyRunners d !! r)).

(** Robot [r] has no valid action target in this pass: no runner is attached,
    or its [step] returned a value that fails a test. *)
Definition invalid_or_missing (oracle : runner_ref -> PolicyState -> outcome)
    (d : Demo) (sim : Simulation) (r : nat) (m : Mapping.t) : Prop :=
  mjoin (policyRunners d !! r) = None
  \/ exists v, oracle (runner_of r) (readPolicyStateForRobot d sim r) = Returned v
       /\ valid_target m v = false.


(** *** [setMultiRobotInitialPositions] and [resetSimulation] *)

(** [namesArray.subarray(start_idx, end_idx)] up to the first NUL byte. *)
Fixpoint until_nul (bytes : list ascii) : list ascii :=
  match bytes with
  | [] => []
  | c :: rest => if Ascii.eqb c zero then [] else c :: until_nul rest
  end.

(** The decoded name of body [b]; without an entry in [name_bodyadr] the
    sub-array is the whole blob. *)
Definition bodyName (m : Model) (b : nat) : list ascii :=
  match name_bodyadr m !! b with
  | Some start_idx => until_nul (drop start_idx (names m))
  | None => names m
  end.

(** [index === 0 ? 'pelvis' : `robot${index + 1}_pelvis`]. *)
Definition robotPrefix (index : nat) : string :=
  if index =? 0 then "pelvis"
  else "robot" +:+ string_of_nat (index + 1) +:+ "_pelvis".

(** The first [b] of [bs] whose name is [name]. *)
Fixpoint find_body (m : Model) (name : list ascii) (bs : list nat) : option nat :=
  match bs with
  | [] => None
  | b :: bs =>
      if bool_decide (bodyName m b = name) then Some b else find_body m name bs
  end.

Definition pelvisBodyId_of (m : Model) (index : nat) : option nat :=
  find_body m (list_ascii_of_string (robotPrefix index)) (seq 0 (nbody m)).

(** The seven writes [qpos[qposAdr + 0 .. 6]]: position and upright quaternion. *)
Definition pose (config : Config.t) : list num :=
  [Config.x config; Config.y config; Config.z config; lit_1; pzero; pzero; pzero].

Definition set_pose (qposAdr : nat) (config : Config.t) (qpos : list num) : list num :=
  <[qposAdr + 6 := pzero]>
    (<[qposAdr + 5 := pzero]>
       (<[qposAdr + 4 := pzero]>
          (<[qposAdr + 3 := lit_1]>
             (<[qposAdr + 2 := Config.z config]>
                (<[qposAdr + 1 := Config.y config]>
                   (<[qposAdr + 0 := Config.x config]> qpos)))))).

(** The loop over the joints [js]: the first joint of the pelvis body whose
    address passes the bounds test receives the pose, then [break]. *)
Fixpoint place_robot (m : Model) (pelvisBodyId : nat) (config : Config.t)
    (js : list nat) (qpos : list num) : list num :=
  match js with
  | [] => qpos
  | j :: js =>
      if bool_decide (jnt_bodyid m !! j = Some pelvisBodyId) then
        match jnt_qposadr m !! j with
        | Some qposAdr =>
            if (0 <=? qposAdr)%Z && (qposAdr + 6 <? Z.of_nat (length qpos))%Z
            then set_pose (Z.to_nat qposAdr) config qpos
            else place_robot m pelvisBodyId config js qpos
        | None => place_robot m pelvisBodyId config js qpos
        end
      else place_robot m pelvisBodyId config js qpos
  end.

(** Body of [robotConfigs.forEach((config, index) => ...)]. *)
Definition place_config (m : Model) (st : gmap nat nat * list num)
    (ic : nat * Config.t) : gmap nat nat * list num :=
  let '(ids, qpos) := st in
  let '(index, config) := ic in
  match pelvisBodyId_of m index with
  | None => (ids, qpos)
  | Some pelvisBodyId =>
      (<[index := pelvisBodyId]> ids,
       place_robot m pelvisBodyId config (seq 0 (njnt m)) qpos)
  end.

Section Methods.
Variables mj_forward mj_resetData : Simulation -> Simulation.

(** [setMultiRobotInitialPositions]. *)
Definition setMultiRobotInitialPositions (d : Demo) : Demo * list event :=
  if length (robotConfigs d) <=? 1 then (d, [])
  else
    match model d, data d, simulation d with
    | Some m, true, Some sim =>
        let '(ids, qpos') :=
          foldl (place_config m) (∅, qpos sim) (Generator.indexed (robotConfigs d)) in
        (set_simulation (Some (mj_forward (set_qpos qpos' sim)))
           (set_robotPelvisBodyIds ids d),
         [Forward])
    | _, _, _ => (d, [])
    end.

(** The loop of [resetSimulation] over [this.policyRunners]. *)
Definition reset_runners (d : Demo) (sim : Simulation) : list event :=
  omap (fun robotIdx =>
          match mjoin (policyRunners d !! robotIdx) with
          | Some _ => Some (PolicyReset (runner_of robotIdx)
                              (readPolicyStateForRobot d sim robotIdx))
          | None => None
          end)
       (seq 0 (length (policyRunners d))).

(** [resetSimulation]; a policy's [reset] is taken to return. *)
Definition resetSimulation (d : Demo) : Demo * list event :=
  match simulation d with
  | None => (d, [])
  | Some sim =>
      let d := set_paused true d in
      let d := set_simulation (Some (mj_forward (mj_resetData sim))) d in
      let '(d, poses) :=
        if 1 <? length (robotConfigs d) then setMultiRobotInitialPositions d
        else (d, []) in
      let d := set_actionTarget VNull d in
      let '(d, resets) :=
        match simulation d with
        | Some sim =>
            if isMultiRobot d then
              (set_current_motion "default" d, reset_runners d sim)
            else
              match policyRunner d with
              | Some _ =>
                  (set_current_motion "default" d,
                   [PolicyReset the_runner (readPolicyState d sim)])
              | None => (d, [])
              end
        | None => (d, [])
        end in
      (set_paused false d,
       [SetPaused true; ResetData; Forward] ++ poses ++ resets ++ [SetPaused false])
  end.

End Methods.

(** The address the pose of robot [index] is written at, for a [qpos] of
    length [len]. *)
Fixpoint joint_adr (m : Model) (pelvisBodyId : nat) (len : nat) (js : list nat)
  : option nat :=
  match js with
  | [] => None
  | j :: js =>
      if bool_decide (jnt_bodyid m !! j = Some pelvisBodyId) then
        match jnt_qposadr m !! j with
        | Some qposAdr =>
            if (0 <=? qposAdr)%Z && (qposAdr + 6 <? Z.of_nat len)%Z
            then Some (Z.to_nat qposAdr)
            else joint_adr m pelvisBodyId len js
        | None => joint_adr m pelvisBodyId len js
        end
      else joint_adr m pelvisBodyId len js
  end.

Definition spawn_adr (m : Model) (len index : nat) : option nat :=
  pelvisBodyId_of m index ≫= fun b => joint_adr m b len (seq 0 (njnt m)).


Definition is_reset_step (e : event) : bool :=
  match e with
  | Forward | PolicyReset _ _ => true
  | _ => false
  end.


(** *** [generateMultiRobotScene] and [requestMotion] *)

Definition targetPath : string := "/working/g1/g1.xml".

Section Scene.
Variable Number_toString : num -> Regex.text.

(** [generateMultiRobotScene], given what the fetch of the base scene gives;
    [robotConfigs] is [None] for a missing argument. *)
Definition generateMultiRobotScene (fetched : Generator.response)
    (robotConfigs : option (list Config.t)) (d : Demo)
  : Demo * Generator.result unit :=
  match robotConfigs with
  | None => (d, Generator.Throw Generator.RobotConfigsEmpty)
  | Some configs =>
      if length configs =? 0 then (d, Generator.Throw Generator.RobotConfigsEmpty)
      else if 11 <? length configs then (d, Generator.Throw Generator.MaximumRobots)
      else
        let d := set_robotConfigs configs d in
        match Generator.generateMultiRobotXML Number_toString fetched configs with
        | Generator.Throw e => (d, Generator.Throw e)
        | Generator.Ok generatedXml =>
            (set_FS (<[targetPath := generatedXml]> (FS d)) d,
             Generator.Ok ())
        end
  end.
End Scene.

(** The runners a motion request goes to. *)
Definition runners_of (d : Demo) : list (option Runner) :=
  if isMultiRobot d && (0 <? length (policyRunners d)) then policyRunners d
  else
    match policyRunner d with
    | Some r => [Some r]
    | None => []
    end.

(** [applyToRobot(idx)]; [None] when the state is read without a
    simulation, which raises. *)
Definition applyToRobot (d : Demo) (name : string) (force : bool) (idx : nat)
  : option (Demo * list event * bool) :=
  match mjoin (runners_of d !! idx) ≫= tracking with
  | None => Some (d, [ApplyToRobot idx], false)
  | Some t =>
      if negb (bool_decide (name ∈ motions t)) then Some (d, [ApplyToRobot idx], false)
      else
        match simulation d with
        | None => None
        | Some sim =>
            let state :=
              if isMultiRobot d then readPolicyStateForRobot d sim idx
              else readPolicyState d sim in
            let '(accepted, ev) :=
              if force && has_startMotionFromCurrent t
              then (true, StartMotionFromCurrent idx name state)
              else (tracking_requestMotion t name state, RequestMotion idx name state) in
            let d :=
              if accepted then
                match robotConfigs d !! idx with
                | Some c =>
                    set_robotConfigs (<[idx := Config.set_motion name c]> (robotConfigs d)) d
                | None => d
                end
              else d in
            Some (d, [ApplyToRobot idx; ev], accepted)
        end
  end.

(** The loop of [requestMotion] over all runners. *)
Fixpoint apply_all (d : Demo) (name : string) (force : bool) (idxs : list nat)
    (allAccepted : bool) : option (Demo * list event * bool) :=
  match idxs with
  | [] => Some (d, [], allAccepted)
  | i :: idxs =>
      match applyToRobot d name force i with
      | None => None
      | Some (d, tr, ok) =>
          match apply_all d name force idxs (allAccepted && ok) with
          | None => None
          | Some (d, tr', all) => Some (d, tr ++ tr', all)
          end
      end
  end.

(** [Math.max(0, Math.min(Math.floor(robotIndex), runners.length - 1))] for
    the integer [fl = Math.floor(robotIndex)]. *)
Definition clamp_index (fl : Z) (n : nat) : nat :=
  Z.to_nat (Z.max 0 (Z.min fl (Z.of_nat n - 1))).

(** [requestMotion(name, robotIndex, force)]; an [undefined] [robotIndex]
    takes the default [null]. *)
Definition requestMotion (d : Demo) (name robotIndex : value) (force : bool)
  : option (Demo * list event * bool) :=
  let runners := runners_of d in
  match name with
  | VString s =>
      if negb (truthy name) || (length runners =? 0) then Some (d, [], false)
      else
        match robotIndex with
        | VNull | VUndefined =>
            match apply_all d s force (seq 0 (length runners)) true with
            | None => None
            | Some (d, tr, allAccepted) =>
                Some (if allAccepted then set_current_motion s d else d,
                      tr, allAccepted)
            end
        | VNumber x =>
            if Number_isFinite x then
              applyToRobot d s force (clamp_index (default 0%Z (floorZ x)) (length runners))
            else Some (d, [], false)
        | _ => Some (d, [], false)
        end
  | _ => Some (d, [], false)
  end.

(** The three early [return false] of [requestMotion]: the name is missing
    (falsy) or not a string, there is no runner, or [robotIndex] is neither
    null nor a finite number. *)
Definition rejects_early (d : Demo) (name robotIndex : value) : Prop :=
  (forall s, name = VString s -> s = EmptyString)
  \/ runners_of d = []
  \/ (robotIndex <> VNull /\ robotIndex <> VUndefined
      /\ forall x, robotIndex = VNumber x -> Number_isFinite x = false).


End Demo.


(* ===================================================================== *)
(** ** Concrete scenes used by the witnesses                              *)
(* ===================================================================== *)

Module Examples.
Import JS Demo.

Definition nums (zs : list Z) : list num := of_Z <$> zs.

Definition runner0 : Runner := {| tracking := None |}.

Definition mapping_a : Mapping.t :=
  {| Mapping.qpos_adr_policy := [7]; Mapping.qvel_adr_policy := [6];
     Mapping.ctrl_adr_policy := [0]; Mapping.numActions := 1;
     Mapping.freejoint_qpos_adr := Some 0; Mapping.freejoint_qvel_adr := Some 0 |}.

Definition mapping_b : Mapping.t :=
  {| Mapping.qpos_adr_policy := [15]; Mapping.qvel_adr_policy := [13];
     Mapping.ctrl_adr_policy := [1]; Mapping.numActions := 1;
     Mapping.freejoint_qpos_adr := Some 8; Mapping.freejoint_qvel_adr := Some 7 |}.

(** Bodies [world], [pelvis], [robot2_pelvis]; a free joint and a hinge per
    robot. *)
Definition model2 : Model :=
  {| actuator_ctrlrange := Some (nums [-50; 50; -50; 50]%Z);
     nbody := 3;
     names := list_ascii_of_string
       ("world" +:+ String zero ("pelvis" +:+ String zero ("robot2_pelvis" +:+ String zero EmptyString)));
     name_bodyadr := [0; 6; 13];
     njnt := 4;
     jnt_bodyid := [1; 1; 2; 2];
     jnt_qposadr := [0; 7; 8; 15]%Z |}.

Definition sim2 : Simulation :=
  {| qpos := nums [0; 0; 1; 1; 0; 0; 0; 2; 3; 0; 1; 1; 0; 0; 0; -1]%Z;
     qvel := nums [0; 0; 0; 0; 0; 0; 1; 0; 0; 0; 0; 0; 0; 0]%Z;
     ctrl := nums [7; 7]%Z;
     qfrc_applied := nums [0; 0; 0; 0; 0; 0; 9; 0; 0; 0; 0; 0; 0; 9]%Z |}.

Definition config (a b c : Z) : Config.t :=
  {| Config.x := of_Z a; Config.y := of_Z b; Config.z := of_Z c; Config.motion := None |}.

Definition demo2 : Demo :=
  {| alive := true;
     params := {| paused := false; current_motion := "default" |};
     policyRunner := None;
     policyRunners := [Some runner0; Some runner0];
     kpPolicy := Some (nums [100]%Z);
     kdPolicy := Some (nums [2]%Z);
     robotPolicyParams := [];
     actionTarget := VNull;
     model := Some model2;
     data := true;
     simulation := Some sim2;
     robotConfigs := [config 0 0 1; config 3 0 1];
     robotPelvisBodyIds := ∅;
     robotJointMappings := [Some mapping_a; Some mapping_b];
     numActions := 1;
     qpos_adr_policy := [7];
     qvel_adr_policy := [6];
     ctrl_adr_policy := [0];
     control_type := joint_position;
     timestep := lit_0_004;
     decimation := 5;
     FS := ∅ |}.

Definition sim1 : Simulation :=
  {| qpos := nums [0; 0; 1; 1; 0; 0; 0; 2]%Z;
     qvel := nums [0; 0; 0; 0; 0; 0; 1]%Z;
     ctrl := nums [7]%Z;
     qfrc_applied := nums [0; 0; 0; 0; 0; 0; 9]%Z |}.

Definition demo1 : Demo :=
  {| alive := true;
     params := {| paused := false; current_motion := "default" |};
     policyRunner := Some runner0;
     policyRunners := [];
     kpPolicy := Some (nums [100]%Z);
     kdPolicy := Some (nums [2]%Z);
     robotPolicyParams := [];
     actionTarget := VNull;
     model := Some model2;
     data := true;
     simulation := Some sim1;
     robotConfigs := [config 0 0 1];
     robotPelvisBodyIds := ∅;
     robotJointMappings := [];
     numActions := 1;
     qpos_adr_policy := [7];
     qvel_adr_policy := [6];
     ctrl_adr_policy := [0];
     control_type := joint_position;
     timestep := lit_0_004;
     decimation := 5;
     FS := ∅ |}.

(** Both robots answer with a target of the right length. *)
Definition targets2 : gmap nat value :=
  <[1 := VArray [PNumber (of_Z (-1))]]> {[ 0 := VFloat32Array (nums [3]%Z) ]}.

Definition oracle_ok (r : runner_ref) (_ : PolicyState) : outcome :=
  match r with
  | runner_of 1 => Returned (VArray [PNumber (of_Z (-1))])
  | _ => Returned (VFloat32Array (nums [3]%Z))
  end.

(** The second robot answers with a target of length 2. *)
Definition oracle_long (r : runner_ref) (_ : PolicyState) : outcome :=
  match r with
  | runner_of 1 => Returned (VArray [PNumber (of_Z 1); PNumber (of_Z 2)])
  | _ => Returned (VFloat32Array (nums [3]%Z))
  end.

(** The second robot's [step] raises. *)
Definition oracle_raise (r : runner_ref) (_ : PolicyState) : outcome :=
  match r with
  | runner_of 1 => Raised
  | _ => Returned (VFloat32Array (nums [3]%Z))
  end.

(** The single runner resolves to [undefined]. *)
Definition oracle_missing (_ : runner_ref) (_ : PolicyState) : outcome :=
  Returned VUndefined.

Definition dof_a : dof :=
  {| dof_kp := of_Z 100; dof_kd := of_Z 2; dof_target := of_Z 3;
     dof_qpos := of_Z 2; dof_qvel := of_Z 1; dof_ctrlAdr := 0 |}.

Definition still (s : Simulation) : Simulation := s.

Definition tracker : Tracking :=
  {| motions := ["default"; "dance"];
     tracking_requestMotion := fun _ _ => true;
     has_startMotionFromCurrent := true |}.
Definition runner_t : Runner := {| tracking := Some tracker |}.
Definition demo2t : Demo := set_policyRunners [Some runner_t; Some runner_t] demo2.

(** A stand-in for the number printer on integers. *)
Definition show_int (x : num) : Regex.text :=
  match floorZ x with
  | Some (Zneg p) => Regex.lit "-" ++ Regex.lit (NilEmpty.string_of_uint (Pos.to_uint p))
  | Some z => Regex.lit (string_of_nat (Z.to_nat z))
  | None => Regex.lit "NaN"
  end.

(** The physics data reset of the examples: everything at rest at zero. *)
Definition wipe (s : Simulation) : Simulation :=
  {| qpos := (fun _ => pzero) <$> qpos s; qvel := (fun _ => pzero) <$> qvel s;
     ctrl := (fun _ => pzero) <$> ctrl s; qfrc_applied := (fun _ => pzero) <$> qfrc_applied s |}.


(** A scene template: an anchor with a nested body, and one motor. *)
Definition template : Regex.text :=
  Regex.xml ("<mujoco><worldbody>"
       +:+ "<body name='pelvis' pos='0 0 0.8'>"
       +:+ "<freejoint name='floating_base_joint'/>"
       +:+ "<geom name='pelvis_geom' class='visual'/>"
       +:+ "<site name='imu'/>"
       +:+ "<body name='left_leg' pos='0 0 -0.1'>"
       +:+ "<joint name='left_hip' axis='0 1 0'/>"
       +:+ "<geom class='col' name='leg_geom'/>"
       +:+ "</body>"
       +:+ "</body>"
       +:+ "</worldbody>"
       +:+ "<actuator>"
       +:+ "<motor name='left_hip' joint='left_hip'/>"
       +:+ "</actuator></mujoco>").

End Examples.

Module MarkupExamples.
Import Markup.

Definition nm (T : tagname) (before name : string) (pos : option string)
    (attrs : string) : item :=
  Named {| n_tag := T; n_gap := Regex.lit " "; n_before := Regex.xml before;
           n_name := Regex.lit name; n_pos := Regex.lit <$> pos;
           n_attrs := Regex.xml attrs; n_tail := [] |}.

(** The segments of the anchor sub-tree of [template]. *)
Definition anchor_doc : list item :=
  [ nm Body EmptyString "pelvis" (Some "0 0 0.8"%string) EmptyString;
    nm Freejoint EmptyString "floating_base_joint" None "/";
    nm Geom EmptyString "pelvis_geom" None " class='visual'/";
    nm Site EmptyString "imu" None "/";
    nm Body EmptyString "left_leg" (Some "0 0 -0.1"%string) EmptyString;
    nm Joint EmptyString "left_hip" None " axis='0 1 0'/";
    nm Geom "class='col' " "leg_geom" None "/";
    Plain (Regex.lit "</body>"); Plain (Regex.lit "</body>") ].

(** The segments of the motors of [template]. *)
Definition motor_doc : list motor_item :=
  [ Motor {| m_gap := Regex.lit " "; m_name := Regex.lit "left_hip";
             m_between := Regex.lit " "; m_joint := Regex.lit "left_hip";
             m_attrs := Regex.lit "/"; m_tail := [] |} ].

(** A template without an anchor, and one whose anchor is not closed. *)
Definition template_bare : Regex.text :=
  Regex.xml "<mujoco><worldbody><body name='torso'/></worldbody></mujoco>".

Definition template_open : Regex.text :=
  Regex.xml "<mujoco><worldbody><body name='pelvis'><geom/></worldbody></mujoco>".

End MarkupExamples.

(* ===================================================================== *)
(** ** Views of the motion requests                                        *)
(* ===================================================================== *)

Module RequestViews.
Import JS Demo.

(** Whether [applyToRobot(idx)] returns true on the object [d]. *)
Definition accepts (d : Demo) (name : string) (force : bool) (idx : nat) : bool :=
  match applyToRobot d name force idx with
  | Some (_, _, ok) => ok
  | None => false
  end.

Definition is_ApplyToRobot (e : event) : bool :=
  match e with ApplyToRobot _ => true | _ => false end.

End RequestViews.

(* ===================================================================== *)
(** ** The follow selection and the render scale                          *)
(* ===================================================================== *)

Module Follow.
Import JS Regex Demo.

(** The fields the follow selection reads and writes beside those of
    [Demo].  [followBodyId] is [null] ([None]) or an integer;
    [pelvis_body_id] is [Some z] when the field holds the integer [z] (the
    test [Number.isInteger(this.pelvis_body_id)]); [bodies] gives the [name]
    of each entry of [this.bodies], by body id. *)
Record View := {
  followEnabled : bool;
  followInitialized : bool;
  followRobotIndex : num;
  followBodyId : option Z;
  pelvis_body_id : option Z;
  bodies : gmap nat text
}.

Definition set_followRobotIndex (x : num) (v : View) : View :=
  {| followEnabled := followEnabled v;
     followInitialized := followInitialized v;
     followRobotIndex := x;
     followBodyId := followBodyId v;
     pelvis_body_id := pelvis_body_id v;
     bodies := bodies v |}.

Definition set_followBodyId (id : option Z) (v : View) : View :=
  {| followEnabled := followEnabled v;
     followInitialized := followInitialized v;
     followRobotIndex := followRobotIndex v;
     followBodyId := id;
     pelvis_body_id := pelvis_body_id v;
     bodies := bodies v |}.

Definition set_followInitialized (b : bool) (v : View) : View :=
  {| followEnabled := followEnabled v;
     followInitialized := b;
     followRobotIndex := followRobotIndex v;
     followBodyId := followBodyId v;
     pelvis_body_id := pelvis_body_id v;
     bodies := bodies v |}.

(** [a.length] of an array with holes: one more than its largest index. *)
Definition array_length {A} (a : gmap nat A) : nat :=
  foldr Nat.max 0 ((fun kv => S kv.1) <$> map_to_list a).

(** [x || 0] on a number. *)
Definition or_zero (x : num) : num := if truthy (VNumber x) then x else pzero.

(** The array index that the number [x] names as a property key: [x]
    itself when it is a non-negative integer. *)
Definition to_index (x : num) : option nat :=
  match x with
  | S754_zero _ => Some 0
  | S754_finite false m e =>
      if (0 <=? e)%Z then Some (Z.to_nat (Z.shiftl (Zpos m) e))
      else if (Z.shiftl (Z.shiftr (Zpos m) (- e)) (- e) =? Zpos m)%Z
           then Some (Z.to_nat (Z.shiftr (Zpos m) (- e)))
           else None
  | _ => None
  end.

Definition pelvis : text := lit "pelvis".

(** [body && body.name === 'pelvis'] for [body = this.bodies[bodyId]]. *)
Definition named_pelvis (bodies : gmap nat text) (bodyId : nat) : bool :=
  bool_decide (bodies !! bodyId = Some pelvis).

(** [body && body.name && body.name.includes('pelvis')] for
    [body = this.bodies[testId]]. *)
Definition pelvis_like (bodies : gmap nat text) (testId : nat) : bool :=
  match bodies !! testId with
  | Some name =>
      negb (bool_decide (name = [])) && bool_decide (is_Some (indexOf pelvis name))
  | None => false
  end.

(** The first block of [updateFollowBodyId]: the pelvis recorded for the
    selected robot, if the index is in range and an id is stored there. *)
Definition multi_choice (d : Demo) (v : View) : option nat :=
  let ids := robotPelvisBodyIds d in
  if 0 <? array_length ids then
    let robotIndex := or_zero (followRobotIndex v) in
    if le pzero robotIndex && lt robotIndex (of_Z (Z.of_nat (array_length ids)))
    then to_index robotIndex ≫= (ids !!.)
    else None
  else None.

(** Methods 1 to 4 of [updateFollowBodyId]; [None] when none applies.  The
    [for ... in] loop of method 2 visits the ids in ascending order. *)
Definition single_choice (d : Demo) (v : View) : option Z :=
  match pelvis_body_id v with
  | Some id => Some id
  | None =>
      match find (named_pelvis (bodies v)) (seq 0 (array_length (bodies v))) with
      | Some bodyId => Some (Z.of_nat bodyId)
      | None =>
          match model d with
          | Some m =>
              match find (pelvis_like (bodies v)) (seq 1 (nbody m - 1)) with
              | Some testId => Some (Z.of_nat testId)
              | None => if 1 <? nbody m then Some 1%Z else None
              end
          | None => None
          end
      end
  end.

(** [updateFollowBodyId]. *)
Definition updateFollowBodyId (d : Demo) (v : View) : View :=
  match multi_choice d v with
  | Some bodyId => set_followBodyId (Some (Z.of_nat bodyId)) v
  | None =>
      match single_choice d v with
      | Some id => set_followBodyId (Some id) v
      | None => v
      end
  end.

(** [setFollowRobotIndex(robotIndex)] for a number. *)
Definition setFollowRobotIndex (d : Demo) (v : View) (robotIndex : num) : View :=
  let v := set_followRobotIndex (Math_max pzero robotIndex) v in
  let v := updateFollowBodyId d v in
  if followEnabled v then set_followInitialized false v else v.

End Follow.

Module Screen.
Import JS.

Definition lit_0_5 : num := S754_finite false 4503599627370496 (-53).
Definition lit_2 : num := S754_finite false 4503599627370496 (-51).

(** The fields [renderScale] and [_lastRenderTime]. *)
Record t := { renderScale : num; lastRenderTime : num }.

(** The calls on the renderer and the camera. *)
Inductive event :=
  | SetAspect
  | UpdateProjectionMatrix
  | SetPixelRatio (ratio : num)
  | SetSize.

(** The state as the constructor leaves it. *)
Definition initial : t := {| renderScale := lit_2; lastRenderTime := pzero |}.

Section Render.

(** [this.render()] draws the frame; it may set [_lastRenderTime]. *)
Variable render : t -> t.

(** [setRenderScale(scale)] for a number. *)
Definition setRenderScale (scale : num) (s : t) : t * list event :=
  let clamped := Math_max lit_0_5 (Math_min lit_2 scale) in
  let s' := {| renderScale := clamped; lastRenderTime := pzero |} in
  (render s', [SetPixelRatio clamped; SetSize]).

(** [onWindowResize()]. *)
Definition onWindowResize (s : t) : t * list event :=
  let s' := {| renderScale := renderScale s; lastRenderTime := pzero |} in
  (render s', [SetAspect; UpdateProjectionMatrix; SetPixelRatio (renderScale s); SetSize]).

(** A call from outside. *)
Inductive call := SetRenderScale (scale : num) | WindowResize.

Definition perform (c : call) (s : t) : t * list event :=
  match c with
  | SetRenderScale scale => setRenderScale scale s
  | WindowResize => onWindowResize s
  end.

(** A sequence of calls, with the events in order. *)
Fixpoint perform_all (cs : list call) (s : t) : t * list event :=
  match cs with
  | [] => (s, [])
  | c :: cs =>
      let '(s, tr) := perform c s in
      let '(s, tr') := perform_all cs s in
      (s, tr ++ tr')
  end.

End Render.

(** A scale, or a pixel ratio, within the bounds of [setRenderScale]. *)
Definition within (x : num) : Prop := le lit_0_5 x = true /\ le x lit_2 = true.

Definition ratio_within (e : event) : Prop :=
  match e with SetPixelRatio x => within x | _ => True end.

Definition scale_given (c : call) : Prop :=
  match c with SetRenderScale x => x <> NaN | WindowResize => True end.

End Screen.

Module FollowExamples.
Import JS Demo Follow Examples.

(** The follow fields as the constructor leaves them, once the scene of
    [model2] is loaded. *)
Definition view0 : View :=
  {| followEnabled := false;
     followInitialized := false;
     followRobotIndex := pzero;
     followBodyId := None;
     pelvis_body_id := Some 1%Z;
     bodies := {[ 1 := Regex.lit "pelvis"; 2 := Regex.lit "robot2_pelvis" ]} |}.

(** [demo2] with the pelvis bodies of both robots recorded. *)
Definition demo2p : Demo := set_robotPelvisBodyIds {[ 0 := 1; 1 := 2 ]} demo2.

(** A runner list whose second runner has no tracking helper. *)
Definition demo2h : Demo := set_policyRunners [Some runner_t; Some runner0] demo2.

End FollowExamples.

(* ===================================================================== *)
(** ** Facts about numbers                                                *)
(* ===================================================================== *)

Module JSFacts.
Import JS.

(** The literals are the correctly rounded quotients they denote. *)
Lemma lit_0_02_nearest : lit_0_02 = div (of_Z 2) (of_Z 100).
Proof. vm_compute. reflexivity. Qed.

Lemma lit_0_004_nearest : lit_0_004 = div (of_Z 4) (of_Z 1000).
Proof. vm_compute. reflexivity. Qed.

Lemma lit_0_05_nearest : lit_0_05 = div (of_Z 5) (of_Z 100).
Proof. vm_compute. reflexivity. Qed.

Lemma lit_1_of_Z : lit_1 = of_Z 1.
Proof. vm_compute. reflexivity. Qed.

Lemma lit_5_of_Z : lit_5 = of_Z 5.
Proof. vm_compute. reflexivity. Qed.

(** *** Rounding never produces NaN from a non-negative mantissa *)

Lemma iter_pos_preserves {A} (P : A -> Prop) (f : A -> A) :
  (forall x, P x -> P (f x)) -> forall p x, P x -> P (SpecFloat.iter_pos f p x).
Proof.
  intros Hf. induction p as [p IH | p IH |]; intros x Hx; simpl; auto.
Qed.

Lemma shr_1_nonneg mrs : (0 <= shr_m mrs)%Z -> (0 <= shr_m (shr_1 mrs))%Z.
Proof.
  destruct mrs as [m r s]. simpl.
  destruct m as [| [p | p |] | [p | p |]]; simpl; lia.
Qed.

Lemma shr_nonneg mrs e n :
  (0 <= shr_m mrs)%Z -> (0 <= shr_m (fst (shr mrs e n)))%Z.
Proof.
  intros H. destruct n as [| p | p]; simpl; auto.
  apply (iter_pos_preserves (fun r => (0 <= shr_m r)%Z)); auto using shr_1_nonneg.
Qed.

Lemma shr_record_of_loc_m m l : shr_m (shr_record_of_loc m l) = m.
Proof. destruct l as [| []]; reflexivity. Qed.

Lemma shr_fexp_nonneg m e l :
  (0 <= m)%Z -> (0 <= shr_m (fst (shr_fexp prec emax m e l)))%Z.
Proof.
  intros H. unfold shr_fexp. apply shr_nonneg. now rewrite shr_record_of_loc_m.
Qed.

Lemma round_nearest_even_nonneg m l :
  (0 <= m)%Z -> (0 <= round_nearest_even m l)%Z.
Proof.
  intros H. destruct l as [| []]; simpl; try lia.
  destruct (Z.even m); lia.
Qed.

Lemma binary_round_aux_not_nan s m e l :
  (0 <= m)%Z -> binary_round_aux prec emax s m e l <> S754_nan.
Proof.
  intros H. unfold binary_round_aux.
  pose proof (shr_fexp_nonneg m e l H) as H1.
  destruct (shr_fexp prec emax m e l) as [mrs' e'] eqn:E1. simpl in H1.
  pose proof (round_nearest_even_nonneg _ (loc_of_shr_record mrs') H1) as H2.
  pose proof (shr_fexp_nonneg _ e' loc_Exact H2) as H3.
  destruct (shr_fexp prec emax _ e' loc_Exact) as [mrs'' e''] eqn:E2.
  simpl in H3.
  destruct (shr_m mrs'') as [| p | p]; try lia; try discriminate.
  destruct (e'' <=? emax - prec)%Z; discriminate.
Qed.

Lemma binary_round_not_nan s m e : binary_round prec emax s m e <> S754_nan.
Proof.
  unfold binary_round.
  destruct (shl_align m e _) as [mz ez].
  apply binary_round_aux_not_nan. lia.
Qed.

Lemma of_Z_not_nan n : of_Z n <> NaN.
Proof.
  unfold of_Z, binary_normalize. destruct n; try discriminate;
    apply binary_round_not_nan.
Qed.

Lemma div_core_nonneg m1 e1 m2 e2 :
  (0 <= fst (fst (SFdiv_core_binary prec emax (Zpos m1) e1 (Zpos m2) e2)))%Z.
Proof.
  unfold SFdiv_core_binary.
  set (s := (e1 - e2 - _)%Z).
  set (m' := match s with Z0 => Zpos m1 | Zpos _ => Z.shiftl (Zpos m1) s | Zneg _ => 0%Z end).
  assert (Hm' : (0 <= m')%Z).
  { subst m'. destruct s; try lia. apply Z.shiftl_nonneg. lia. }
  pose proof (Z_div_mod m' (Zpos m2) eq_refl) as Hd.
  destruct (Z.div_eucl m' (Zpos m2)) as [q r]. simpl.
  destruct Hd as [Hq Hr]. nia.
Qed.

Lemma div_not_nan (a b : num) :
  a <> NaN -> b <> NaN ->
  (Number_isFinite b = true \/ Number_isFinite a = true) ->
  (forall sa sb, a = S754_zero sa -> b = S754_zero sb -> False) ->
  div a b <> NaN.
Proof.
  intros Ha Hb Hfin Hz. unfold div.
  destruct a as [sa | sa | | sa ma ea], b as [sb | sb | | sb mb eb];
    simpl; try discriminate; try congruence.
  - exfalso. eapply Hz; reflexivity.
  - destruct Hfin; discriminate.
  - pose proof (div_core_nonneg ma ea mb eb) as H.
    destruct (SFdiv_core_binary prec emax (Zpos ma) ea (Zpos mb) eb) as [[mz ez] lz].
    simpl in H. now apply binary_round_aux_not_nan.
Qed.

Lemma Math_round_not_nan x : x <> NaN -> Math_round x <> NaN.
Proof.
  intros H. destruct x as [s | s | | s m e]; simpl; try congruence.
  destruct (0 <=? e)%Z; try discriminate.
  destruct (Z.shiftr _ _) eqn:E; try discriminate; apply of_Z_not_nan.
Qed.

(** *** Order *)

Lemma compare_not_nan (a b : num) :
  a <> NaN -> b <> NaN -> exists c, SFcompare a b = Some c.
Proof.
  intros Ha Hb.
  destruct a as [sa | sa | | sa ma ea], b as [sb | sb | | sb mb eb];
    try congruence; simpl; eauto.
Qed.

Lemma compare_antisym (a b : num) c :
  SFcompare a b = Some c -> SFcompare b a = Some (CompOpp c).
Proof.
  destruct a as [sa | sa | | sa ma ea], b as [sb | sb | | sb mb eb];
    simpl; try discriminate;
    intros [= <-]; f_equal;
    try (destruct sa; reflexivity); try (destruct sb; reflexivity);
    try (destruct sa, sb; reflexivity).
  destruct sa, sb; try reflexivity.
  - rewrite (Z.compare_antisym ea eb).
    destruct (ea ?= eb)%Z; simpl; try reflexivity.
    rewrite (Pos.compare_cont_antisym ma mb Eq). reflexivity.
  - rewrite (Z.compare_antisym ea eb).
    destruct (ea ?= eb)%Z; simpl; try reflexivity.
    now rewrite (Pos.compare_cont_antisym ma mb Eq).
Qed.

Lemma le_refl_not_nan (a : num) : a <> NaN -> le a a = true.
Proof.
  intros Ha. unfold le, SFleb.
  destruct a as [sa | sa | | sa ma ea]; try congruence; simpl.
  - reflexivity.
  - destruct sa; reflexivity.
  - destruct sa; rewrite Z.compare_refl;
      change (Pos.compare_cont Eq ma ma) with (Pos.compare ma ma);
      rewrite Pos.compare_refl; reflexivity.
Qed.

Lemma lt_le (a b : num) : lt a b = true -> le a b = true.
Proof. unfold lt, le, SFltb, SFleb. destruct (SFcompare a b) as [[]|]; auto. Qed.

Lemma not_lt_le (a b : num) :
  a <> NaN -> b <> NaN -> lt a b = false -> le b a = true.
Proof.
  intros Ha Hb. unfold lt, le, SFltb, SFleb.
  destruct (compare_not_nan a b Ha Hb) as [c Hc].
  rewrite Hc, (compare_antisym _ _ _ Hc). destruct c; simpl; auto.
Qed.

Lemma lt_not_nan_l (a b : num) : lt a b = true -> a <> NaN.
Proof. intros H ->. discriminate. Qed.

Lemma lt_not_nan_r (a b : num) : lt a b = true -> b <> NaN.
Proof. intros H ->. destruct a; discriminate. Qed.

(** [Math.max(a, b)] dominates [a] whenever neither argument is NaN. *)
Lemma Math_max_ge_l (a b : num) :
  a <> NaN -> b <> NaN -> le a (Math_max a b) = true.
Proof.
  intros Ha Hb. unfold Math_max.
  destruct a as [sa | sa | | sa ma ea] eqn:Ea; try congruence;
    destruct b as [sb | sb | | sb mb eb] eqn:Eb; try congruence;
    try reflexivity;
    rewrite <- ?Ea, <- ?Eb;
    (destruct (lt _ _) eqn:L; [ now apply lt_le | apply le_refl_not_nan; congruence ]).
Qed.

(** *** The clamp *)

Lemma compare_zero_sign_r (a : num) s s' :
  SFcompare a (S754_zero s) = SFcompare a (S754_zero s').
Proof. destruct a; reflexivity. Qed.

Lemma le_zero_sign_r (a : num) s s' : le a (S754_zero s) = le a (S754_zero s').
Proof. unfold le, SFleb. now rewrite (compare_zero_sign_r a s s'). Qed.

Lemma le_not_nan_l (a b : num) : le a b = true -> a <> NaN.
Proof. intros H ->. discriminate. Qed.

Lemma le_not_nan_r (a b : num) : le a b = true -> b <> NaN.
Proof. intros H ->. destruct a; discriminate. Qed.

Lemma Math_max_not_nan (a b : num) : a <> NaN -> b <> NaN -> Math_max a b <> NaN.
Proof.
  intros Ha Hb. unfold Math_max.
  destruct a, b; try congruence; try discriminate;
    match goal with |- context [if ?c then _ else _] => destruct c end; discriminate.
Qed.

Lemma Math_max_ge_r (a b : num) :
  a <> NaN -> b <> NaN -> le b (Math_max a b) = true.
Proof.
  intros Ha Hb. unfold Math_max.
  destruct a as [sa | sa | | sa ma ea] eqn:Ea; try congruence;
    destruct b as [sb | sb | | sb mb eb] eqn:Eb; try congruence;
    try reflexivity;
    rewrite <- ?Ea, <- ?Eb;
    (destruct (lt _ _) eqn:L;
     [ apply le_refl_not_nan; congruence | apply not_lt_le; congruence ]).
Qed.

Lemma Math_min_le_r (a b : num) :
  a <> NaN -> b <> NaN -> le (Math_min a b) b = true.
Proof.
  intros Ha Hb. unfold Math_min.
  destruct a as [sa | sa | | sa ma ea] eqn:Ea; try congruence;
    destruct b as [sb | sb | | sb mb eb] eqn:Eb; try congruence;
    try reflexivity;
    rewrite <- ?Ea, <- ?Eb;
    (destruct (lt _ _) eqn:L;
     [ apply le_refl_not_nan; congruence | apply not_lt_le; congruence ]).
Qed.

Lemma Math_min_glb (c a b : num) :
  le c a = true -> le c b = true -> le c (Math_min a b) = true.
Proof.
  intros Ha Hb.
  pose proof (le_not_nan_r _ _ Ha) as Na. pose proof (le_not_nan_r _ _ Hb) as Nb.
  unfold Math_min.
  destruct a as [sa | sa | | sa ma ea] eqn:Ea; try congruence;
    destruct b as [sb | sb | | sb mb eb] eqn:Eb; try congruence;
    try (now rewrite (le_zero_sign_r c _ sa));
    rewrite <- ?Ea, <- ?Eb;
    (destruct (lt _ _); congruence).
Qed.

Lemma clamp_within (t lo hi : num) :
  t <> NaN -> lt lo hi = true ->
  le lo (Math_min (Math_max t lo) hi) = true
  /\ le (Math_min (Math_max t lo) hi) hi = true.
Proof.
  intros Ht Hlt.
  pose proof (lt_not_nan_l _ _ Hlt) as Nlo. pose proof (lt_not_nan_r _ _ Hlt) as Nhi.
  split.
  - apply Math_min_glb; [ now apply Math_max_ge_r | now apply lt_le ].
  - apply Math_min_le_r; [ now apply Math_max_not_nan | assumption ].
Qed.

End JSFacts.

(* ===================================================================== *)
(** ** Decimation                                                         *)
(* ===================================================================== *)

Module DecimationFacts.
Import JS JSFacts Demo.

Lemma decimation_0_004 : decimation_of lit_0_004 = lit_5.
Proof. vm_compute. reflexivity. Qed.

Lemma decimation_ge_1_not_nan ts : ts <> NaN -> le lit_1 (decimation_of ts) = true.
Proof.
  intros H. unfold decimation_of.
  apply Math_max_ge_l; [discriminate|].
  apply Math_round_not_nan, div_not_nan; auto; discriminate.
Qed.

(** C9: the decimation of [reload] is
    [Math.max(1, Math.round(0.02 / timestep))]; it is at least 1 for every
    positive timestep (also beyond the 0.02 control period), and it is 5 for
    the timestep 0.004. *)
Theorem decimation_spec (timestep : num) :
  lt pzero timestep = true ->
  decimation_of timestep = Math_max lit_1 (Math_round (div lit_0_02 timestep))
  /\ le lit_1 (decimation_of timestep) = true
  /\ (timestep = lit_0_004 -> decimation_of timestep = lit_5).
Proof.
  intros Hpos. split; [reflexivity|]. split.
  - apply decimation_ge_1_not_nan. eapply lt_not_nan_r; eauto.
  - intros ->. apply decimation_0_004.
Qed.

Lemma decimation_spec_witness :
  lt pzero lit_0_05 = true
  /\ lt lit_0_02 lit_0_05 = true
  /\ decimation_of lit_0_05 = lit_1
  /\ le lit_1 (decimation_of lit_0_05) = true.
Proof.
  split; [reflexivity|]. split; [reflexivity|]. split; [reflexivity|].
  apply (decimation_spec lit_0_05). reflexivity.
Defined.

End DecimationFacts.

(* ===================================================================== *)
(** ** The control phase of a sub-step                                    *)
(* ===================================================================== *)

Module ControlFacts.
Import JS JSFacts Demo.

Lemma write_ctrl_qpos a v s : qpos (write_ctrl a v s) = qpos s.
Proof. destruct a; reflexivity. Qed.
Lemma write_ctrl_qvel a v s : qvel (write_ctrl a v s) = qvel s.
Proof. destruct a; reflexivity. Qed.
Lemma write_ctrl_qfrc a v s : qfrc_applied (write_ctrl a v s) = qfrc_applied s.
Proof. destruct a; reflexivity. Qed.
Lemma write_ctrl_length a v s : length (ctrl (write_ctrl a v s)) = length (ctrl s).
Proof. destruct a; simpl; [apply length_insert | reflexivity]. Qed.

Lemma apply_writes_app ws1 ws2 s :
  apply_writes (ws1 ++ ws2) s = apply_writes ws2 (apply_writes ws1 s).
Proof. unfold apply_writes. apply foldl_app. Qed.

Lemma apply_writes_qpos ws : forall s, qpos (apply_writes ws s) = qpos s.
Proof.
  induction ws as [| w ws IH]; intros s; [reflexivity|].
  cbn. unfold apply_writes in IH. rewrite IH. apply write_ctrl_qpos.
Qed.
Lemma apply_writes_qvel ws : forall s, qvel (apply_writes ws s) = qvel s.
Proof.
  induction ws as [| w ws IH]; intros s; [reflexivity|].
  cbn. unfold apply_writes in IH. rewrite IH. apply write_ctrl_qvel.
Qed.
Lemma apply_writes_qfrc ws : forall s, qfrc_applied (apply_writes ws s) = qfrc_applied s.
Proof.
  induction ws as [| w ws IH]; intros s; [reflexivity|].
  cbn. unfold apply_writes in IH. rewrite IH. apply write_ctrl_qfrc.
Qed.
Lemma apply_writes_length ws : forall s, length (ctrl (apply_writes ws s)) = length (ctrl s).
Proof.
  induction ws as [| w ws IH]; intros s; [reflexivity|].
  cbn. unfold apply_writes in IH. rewrite IH. apply write_ctrl_length.
Qed.

(** The computed values only look at [qpos] and [qvel]. *)
Lemma ctrl_value_multi_ext d r m target s s' i :
  qpos s = qpos s' -> qvel s = qvel s' ->
  ctrl_value_multi d r m target s i = ctrl_value_multi d r m target s' i.
Proof. intros Hq Hv. unfold ctrl_value_multi. now rewrite Hq, Hv. Qed.

Lemma ctrl_value_single_ext d s s' i :
  qpos s = qpos s' -> qvel s = qvel s' ->
  ctrl_value_single d s i = ctrl_value_single d s' i.
Proof. intros Hq Hv. unfold ctrl_value_single. now rewrite Hq, Hv. Qed.

Lemma robot_writes_ext d ats s s' r :
  qpos s = qpos s' -> qvel s = qvel s' -> robot_writes d ats s r = robot_writes d ats s' r.
Proof.
  intros Hq Hv. unfold robot_writes, dof_writes_multi.
  destruct (mjoin _) as [m|]; [|reflexivity].
  destruct (usable_target _ _); [|reflexivity].
  apply map_ext. intros i. f_equal. now apply ctrl_value_multi_ext.
Qed.

(** The loop over [i] performs the writes of [dof_writes_multi], in order. *)
Lemma foldl_control_dof_multi d r m target s0 idxs : forall s tr,
  qpos s = qpos s0 -> qvel s = qvel s0 ->
  foldl (control_dof_multi d r m target) (s, tr) idxs =
  (apply_writes (map (fun i => (runner_of r, i, Mapping.ctrl_adr_policy m !! i,
                                ctrl_value_multi d r m target s0 i)) idxs) s,
   tr ++ map (fun i => CtrlWrite (runner_of r) i (Mapping.ctrl_adr_policy m !! i)
                                 (ctrl_value_multi d r m target s0 i)) idxs).
Proof.
  induction idxs as [| i idxs IH]; intros s tr Hq Hv; cbn.
  - now rewrite app_nil_r.
  - rewrite (ctrl_value_multi_ext d r m target s s0 i Hq Hv).
    rewrite IH by (now rewrite ?write_ctrl_qpos, ?write_ctrl_qvel).
    now rewrite <- app_assoc.
Qed.

Lemma foldl_control_dof_single d s0 idxs : forall s tr,
  qpos s = qpos s0 -> qvel s = qvel s0 ->
  foldl (control_dof_single d) (s, tr) idxs =
  (apply_writes (map (fun i => (the_runner, i, ctrl_adr_policy d !! i,
                                ctrl_value_single d s0 i)) idxs) s,
   tr ++ map (fun i => CtrlWrite the_runner i (ctrl_adr_policy d !! i)
                                 (ctrl_value_single d s0 i)) idxs).
Proof.
  induction idxs as [| i idxs IH]; intros s tr Hq Hv; cbn.
  - now rewrite app_nil_r.
  - rewrite (ctrl_value_single_ext d s s0 i Hq Hv).
    rewrite IH by (now rewrite ?write_ctrl_qpos, ?write_ctrl_qvel).
    now rewrite <- app_assoc.
Qed.

Lemma control_robot_eq d ats s0 s tr r :
  qpos s = qpos s0 -> qvel s = qvel s0 ->
  control_robot d ats (s, tr) r =
  (apply_writes (robot_writes d ats s0 r) s,
   tr ++ map write_event (robot_writes d ats s0 r)).
Proof.
  intros Hq Hv. unfold control_robot, robot_writes.
  destruct (mjoin _) as [m|]; [|now rewrite app_nil_r].
  destruct (usable_target _ _); [|now rewrite app_nil_r].
  rewrite (foldl_control_dof_multi d r m _ s0) by assumption.
  unfold dof_writes_multi. now rewrite map_map.
Qed.

Lemma foldl_control_robot d ats s0 rs : forall s tr,
  qpos s = qpos s0 -> qvel s = qvel s0 ->
  foldl (control_robot d ats) (s, tr) rs =
  (apply_writes (mjoin (robot_writes d ats s0 <$> rs)) s,
   tr ++ map write_event (mjoin (robot_writes d ats s0 <$> rs))).
Proof.
  induction rs as [| r rs IH]; intros s tr Hq Hv; cbn [foldl fmap list_fmap mjoin list_join].
  - now rewrite app_nil_r.
  - rewrite (control_robot_eq d ats s0) by assumption.
    rewrite IH by (now rewrite ?apply_writes_qpos, ?apply_writes_qvel).
    now rewrite apply_writes_app, map_app, <- app_assoc.
Qed.

(** One control phase performs exactly the writes of [phase_writes]. *)
Lemma control_phase_eq d ats s tr :
  control_phase d ats (s, tr) =
  (apply_writes (phase_writes d ats s) s,
   tr ++ map write_event (phase_writes d ats s)).
Proof.
  unfold control_phase, phase_writes.
  destruct (control_type d); try (now rewrite app_nil_r).
  destruct (isMultiRobot d).
  - now apply foldl_control_robot.
  - unfold single_writes. rewrite (foldl_control_dof_single d s) by reflexivity.
    now rewrite map_map.
Qed.

(** Effect of a list of writes on one address. *)
Lemma write_ctrl_other a v s c :
  a <> Some c -> ctrl (write_ctrl a v s) !! c = ctrl s !! c.
Proof.
  intros H. destruct a as [a|]; [|reflexivity]. simpl.
  apply list_lookup_insert_ne. congruence.
Qed.

Lemma write_ctrl_same v s c :
  c < length (ctrl s) -> ctrl (write_ctrl (Some c) v s) !! c = Some v.
Proof. intros H. simpl. now apply list_lookup_insert_eq. Qed.

Lemma apply_writes_untouched ws c : forall s,
  (forall w, w ∈ ws -> write_adr w <> Some c) ->
  ctrl (apply_writes ws s) !! c = ctrl s !! c.
Proof.
  induction ws as [| w ws IH]; intros s H; [reflexivity|].
  cbn. unfold apply_writes in IH. rewrite IH.
  - apply write_ctrl_other. apply H. left.
  - intros w' Hw'. apply H. now right.
Qed.

Lemma apply_writes_settled ws c v : forall s,
  (forall w, w ∈ ws -> write_adr w = Some c -> write_val w = v) ->
  (ctrl s !! c = Some v \/ exists w, w ∈ ws /\ write_adr w = Some c) ->
  c < length (ctrl s) ->
  ctrl (apply_writes ws s) !! c = Some v.
Proof.
  induction ws as [| w ws IH]; intros s Hall Hex Hlen.
  - destruct Hex as [H | (w & Hw & _)]; [exact H | inversion Hw].
  - cbn. unfold apply_writes in IH. apply IH.
    + intros w' Hw'. apply Hall. now right.
    + destruct (decide (write_adr w = Some c)) as [E | NE].
      * left. unfold apply_write. rewrite E, <- (Hall w (list_elem_of_here _ _) E).
        now apply write_ctrl_same.
      * destruct Hex as [H | (w' & Hw' & E')].
        -- left. unfold apply_write. now rewrite write_ctrl_other.
        -- right. exists w'. split; [|exact E'].
           apply elem_of_cons in Hw' as [-> | Hw']; [contradiction | exact Hw'].
    + unfold apply_write. now rewrite write_ctrl_length.
Qed.

Lemma clamp_ctrl_spec rg c torque x :
  spec_torque x = torque ->
  clamp_ctrl rg (Some c) torque = spec_ctrl (declared_range rg (Some c)) x.
Proof.
  intros <-. unfold clamp_ctrl, spec_ctrl, range_applies.
  destruct (declared_range rg (Some c)) as [[lo hi]|]; reflexivity.
Qed.

Lemma ctrl_value_multi_spec d ats sim r i x m target :
  controlled_multi d ats sim r i x ->
  mjoin (robotJointMappings d !! r) = Some m ->
  ats !! r = Some target ->
  ctrl_value_multi d r m target sim i
  = spec_ctrl (declared_range (ctrlRange_of d) (Some (dof_ctrlAdr x))) x.
Proof.
  intros (m' & t' & kps & kds & qa & va & Hm & Ht & _ & _ & Hidx & Hkp & Hkpi
          & Hkd & Hkdi & Hqa & Hq & Hva & Hv & Hc) Hm2 Ht2.
  assert (m' = m) as -> by congruence. assert (t' = target) as -> by congruence.
  unfold ctrl_value_multi. rewrite Hidx, Hkp, Hkd, Hqa, Hva, Hc.
  apply clamp_ctrl_spec. unfold spec_torque, pd_torque, gain, read.
  now rewrite Hkpi, Hkdi, Hq, Hv.
Qed.

Lemma ctrl_value_single_spec d sim i x :
  controlled_single d sim i x ->
  ctrl_value_single d sim i
  = spec_ctrl (declared_range (ctrlRange_of d) (Some (dof_ctrlAdr x))) x.
Proof.
  intros (kps & kds & qa & va & Ht & _ & Hidx & Hkp & Hkpi
          & Hkd & Hkdi & Hqa & Hq & Hva & Hv & Hc).
  unfold ctrl_value_single. rewrite Ht, Hidx, Hkp, Hkd, Hqa, Hva, Hc.
  apply clamp_ctrl_spec. unfold spec_torque, pd_torque, gain, read. simpl.
  now rewrite Hkpi, Hkdi, Hq, Hv.
Qed.

Lemma elem_of_robot_writes d ats sim r w :
  w ∈ robot_writes d ats sim r ->
  exists m i, mjoin (robotJointMappings d !! r) = Some m
    /\ usable_target m (default VUndefined (ats !! r)) = true
    /\ i < Mapping.numActions m
    /\ w = (runner_of r, i, Mapping.ctrl_adr_policy m !! i,
            ctrl_value_multi d r m (default VUndefined (ats !! r)) sim i).
Proof.
  unfold robot_writes, dof_writes_multi.
  destruct (mjoin _) as [m|]; [|intros H; inversion H].
  destruct (usable_target _ _) eqn:U; [|intros H; inversion H].
  intros H. apply list_elem_of_fmap in H as (i & -> & Hi).
  apply elem_of_seq in Hi. exists m, i. repeat split; auto. lia.
Qed.

Lemma elem_of_phase_writes_multi d ats sim w :
  control_type d = joint_position -> isMultiRobot d = true ->
  w ∈ phase_writes d ats sim <->
  exists r, r < length (robotJointMappings d) /\ w ∈ robot_writes d ats sim r.
Proof.
  intros Hc Hm. unfold phase_writes. rewrite Hc, Hm. split.
  - intros H. apply list_elem_of_join in H as (ws & Hw & Hws).
    apply list_elem_of_fmap in Hws as (r & -> & Hr). apply elem_of_seq in Hr.
    exists r. split; [lia | exact Hw].
  - intros (r & Hr & Hw). apply list_elem_of_join.
    exists (robot_writes d ats sim r). split; [exact Hw|].
    apply list_elem_of_fmap. exists r. split; [reflexivity|].
    apply elem_of_seq. lia.
Qed.

Lemma spec_ctrl_within rg lo hi x :
  rg = Some (lo, hi) -> range_applies rg = true -> spec_torque x <> NaN ->
  le lo (spec_ctrl rg x) = true /\ le (spec_ctrl rg x) hi = true.
Proof.
  intros -> Hr Hn. unfold spec_ctrl. rewrite Hr.
  simpl in Hr. apply andb_prop in Hr as [_ Hlt].
  now apply clamp_within.
Qed.

Lemma spec_ctrl_otherwise rg x :
  range_applies rg = false -> spec_ctrl rg x = spec_torque x.
Proof.
  intros H. unfold spec_ctrl. destruct rg as [[lo hi]|]; [|reflexivity].
  now rewrite H.
Qed.

(** C1: in the control phase of a sub-step, for every robot (or the single
    runner) and every index [i] with a valid action target, the value written
    to [ctrl] at the mapped address is the PD torque
    [kp[i] * (target[i] - qpos[qpos_adr[i]]) + kd[i] * (0 - qvel[qvel_adr[i]])],
    passed through [Math.min(Math.max(torque, min), max)] exactly when the
    declared range at that address has both bounds finite and [min < max],
    and the torque itself otherwise.  The write is in the trace; it is the
    content of [ctrl] afterwards when no other index maps to the address;
    and the clamped value of a torque that is a number lies in [[min, max]]. *)
Theorem pd_control_written d ats sim tr r i x :
  control_type d = joint_position ->
  controlled d ats sim r i x ->
  let c := dof_ctrlAdr x in
  let range := declared_range (ctrlRange_of d) (Some c) in
  let value := spec_ctrl range x in
  let out := control_phase d ats (sim, tr) in
  CtrlWrite r i (Some c) value ∈ out.2
  /\ (sole_writer d r i c -> c < length (ctrl sim) -> ctrl out.1 !! c = Some value)
  /\ (range_applies range = false -> value = spec_torque x)
  /\ (forall min max, range = Some (min, max) -> range_applies range = true ->
      value = Math_min (Math_max (spec_torque x) min) max
      /\ (spec_torque x <> NaN -> le min value = true /\ le value max = true)).
Proof.
  intros Hct Hctl c range value out.
  assert (Hin : (r, i, Some c, value) ∈ phase_writes d ats sim).
  { destruct r as [|r]; destruct Hctl as [Hmode Hx].
    - unfold phase_writes, single_writes. rewrite Hct, Hmode.
      apply list_elem_of_fmap. exists i.
      pose proof Hx as (kps & kds & qa & va & _ & Hi & _ & _ & _ & _ & _ & _ & _ & _ & _ & Hc).
      split; [| apply elem_of_seq; lia].
      rewrite Hc, (ctrl_value_single_spec d sim i x Hx). reflexivity.
    - apply elem_of_phase_writes_multi; auto.
      pose proof Hx as (m & target & kps & kds & qa & va & Hm & Ht & Hu & Hi & _
                        & _ & _ & _ & _ & _ & _ & _ & _ & Hc).
      exists r. split.
      + apply lookup_lt_is_Some. destruct (robotJointMappings d !! r); [eauto | discriminate].
      + unfold robot_writes, dof_writes_multi. rewrite Hm, Ht. simpl. rewrite Hu.
        apply list_elem_of_fmap. exists i. split; [| apply elem_of_seq; lia].
        rewrite Hc, (ctrl_value_multi_spec d ats sim r i x m target Hx Hm Ht). reflexivity. }
  subst out. rewrite control_phase_eq. cbn [fst snd].
  split; [| split; [| split]].
  - apply elem_of_app. right.
    apply (list_elem_of_fmap_2 write_event) in Hin. exact Hin.
  - intros Hsole Hlen. apply apply_writes_settled; auto.
    + intros w Hw Hadr.
      destruct r as [|r]; destruct Hctl as [Hmode Hx]; simpl in Hsole.
      * unfold phase_writes, single_writes in Hw. rewrite Hct, Hmode in Hw.
        apply list_elem_of_fmap in Hw as (j & -> & Hj). cbn in Hadr |- *.
        rewrite (Hsole j Hadr). now apply ctrl_value_single_spec.
      * apply elem_of_phase_writes_multi in Hw as (r' & _ & Hw); auto.
        apply elem_of_robot_writes in Hw as (m' & j & Hm' & Hu' & Hj & ->).
        cbn in Hadr |- *.
        destruct (Hsole r' m' j Hm' Hadr) as [-> ->].
        pose proof Hx as (m & target & _ & _ & _ & _ & Hm & Ht & _).
        assert (m' = m) as -> by congruence. rewrite Ht. simpl.
        now apply (ctrl_value_multi_spec d ats sim r i x m target).
    + right. exists (r, i, Some c, value). split; [exact Hin | reflexivity].
  - apply spec_ctrl_otherwise.
  - intros lo hi Hrg Happ. split.
    + subst value. unfold spec_ctrl. rewrite Hrg in *. now rewrite Happ.
    + intros Hn. now apply (spec_ctrl_within range lo hi x).
Qed.

End ControlFacts.

(* ===================================================================== *)
(** ** One pass of the main loop                                          *)
(* ===================================================================== *)

Module TickFacts.
Import JS JSFacts Demo ControlFacts.

Section TickFacts.
Variables mj_step drag : Simulation -> Simulation.
Abbreviation tick := (Demo.tick mj_step drag).

Lemma substep_eq d ats s tr k :
  substep mj_step drag d ats (s, tr) k =
  (after_substep mj_step drag d ats s,
   tr ++ map write_event (phase_writes d ats s) ++ [PhysicsStep k]).
Proof.
  unfold substep, after_substep. rewrite control_phase_eq.
  now rewrite <- app_assoc.
Qed.

Lemma foldl_substep d ats ks : forall s tr,
  foldl (substep mj_step drag d ats) (s, tr) ks =
  ((run_substeps mj_step drag d ats s ks).1,
   tr ++ (run_substeps mj_step drag d ats s ks).2).
Proof.
  induction ks as [| k ks IH]; intros s tr; cbn [foldl run_substeps].
  - now rewrite app_nil_r.
  - rewrite substep_eq, IH.
    destruct (run_substeps mj_step drag d ats _ ks) as [s' tr']. cbn [fst snd].
    now rewrite <- !app_assoc.
Qed.

Lemma substeps_eq d ats s tr :
  substeps mj_step drag d ats (s, tr) =
  ((run_substeps mj_step drag d ats s (seq 0 (decimation d))).1,
   tr ++ (run_substeps mj_step drag d ats s (seq 0 (decimation d))).2).
Proof. apply foldl_substep. Qed.

Lemma run_substeps_physics_steps d ats ks : forall s,
  length (filter (fun e => is_PhysicsStep e = true)
                 (run_substeps mj_step drag d ats s ks).2) = length ks.
Proof.
  induction ks as [| k ks IH]; intros s; cbn [run_substeps]; [reflexivity|].
  specialize (IH (after_substep mj_step drag d ats s)).
  destruct (run_substeps mj_step drag d ats _ ks) as [s' tr']. cbn [fst snd] in *.
  rewrite filter_app, length_app.
  rewrite filter_cons_True by reflexivity. cbn [length]. rewrite IH.
  assert (filter (fun e => is_PhysicsStep e = true)
                 (map write_event (phase_writes d ats s)) = []) as ->; [|reflexivity].
  induction (phase_writes d ats s) as [| w ws IHw]; [reflexivity|].
  cbn [map]. rewrite filter_cons_False; [exact IHw | discriminate].
Qed.

Lemma run_substeps_events d ats ks : forall s e,
  e ∈ (run_substeps mj_step drag d ats s ks).2 ->
  (exists k, e = PhysicsStep k)
  \/ (exists s' w, w ∈ phase_writes d ats s' /\ e = write_event w).
Proof.
  induction ks as [| k ks IH]; intros s e; cbn [run_substeps].
  - intros H. inversion H.
  - specialize (IH (after_substep mj_step drag d ats s) e).
    destruct (run_substeps mj_step drag d ats _ ks) as [s' tr']. cbn [fst snd] in *.
    intros H. apply elem_of_app in H as [H | H].
    + apply list_elem_of_fmap in H as (w & -> & Hw). right. eauto.
    + apply elem_of_cons in H as [-> | H]; [left; eauto | auto].
Qed.

Lemma run_substeps_congr d d' ats ats' ks :
  (forall s, phase_writes d ats s = phase_writes d' ats' s) ->
  forall s, run_substeps mj_step drag d ats s ks = run_substeps mj_step drag d' ats' s ks.
Proof.
  intros H. induction ks as [| k ks IH]; intros s; cbn [run_substeps]; [reflexivity|].
  unfold after_substep. rewrite H, IH. reflexivity.
Qed.

Hypothesis mj_step_ctrl : forall s, ctrl (mj_step s) = ctrl s.
Hypothesis drag_ctrl : forall s, ctrl (drag s) = ctrl s.

Lemma run_substeps_untouched d ats c ks : forall s,
  (forall s' w, w ∈ phase_writes d ats s' -> write_adr w <> Some c) ->
  ctrl (run_substeps mj_step drag d ats s ks).1 !! c = ctrl s !! c.
Proof using mj_step_ctrl drag_ctrl.
  induction ks as [| k ks IH]; intros s H; cbn [run_substeps]; [reflexivity|].
  specialize (IH (after_substep mj_step drag d ats s) H).
  destruct (run_substeps mj_step drag d ats _ ks) as [s' tr']. cbn [fst snd] in *.
  rewrite IH. unfold after_substep. rewrite mj_step_ctrl, drag_ctrl. cbn [ctrl set_qfrc_applied].
  apply apply_writes_untouched. apply H.
Qed.

(** *** The inference loop *)

Lemma infer_multi_trace oracle d sim robots : forall ats tr,
  exists tr', (infer_multi oracle d sim robots ats tr).2 = tr ++ tr'
    /\ Forall (fun e => is_PolicyStep e = true) tr'.
Proof.
  induction robots as [| r robots IH]; intros ats tr; cbn [infer_multi].
  - exists []. now rewrite app_nil_r.
  - destruct (mjoin (policyRunners d !! r)) as [rn|]; [|apply IH].
    destruct (oracle _ _) as [v|].
    + destruct (invalid_result v);
        [ destruct (IH ats (tr ++ [PolicyStep (runner_of r) (readPolicyStateForRobot d sim r)])) as (tr' & E & F)
        | destruct (IH (<[r := v]> ats) (tr ++ [PolicyStep (runner_of r) (readPolicyStateForRobot d sim r)])) as (tr' & E & F) ];
        (eexists (_ :: tr'); rewrite E, <- app_assoc; split; [reflexivity | constructor; [reflexivity | exact F]]).
    + eexists [_]. split; [reflexivity | repeat constructor].
Qed.

Lemma infer_multi_raised oracle d sim robots : forall ats tr,
  (infer_multi oracle d sim robots ats tr).1 = None <->
  exists r, r ∈ robots /\ attached d r
    /\ oracle (runner_of r) (readPolicyStateForRobot d sim r) = Raised.
Proof.
  unfold attached.
  induction robots as [| r robots IH]; intros ats tr; cbn [infer_multi].
  - split; [discriminate | intros (r & Hr & _); inversion Hr].
  - destruct (mjoin (policyRunners d !! r)) as [rn|] eqn:Hrn.
    + destruct (oracle (runner_of r) _) as [v|] eqn:Ho.
      * assert (forall a t, (infer_multi oracle d sim robots a t).1 = None <->
                (exists r0, r0 ∈ r :: robots /\ is_Some (mjoin (policyRunners d !! r0))
                  /\ oracle (runner_of r0) (readPolicyStateForRobot d sim r0) = Raised)) as Hstep.
        { intros a t. rewrite IH. split.
          - intros (r0 & H1 & H2). exists r0. split; [now right | exact H2].
          - intros (r0 & H1 & H2 & H3). exists r0.
            apply elem_of_cons in H1 as [-> | H1]; [congruence | auto]. }
        destruct (invalid_result v); apply Hstep.
      * split; [|reflexivity]. intros _. exists r. rewrite Hrn.
        split; [left | split; [eauto | exact Ho]].
    + rewrite IH. split.
      * intros (r0 & H1 & H2). exists r0. split; [now right | exact H2].
      * intros (r0 & H1 & H2 & H3). exists r0.
        apply elem_of_cons in H1 as [-> | H1]; [|auto].
        rewrite Hrn in H2. destruct H2 as [? H2]. discriminate.
Qed.

Lemma infer_multi_stepped oracle d sim robots : forall ats tr ats' tr',
  infer_multi oracle d sim robots ats tr = (Some ats', tr') ->
  forall r, r ∈ robots -> attached d r ->
  PolicyStep (runner_of r) (readPolicyStateForRobot d sim r) ∈ tr'.
Proof.
  unfold attached.
  induction robots as [| r robots IH]; intros ats tr ats' tr' H r0 Hr0 Ha.
  - inversion Hr0.
  - cbn [infer_multi] in H.
    assert (Hpre : forall a t, infer_multi oracle d sim robots a
                     (t ++ [PolicyStep (runner_of r) (readPolicyStateForRobot d sim r)])
                   = (Some ats', tr') ->
                   PolicyStep (runner_of r0) (readPolicyStateForRobot d sim r0) ∈ tr').
    { intros a t E. apply elem_of_cons in Hr0 as [-> | Hr0].
      - destruct (infer_multi_trace oracle d sim robots a
                    (t ++ [PolicyStep (runner_of r) (readPolicyStateForRobot d sim r)]))
          as (x & Ex & _).
        rewrite E in Ex. cbn in Ex. rewrite Ex.
        rewrite !elem_of_app. left. right. left.
      - eapply IH; eauto. }
    destruct (mjoin (policyRunners d !! r)) as [rn|] eqn:Hrn.
    + destruct (oracle (runner_of r) _) as [v|]; [|discriminate].
      destruct (invalid_result v); eapply Hpre; eauto.
    + apply elem_of_cons in Hr0 as [-> | Hr0].
      * rewrite Hrn in Ha. destruct Ha as [? Ha]. discriminate.
      * eapply IH; eauto.
Qed.

Lemma infer_multi_lookup oracle d sim robots : forall ats tr ats' tr',
  infer_multi oracle d sim robots ats tr = (Some ats', tr') ->
  forall r, ats' !! r =
    match accepted oracle d sim r with
    | Some v => if bool_decide (r ∈ robots) then Some v else ats !! r
    | None => ats !! r
    end.
Proof.
  induction robots as [| r robots IH]; intros ats tr ats' tr' H r0.
  - cbn in H. injection H as <- <-.
    destruct (accepted _ _ _ _); [|reflexivity].
    rewrite bool_decide_eq_false_2; [reflexivity | apply not_elem_of_nil].
  - cbn [infer_multi] in H. unfold accepted in *.
    destruct (mjoin (policyRunners d !! r)) as [rn|] eqn:Hrn.
    + destruct (oracle (runner_of r) (readPolicyStateForRobot d sim r)) as [v|] eqn:Ho; [|discriminate].
      destruct (invalid_result v) eqn:Hv.
      * rewrite (IH _ _ _ _ H r0).
        destruct (mjoin (policyRunners d !! r0)) as [rn0|] eqn:Hrn0; [|reflexivity].
        destruct (oracle (runner_of r0) _) as [v0|] eqn:Ho0; [|reflexivity].
        destruct (invalid_result v0) eqn:Hv0; [reflexivity|].
        destruct (decide (r0 = r)) as [-> | Hne]; [congruence|].
        destruct (bool_decide (r0 ∈ robots)) eqn:B.
        -- rewrite bool_decide_eq_true_2; [reflexivity|].
           right. now apply bool_decide_eq_true in B.
        -- rewrite bool_decide_eq_false_2; [reflexivity|].
           apply bool_decide_eq_false in B. intros X.
           apply elem_of_cons in X as [-> | X]; auto.
      * rewrite (IH _ _ _ _ H r0).
        destruct (decide (r0 = r)) as [-> | Hne].
        -- rewrite Hrn, Ho, Hv. rewrite lookup_insert_eq.
           rewrite (bool_decide_eq_true_2 (r ∈ r :: robots)) by left.
           now destruct (bool_decide _).
        -- rewrite lookup_insert_ne by congruence.
           destruct (mjoin (policyRunners d !! r0)) as [rn0|] eqn:Hrn0; [|reflexivity].
           destruct (oracle (runner_of r0) _) as [v0|] eqn:Ho0; [|reflexivity].
           destruct (invalid_result v0) eqn:Hv0; [reflexivity|].
           destruct (bool_decide (r0 ∈ robots)) eqn:B.
           ++ rewrite bool_decide_eq_true_2; [reflexivity|].
              right. now apply bool_decide_eq_true in B.
           ++ rewrite bool_decide_eq_false_2; [reflexivity|].
              apply bool_decide_eq_false in B. intros X.
              apply elem_of_cons in X as [-> | X]; auto.
    + rewrite (IH _ _ _ _ H r0).
      destruct (mjoin (policyRunners d !! r0)) as [rn0|] eqn:Hrn0; [|reflexivity].
      destruct (oracle (runner_of r0) _) as [v0|] eqn:Ho0; [|reflexivity].
      destruct (invalid_result v0) eqn:Hv0; [reflexivity|].
      destruct (decide (r0 = r)) as [-> | Hne]; [congruence|].
      destruct (bool_decide (r0 ∈ robots)) eqn:B.
      * rewrite bool_decide_eq_true_2; [reflexivity|].
        right. now apply bool_decide_eq_true in B.
      * rewrite bool_decide_eq_false_2; [reflexivity|].
        apply bool_decide_eq_false in B. intros X.
        apply elem_of_cons in X as [-> | X]; auto.
Qed.

Lemma tick_multi oracle d sim :
  running d sim -> isMultiRobot d = true ->
  tick oracle d =
  match infer_multi oracle d sim (seq 0 (length (robotJointMappings d))) ∅ [] with
  | (None, tr) => {| demo := set_alive false d; trace := tr; broke := true |}
  | (Some actionTargets, tr) =>
      let d1 := set_actionTarget (default VUndefined (actionTargets !! 0)) d in
      let out := Demo.run_substeps mj_step drag d1 actionTargets sim (seq 0 (decimation d)) in
      {| demo := set_simulation (Some out.1) d1; trace := tr ++ out.2; broke := false |}
  end.
Proof.
  intros ([mdl Hm] & Hs & Hp & Hd & Hr) Hmulti. unfold Demo.tick.
  rewrite Hm, Hs, Hp, Hd, Hr, Hmulti. cbn [negb andb].
  destruct (infer_multi _ _ _ _ _ _) as [[ats|] tr]; [|reflexivity].
  cbn zeta. rewrite substeps_eq. reflexivity.
Qed.

Lemma tick_single oracle d sim :
  running d sim -> isMultiRobot d = false ->
  tick oracle d =
  let state := readPolicyState d sim in
  match oracle the_runner state with
  | Raised => {| demo := set_alive false d; trace := [PolicyStep the_runner state];
                 broke := true |}
  | Returned v =>
      let d1 := set_actionTarget v d in
      let out := Demo.run_substeps mj_step drag d1 {[ 0 := v ]} sim (seq 0 (decimation d)) in
      {| demo := set_simulation (Some out.1) d1;
         trace := PolicyStep the_runner state :: out.2; broke := false |}
  end.
Proof.
  intros ([mdl Hm] & Hs & Hp & Hd & Hr) Hmulti. unfold Demo.tick.
  rewrite Hm, Hs, Hp, Hd, Hr, Hmulti. cbn [negb andb]. cbn zeta.
  destruct (oracle _ _) as [v|]; [|reflexivity].
  rewrite substeps_eq. reflexivity.
Qed.

Lemma filter_physics_policy tr :
  Forall (fun e => is_PolicyStep e = true) tr ->
  filter (fun e => is_PhysicsStep e = true) tr = [].
Proof.
  induction 1 as [| e tr He _ IH]; [reflexivity|].
  rewrite filter_cons_False; [exact IH|]. destruct e; discriminate.
Qed.

(** C3: in a pass of the loop whose guard holds, if a policy's [step]
    raises then [alive] becomes false, the pass leaves the loop by [break],
    the simulation is untouched and the only events are the [step] calls
    made so far (no control write, no physics step), and [main_loop] returns;
    if no [step] raises, whatever the values returned (missing, not an array,
    empty or of the wrong length included), [alive] stays true, every robot
    with a runner had its [step] called, the sub-step loop runs [decimation]
    physics steps and [main_loop] goes on with the next pass. *)
Theorem policy_exception_halts_loop oracles n d sim fuel :
  running d sim -> alive d = true ->
  let res := tick (oracles n) d in
  (raises (oracles n) d sim ->
     alive (demo res) = false /\ broke res = true
     /\ simulation (demo res) = simulation d
     /\ Forall (fun e => is_PolicyStep e = true) (trace res)
     /\ main_loop_from mj_step drag (S fuel) n oracles d = (demo res, trace res))
  /\ (~ raises (oracles n) d sim ->
     alive (demo res) = true /\ broke res = false
     /\ length (filter (fun e => is_PhysicsStep e = true) (trace res)) = decimation d
     /\ (forall r, isMultiRobot d = true -> r < length (robotJointMappings d) ->
         is_Some (mjoin (policyRunners d !! r)) ->
         PolicyStep (runner_of r) (readPolicyStateForRobot d sim r) ∈ trace res)
     /\ main_loop_from mj_step drag (S fuel) n oracles d =
        (let '(d', tr) := main_loop_from mj_step drag fuel (S n) oracles (demo res) in
         (d', trace res ++ tr))).
Proof.
  intros Hrun Halive res.
  assert (Hloop : main_loop_from mj_step drag (S fuel) n oracles d =
                  if broke res then (demo res, trace res)
                  else let '(d', tr) := main_loop_from mj_step drag fuel (S n) oracles (demo res) in
                       (d', trace res ++ tr)).
  { cbn [main_loop_from]. rewrite Halive. reflexivity. }
  unfold raises. subst res.
  destruct (isMultiRobot d) eqn:Hmode.
  - rewrite (tick_multi _ d sim Hrun Hmode) in *.
    pose proof (infer_multi_raised (oracles n) d sim (seq 0 (length (robotJointMappings d))) ∅ []) as Hr.
    pose proof (infer_multi_trace (oracles n) d sim (seq 0 (length (robotJointMappings d))) ∅ []) as (tr' & Etr & Ftr).
    pose proof (infer_multi_stepped (oracles n) d sim (seq 0 (length (robotJointMappings d))) ∅ []) as Hst.
    destruct (infer_multi _ _ _ _ _ _) as [[ats|] tr]; cbn [fst snd app] in *; subst tr.
    + split.
      * intros (r & Hlt & Ha & Ho). exfalso.
        assert (Some ats = None) as X; [|discriminate X].
        apply Hr. exists r. split; [apply elem_of_seq; lia | split; assumption].
      * intros _. cbn zeta in *. cbn [demo trace broke] in *.
        destruct (Demo.run_substeps mj_step drag _ ats sim _) as [s' tr2] eqn:E. cbn [fst snd] in *.
        split; [exact Halive|]. split; [reflexivity|]. split; [|split].
        -- rewrite filter_app, length_app, (filter_physics_policy _ Ftr).
           pose proof (run_substeps_physics_steps
                         (set_actionTarget (default VUndefined (ats !! 0)) d) ats
                         (seq 0 (decimation d)) sim) as Hc.
           rewrite E in Hc. cbn [fst snd] in Hc. rewrite Hc, length_seq. reflexivity.
        -- intros r _ Hlt Ha. apply elem_of_app. left.
           eapply Hst; [reflexivity | apply elem_of_seq; lia | exact Ha].
        -- exact Hloop.
    + split.
      * intros _. cbn [demo trace broke] in *. repeat split; auto.
      * intros Hn. exfalso. apply Hn.
        destruct (proj1 Hr eq_refl) as (r & Hin & Ha & Ho).
        exists r. apply elem_of_seq in Hin. split; [lia | split; assumption].
  - rewrite (tick_single _ d sim Hrun Hmode) in *. cbn zeta in *.
    destruct (oracles n the_runner _) as [v|].
    + split; [discriminate|]. intros _. cbn [demo trace broke] in *.
      destruct (Demo.run_substeps mj_step drag _ _ sim _) as [s' tr2] eqn:E. cbn [fst snd] in *.
      split; [exact Halive|]. split; [reflexivity|]. split; [|split].
      * rewrite filter_cons_False by discriminate.
        pose proof (run_substeps_physics_steps
                      (set_actionTarget v d) {[0 := v]} (seq 0 (decimation d)) sim) as Hc.
        rewrite E in Hc. cbn [fst snd] in Hc. rewrite Hc, length_seq. reflexivity.
      * intros r Habs. discriminate Habs.
      * exact Hloop.
    + split; [|intros Hn; now exfalso]. intros _. cbn [demo trace broke] in *.
      repeat split; auto.
Qed.

Lemma mjoin_detach_lookup d r r' :
  mjoin (policyRunners (detach r d) !! r') =
  if decide (r' = r) then None else mjoin (policyRunners d !! r').
Proof.
  unfold detach. cbn [policyRunners set_policyRunners].
  destruct (decide (r' = r)) as [-> | Hne].
  - destruct (decide (r < length (policyRunners d))).
    + now rewrite list_lookup_insert_eq.
    + rewrite list_insert_ge by lia.
      rewrite lookup_ge_None_2 by lia. reflexivity.
  - now rewrite list_lookup_insert_ne.
Qed.

Lemma accepted_detach oracle d sim r r' :
  accepted oracle (detach r d) sim r' =
  if decide (r' = r) then None else accepted oracle d sim r'.
Proof.
  unfold accepted. rewrite mjoin_detach_lookup.
  destruct (decide (r' = r)); reflexivity.
Qed.

Lemma running_detach d sim r :
  running d sim -> isMultiRobot d = true -> running (detach r d) sim.
Proof.
  intros (Hm & Hs & Hp & Hd & Hr) Hmulti. repeat split; auto.
  unfold hasPolicyRunner in *. change (isMultiRobot (detach r d)) with (isMultiRobot d).
  rewrite Hmulti in *. unfold detach. cbn [policyRunners set_policyRunners].
  now rewrite length_insert.
Qed.

Lemma invalid_or_missing_accepted oracle d sim r m v :
  invalid_or_missing oracle d sim r m ->
  accepted oracle d sim r = Some v -> usable_target m v = false.
Proof.
  unfold accepted, valid_target.
  intros [Hno | (v' & Ho & Hv)].
  - now rewrite Hno.
  - rewrite Ho. destruct (mjoin _); [|discriminate].
    destruct (invalid_result v') eqn:Hi; [discriminate|].
    intros E. injection E as E. subst v'. unfold valid_target in Hv.
    rewrite Hi in Hv. cbn in Hv.
    now rewrite andb_true_r in Hv.
Qed.

Lemma usable_target_undefined m : usable_target m VUndefined = false.
Proof. reflexivity. Qed.

(** A robot without a usable target performs no write. *)
Lemma robot_writes_skipped oracle d sim robots ats tr ats' tr' r m :
  infer_multi oracle d sim robots ats tr = (Some ats', tr') ->
  ats !! r = None ->
  mjoin (robotJointMappings d !! r) = Some m ->
  invalid_or_missing oracle d sim r m ->
  forall s, robot_writes d ats' s r = [].
Proof.
  intros Hinf Hats Hm Hinv s. unfold robot_writes. rewrite Hm.
  rewrite (infer_multi_lookup oracle d sim robots ats tr ats' tr' Hinf r).
  destruct (accepted oracle d sim r) as [v|] eqn:Ha.
  - destruct (bool_decide _).
    + cbn. now rewrite (invalid_or_missing_accepted oracle d sim r m v Hinv Ha).
    + now rewrite Hats.
  - now rewrite Hats.
Qed.

Lemma phase_writes_multi d ats s :
  isMultiRobot d = true ->
  phase_writes d ats s =
  match control_type d with
  | joint_position =>
      mjoin (robot_writes d ats s <$> seq 0 (length (robotJointMappings d)))
  | _ => []
  end.
Proof. intros H. unfold phase_writes. now rewrite H. Qed.

Lemma filter_ctrl_policy tr :
  Forall (fun e => is_PolicyStep e = true) tr ->
  filter (fun e => is_CtrlWrite e = true) tr = [].
Proof.
  induction 1 as [| e tr He _ IH]; [reflexivity|].
  rewrite filter_cons_False; [exact IH|]. destruct e; discriminate.
Qed.


End TickFacts.

End TickFacts.

(* ===================================================================== *)
(** ** Reset                                                              *)
(* ===================================================================== *)

Module ResetFacts.
Import JS JSFacts Demo ControlFacts.

Lemma set_pose_length a cfg qpos : length (set_pose a cfg qpos) = length qpos.
Proof. unfold set_pose. now rewrite !length_insert. Qed.

Lemma set_pose_inside a cfg qpos t :
  a + 6 < length qpos -> t < 7 -> set_pose a cfg qpos !! (a + t) = pose cfg !! t.
Proof.
  intros Hlen Ht. unfold set_pose, pose.
  do 7 (destruct t as [| t];
        [ repeat (rewrite list_lookup_insert_ne by lia);
          rewrite list_lookup_insert_eq by (rewrite ?length_insert; lia); reflexivity |]).
  lia.
Qed.

Lemma set_pose_outside a cfg qpos p :
  p < a \/ a + 6 < p -> set_pose a cfg qpos !! p = qpos !! p.
Proof.
  intros H. unfold set_pose. now rewrite !list_lookup_insert_ne by lia.
Qed.

Lemma place_robot_eq m b cfg js qpos :
  place_robot m b cfg js qpos =
  match joint_adr m b (length qpos) js with
  | Some a => set_pose a cfg qpos
  | None => qpos
  end.
Proof.
  induction js as [| j js IH]; cbn [place_robot joint_adr]; [reflexivity|].
  destruct (bool_decide _); [|exact IH].
  destruct (jnt_qposadr m !! j) as [a|]; [|exact IH].
  destruct (_ && _); [reflexivity | exact IH].
Qed.

Lemma joint_adr_bound m b len js a :
  joint_adr m b len js = Some a -> a + 6 < len.
Proof.
  induction js as [| j js IH]; cbn [joint_adr]; [discriminate|].
  destruct (bool_decide _); [|exact IH].
  destruct (jnt_qposadr m !! j) as [q|]; [|exact IH].
  destruct (_ && _) eqn:E; [|exact IH].
  intros [= <-]. apply andb_prop in E as [E1 E2].
  apply Z.leb_le in E1. apply Z.ltb_lt in E2. lia.
Qed.

Lemma spawn_adr_bound m len k a : spawn_adr m len k = Some a -> a + 6 < len.
Proof.
  unfold spawn_adr. destruct (pelvisBodyId_of m k) as [b|]; [|discriminate].
  cbn. apply joint_adr_bound.
Qed.

Lemma place_config_length m ids qpos ic :
  length (place_config m (ids, qpos) ic).2 = length qpos.
Proof.
  destruct ic as [k cfg]. cbn [place_config].
  destruct (pelvisBodyId_of m k) as [b|]; [|reflexivity]. cbn [snd].
  rewrite place_robot_eq. destruct (joint_adr _ _ _ _); [apply set_pose_length | reflexivity].
Qed.

Lemma place_config_qpos m ids qpos k cfg :
  (place_config m (ids, qpos) (k, cfg)).2 =
  match spawn_adr m (length qpos) k with
  | Some a => set_pose a cfg qpos
  | None => qpos
  end.
Proof.
  cbn [place_config]. unfold spawn_adr.
  destruct (pelvisBodyId_of m k) as [b|]; [|reflexivity]. cbn [snd mbind option_bind].
  apply place_robot_eq.
Qed.

(** After the [forEach], the pose of robot [k] is in place when no other
    robot's pose overlaps it. *)
Lemma foldl_place_config m len k cfg a t (L : list (nat * Config.t)) :
  spawn_adr m len k = Some a -> t < 7 ->
  (forall c', (k, c') ∈ L -> c' = cfg) ->
  (forall k' c' a', (k', c') ∈ L -> k' <> k -> spawn_adr m len k' = Some a' ->
                    a' + 6 < a \/ a + 6 < a') ->
  forall ids qpos,
    length qpos = len ->
    (qpos !! (a + t) = pose cfg !! t \/ exists c', (k, c') ∈ L) ->
    (foldl (place_config m) (ids, qpos) L).2 !! (a + t) = pose cfg !! t.
Proof.
  intros Ha Ht. induction L as [| [k' c'] L IH]; intros Hcfg Hdis ids qpos Hlen Hor.
  - destruct Hor as [H | (c' & H)]; [exact H | inversion H].
  - cbn [foldl].
    destruct (place_config m (ids, qpos) (k', c')) as [ids' qpos'] eqn:E.
    assert (Hq : qpos' = (place_config m (ids, qpos) (k', c')).2) by now rewrite E.
    apply IH.
    + intros c0 H0. apply Hcfg. now right.
    + intros k0 c0 a0 H0. apply (Hdis k0 c0 a0). now right.
    + rewrite Hq, place_config_length. exact Hlen.
    + rewrite Hq, place_config_qpos, Hlen.
      destruct (decide (k' = k)) as [-> | Hne].
      * left. rewrite Ha, (Hcfg c' (list_elem_of_here _ _)).
        apply set_pose_inside; [| exact Ht].
        rewrite Hlen. eapply spawn_adr_bound; eauto.
      * destruct Hor as [H | (c0 & H)].
        -- left. destruct (spawn_adr m len k') as [a'|] eqn:Ea'; [|exact H].
           rewrite set_pose_outside; [exact H|].
           destruct (Hdis k' c' a' (list_elem_of_here _ _) Hne Ea'); lia.
        -- right. exists c0.
           apply elem_of_cons in H as [H | H]; [congruence | exact H].
Qed.

Lemma elem_of_indexed {A} (l : list A) k x :
  (k, x) ∈ Generator.indexed l <-> l !! k = Some x.
Proof.
  unfold Generator.indexed. rewrite list_elem_of_lookup. split.
  - intros (i & Hi). apply lookup_zip_with_Some in Hi as (a & b & E & Ha & Hb).
    injection E as -> ->. apply lookup_seq in Ha as [Ha _]. cbn in Ha. now subst.
  - intros H. exists k. apply lookup_zip_with_Some. exists k, x.
    split; [reflexivity|]. split; [|exact H].
    apply lookup_seq. split; [reflexivity|]. eapply lookup_lt_Some; eauto.
Qed.

Section ResetFacts.
Variables mj_forward mj_resetData : Simulation -> Simulation.
Abbreviation resetSimulation := (Demo.resetSimulation mj_forward mj_resetData).
Abbreviation setMultiRobotInitialPositions := (Demo.setMultiRobotInitialPositions mj_forward).

Lemma elem_of_reset_runners d sim r :
  attached d r ->
  PolicyReset (runner_of r) (readPolicyStateForRobot d sim r) ∈ reset_runners d sim.
Proof.
  intros Ha. unfold reset_runners. apply list_elem_of_omap. exists r. split.
  - apply elem_of_seq. split; [lia|]. cbn.
    apply lookup_lt_is_Some. unfold attached in Ha.
    destruct (policyRunners d !! r); [eauto | destruct Ha; discriminate].
  - destruct Ha as [rn ->]. reflexivity.
Qed.

Lemma reset_runners_steps d sim :
  Forall (fun e => is_reset_step e = true) (reset_runners d sim).
Proof.
  unfold reset_runners. apply Forall_forall. intros e He.
  apply list_elem_of_omap in He as (r & _ & Hr).
  destruct (mjoin _); [|discriminate]. now injection Hr as <-.
Qed.

(** What [setMultiRobotInitialPositions] does to a loaded scene with several
    robots. *)
Lemma setMultiRobotInitialPositions_loaded d m sim :
  1 < length (robotConfigs d) -> model d = Some m -> data d = true ->
  simulation d = Some sim ->
  exists ids qpos',
    foldl (place_config m) (∅, qpos sim) (Generator.indexed (robotConfigs d)) = (ids, qpos')
    /\ setMultiRobotInitialPositions d =
       (set_simulation (Some (mj_forward (set_qpos qpos' sim)))
          (set_robotPelvisBodyIds ids d), [Forward]).
Proof.
  intros Hn Hm Hd Hs. unfold Demo.setMultiRobotInitialPositions.
  rewrite (proj2 (Nat.leb_gt _ _) Hn), Hm, Hd, Hs.
  destruct (foldl _ _ _) as [ids qpos']. eauto.
Qed.

Lemma setMultiRobotInitialPositions_other d :
  (model d = None \/ data d = false) ->
  setMultiRobotInitialPositions d = (d, []).
Proof.
  intros H. unfold Demo.setMultiRobotInitialPositions.
  destruct (_ <=? 1); [reflexivity|].
  destruct H as [-> | ->]; [reflexivity|]. now destruct (model d).
Qed.

Definition posed (d : Demo) (sim0 sim' : Simulation) : Prop :=
  if 1 <? length (robotConfigs d) then
    match model d, data d with
    | Some m, true =>
        exists s, sim' = mj_forward s
          /\ length (qpos s) = length (qpos sim0)
          /\ forall k cfg a t,
               robotConfigs d !! k = Some cfg ->
               spawn_adr m (length (qpos sim0)) k = Some a ->
               (forall k' a', k' <> k -> k' < length (robotConfigs d) ->
                  spawn_adr m (length (qpos sim0)) k' = Some a' ->
                  a' + 6 < a \/ a + 6 < a') ->
               t < 7 -> qpos s !! (a + t) = pose cfg !! t
    | _, _ => sim' = sim0
    end
  else sim' = sim0.

Lemma foldl_place_config_length m L : forall ids qpos,
  length (foldl (place_config m) (ids, qpos) L).2 = length qpos.
Proof.
  induction L as [| ic L IH]; intros ids qpos; [reflexivity|]. cbn [foldl].
  destruct (place_config m (ids, qpos) ic) as [ids' qpos'] eqn:E.
  rewrite IH. replace qpos' with (place_config m (ids, qpos) ic).2 by now rewrite E.
  apply place_config_length.
Qed.

(** C8: [resetSimulation] on a loaded simulation returns with [paused]
    false and [actionTarget] null.  In between it pauses, resets the physics
    data and runs [forward]; with more than one robot config (and a loaded
    model) it writes each robot's spawn pose and upright quaternion at the
    address of its free joint and runs [forward] again; it then hands every
    attached runner of the current mode the state read from the simulation
    as it is after these steps; unpausing is the last step. *)
Theorem reset_unpauses_and_clears d sim :
  simulation d = Some sim ->
  let d' := (resetSimulation d).1 in
  let tr := (resetSimulation d).2 in
  let sim0 := mj_forward (mj_resetData sim) in
  paused (params d') = false
  /\ actionTarget d' = VNull
  /\ (exists mid, tr = [SetPaused true; ResetData; Forward] ++ mid ++ [SetPaused false]
        /\ Forall (fun e => is_reset_step e = true) mid)
  /\ exists sim', simulation d' = Some sim'
       /\ posed d sim0 sim'
       /\ (isMultiRobot d = true -> forall r, attached d r ->
             PolicyReset (runner_of r) (readPolicyStateForRobot d' sim' r) ∈ tr)
       /\ (isMultiRobot d = false -> is_Some (policyRunner d) ->
             PolicyReset the_runner (readPolicyState d' sim') ∈ tr).
Proof.
  intros Hs d' tr sim0. subst d' tr. unfold Demo.resetSimulation. rewrite Hs.
  cbn zeta. fold sim0.
  set (d0 := set_simulation (Some sim0) (set_paused true d)).
  change (robotConfigs d0) with (robotConfigs d).
  assert (Hposes : exists d1 poses sim',
             (if 1 <? length (robotConfigs d) then setMultiRobotInitialPositions d0
              else (d0, [])) = (d1, poses)
             /\ simulation d1 = Some sim'
             /\ posed d sim0 sim'
             /\ Forall (fun e => is_reset_step e = true) poses
             /\ isMultiRobot d1 = isMultiRobot d
             /\ policyRunner d1 = policyRunner d
             /\ (forall s r, readPolicyStateForRobot d1 s r = readPolicyStateForRobot d s r)
             /\ (forall s, readPolicyState d1 s = readPolicyState d s)
             /\ (forall s, reset_runners d1 s = reset_runners d s)).
  { unfold posed. destruct (1 <? length (robotConfigs d)) eqn:Hn.
    - apply Nat.ltb_lt in Hn.
      destruct (model d) as [m|] eqn:Hm; [destruct (data d) eqn:Hd|].
      + destruct (setMultiRobotInitialPositions_loaded d0 m sim0 Hn Hm Hd eq_refl)
          as (ids & qpos' & Hf & ->).
        eexists _, _, _. split; [reflexivity|]. split; [reflexivity|].
        split; [| repeat split; repeat constructor].
        exists (set_qpos qpos' sim0). split; [reflexivity|].
        change (robotConfigs d0) with (robotConfigs d) in Hf.
        assert (Hq : qpos' = (foldl (place_config m) (∅, qpos sim0) (Generator.indexed (robotConfigs d))).2)
          by now rewrite Hf.
        split.
        * cbn [qpos set_qpos]. rewrite Hq. apply foldl_place_config_length.
        * intros k cfg a t Hk Ha Hdis Ht. cbn [qpos set_qpos]. rewrite Hq.
          apply (foldl_place_config m (length (qpos sim0)) k cfg a t); auto.
          -- intros c' Hc'. apply elem_of_indexed in Hc'. congruence.
          -- intros k' c' a' Hk' Hne Ha'. apply elem_of_indexed in Hk'.
             apply (Hdis k' a' Hne); [|exact Ha']. eapply lookup_lt_Some; eauto.
          -- right. exists cfg. now apply elem_of_indexed.
      + rewrite setMultiRobotInitialPositions_other by (now right).
        eexists _, _, _. repeat split; constructor.
      + rewrite setMultiRobotInitialPositions_other by (now left).
        eexists _, _, _. repeat split; constructor.
    - eexists _, _, _. repeat split; constructor. }
  destruct Hposes as (d1 & poses & sim' & -> & Hs1 & Hposed & Hfp & Hmulti & Hrun & Hst & Hst1 & Hrr).
  change (simulation (set_actionTarget VNull d1)) with (simulation d1). rewrite Hs1.
  change (isMultiRobot (set_actionTarget VNull d1)) with (isMultiRobot d1).
  change (policyRunner (set_actionTarget VNull d1)) with (policyRunner d1).
  rewrite Hmulti, Hrun.
  destruct (isMultiRobot d) eqn:Hmode.
  - cbn [fst snd]. split; [reflexivity|]. split; [reflexivity|]. split.
    + eexists (poses ++ _). split; [now rewrite <- (app_assoc poses)|]. apply Forall_app. split; [exact Hfp|].
      apply reset_runners_steps.
    + exists sim'. split; [exact Hs1|]. split; [exact Hposed|]. split; [|discriminate].
      intros _ r Ha. rewrite !elem_of_app. right. right. left.
      change (reset_runners (set_actionTarget VNull d1) sim') with (reset_runners d1 sim').
      rewrite Hrr.
      match goal with |- PolicyReset _ ?st ∈ _ =>
        change st with (readPolicyStateForRobot d1 sim' r) end.
      rewrite Hst. now apply elem_of_reset_runners.
  - destruct (policyRunner d) as [rn|] eqn:Hpr; cbn [fst snd].
    + split; [reflexivity|]. split; [reflexivity|]. split.
      * eexists (poses ++ _). split; [now rewrite <- (app_assoc poses)|]. apply Forall_app. split; [exact Hfp|].
        repeat constructor.
      * exists sim'. split; [exact Hs1|]. split; [exact Hposed|]. split; [discriminate|].
        intros _ _. rewrite !elem_of_app. right. right. left.
        match goal with |- PolicyReset _ ?st ∈ _ =>
          change st with (readPolicyState d1 sim') end.
        apply list_elem_of_singleton. reflexivity.
    + split; [reflexivity|]. split; [reflexivity|]. split.
      * eexists (poses ++ _). split; [now rewrite <- (app_assoc poses)|]. apply Forall_app. split; [exact Hfp|].
        constructor.
      * exists sim'. split; [exact Hs1|]. split; [exact Hposed|]. split; [discriminate|].
        intros _ [? H]. discriminate H.
Qed.

End ResetFacts.

End ResetFacts.

(* ===================================================================== *)
(** ** Motion requests and scene generation                               *)
(* ===================================================================== *)

Module RequestFacts.
Import JS JSFacts Demo.

Lemma applyToRobot_dispatches d name force idx d' tr b :
  applyToRobot d name force idx = Some (d', tr, b) ->
  exists tr', tr = ApplyToRobot idx :: tr'.
Proof.
  unfold applyToRobot.
  destruct (mjoin (runners_of d !! idx) ≫= tracking) as [t|]; [|intros [= <- <- <-]; eauto].
  destruct (negb _); [intros [= <- <- <-]; eauto|].
  destruct (simulation d) as [sim|]; [|discriminate].
  destruct (force && _); intros [= <- <- <-]; eauto.
Qed.

Lemma apply_all_dispatches d name force i idxs all d' tr b :
  apply_all d name force (i :: idxs) all = Some (d', tr, b) ->
  exists tr', tr = ApplyToRobot i :: tr'.
Proof.
  cbn [apply_all].
  destruct (applyToRobot d name force i) as [[[d1 tr1] ok]|] eqn:E; [|discriminate].
  apply applyToRobot_dispatches in E as (tr1' & ->).
  destruct (apply_all d1 name force idxs (all && ok)) as [[[d2 tr2] all2]|]; [|discriminate].
  intros [= <- <- <-]. eauto.
Qed.

Lemma floorZ_finite x : Number_isFinite x = true -> exists fl, floorZ x = Some fl.
Proof. destruct x; try discriminate; simpl; eauto. Qed.

Lemma clamp_index_range fl n :
  0 < n ->
  clamp_index fl n < n
  /\ ((fl < 0)%Z -> clamp_index fl n = 0)
  /\ ((Z.of_nat n <= fl)%Z -> clamp_index fl n = n - 1)
  /\ ((0 <= fl < Z.of_nat n)%Z -> Z.of_nat (clamp_index fl n) = fl).
Proof. unfold clamp_index. intros Hn. repeat split; intros; lia. Qed.


End RequestFacts.

Module SceneFacts.
Import JS Demo Regex Generator.

Section SceneFacts.
Variable Number_toString : num -> text.

Lemma generateMultiRobotXML_errors fetched cfgs :
  generateMultiRobotXML Number_toString fetched cfgs <> Throw RobotConfigsEmpty
  /\ generateMultiRobotXML Number_toString fetched cfgs <> Throw MaximumRobots.
Proof.
  unfold generateMultiRobotXML.
  destruct fetched as [| [|] status body]; try (split; discriminate).
  destruct cfgs as [| c [| c' cfgs]]; try (split; discriminate);
    (destruct (indexOf _ body); [|split; discriminate];
     destruct (scan_body _ _ _ _ _); [|split; discriminate];
     destruct (indexOf _ body); [|split; discriminate];
     destruct (indexOf_from _ body _); [|split; discriminate];
     destruct (indexOf _ body); split; discriminate).
Qed.

(** C6: [generateMultiRobotScene] throws ['Robot configs cannot be empty']
    for a missing or empty config list and ['Maximum 11 robots allowed'] for
    more than 11 configs, leaving the object as it was; for 1 to 11 configs
    neither check fires, the configs are stored and the outcome is that of
    [generateMultiRobotXML]; and whenever the call throws, the file system of
    the physics engine is as before: the scene is written only after the
    whole text has been generated. *)
Theorem scene_preconditions fetched robotConfigs d :
  let out := generateMultiRobotScene Number_toString fetched robotConfigs d in
  ((robotConfigs = None \/ robotConfigs = Some []) ->
     out = (d, Throw RobotConfigsEmpty))
  /\ (forall configs, robotConfigs = Some configs -> 11 < length configs ->
        out = (d, Throw MaximumRobots))
  /\ (forall configs, robotConfigs = Some configs -> 1 <= length configs <= 11 ->
        out.2 <> Throw RobotConfigsEmpty /\ out.2 <> Throw MaximumRobots
        /\ Demo.robotConfigs out.1 = configs
        /\ match generateMultiRobotXML Number_toString fetched configs with
           | Ok generatedXml =>
               out.2 = Ok () /\ FS out.1 = <[targetPath := generatedXml]> (FS d)
           | Throw e => out.2 = Throw e
           end)
  /\ (forall e, out.2 = Throw e -> FS out.1 = FS d).
Proof.
  intros out. subst out. unfold generateMultiRobotScene.
  split; [|split; [|split]].
  - intros [-> | ->]; reflexivity.
  - intros configs -> Hlen.
    destruct (length configs =? 0) eqn:E0; [apply Nat.eqb_eq in E0; lia|].
    now rewrite (proj2 (Nat.ltb_lt _ _) Hlen).
  - intros configs -> [Hlo Hhi].
    rewrite (proj2 (Nat.eqb_neq _ _)) by lia.
    rewrite (proj2 (Nat.ltb_ge _ _)) by lia.
    destruct (generateMultiRobotXML_errors fetched configs) as [H1 H2].
    destruct (generateMultiRobotXML Number_toString fetched configs) as [xml|e];
      cbn [fst snd]; repeat split; try discriminate; congruence.
  - intros e. destruct robotConfigs as [configs|]; [|reflexivity].
    destruct (length configs =? 0); [reflexivity|].
    destruct (11 <? length configs); [reflexivity|].
    destruct (generateMultiRobotXML Number_toString fetched configs) as [xml|e'];
      [discriminate | reflexivity].
Qed.

End SceneFacts.

End SceneFacts.

(* ===================================================================== *)
(** ** Witnesses on the concrete scenes                                   *)
(* ===================================================================== *)

Module SchedulerWitnesses.
Import JS JSFacts Demo ControlFacts TickFacts RequestFacts SceneFacts Examples.
Import Regex Generator.

Lemma pd_control_written_witness :
  control_type demo2 = joint_position
  /\ controlled demo2 targets2 sim2 (runner_of 0) 0 dof_a
  /\ spec_torque dof_a = of_Z 98
  /\ ctrl (control_phase demo2 targets2 (sim2, [])).1 !! 0 = Some (of_Z 50).
Proof.
  assert (H1 : control_type demo2 = joint_position) by reflexivity.
  assert (H2 : controlled demo2 targets2 sim2 (runner_of 0) 0 dof_a).
  { split; [reflexivity|].
    exists mapping_a, (VFloat32Array (nums [3]%Z)), (nums [100]%Z), (nums [2]%Z), 7, 6.
    repeat split; try reflexivity. simpl. lia. }
  split; [exact H1|]. split; [exact H2|]. split; [vm_compute; reflexivity|].
  destruct (pd_control_written demo2 targets2 sim2 [] (runner_of 0) 0 dof_a H1 H2)
    as (_ & Hctrl & _).
  apply Hctrl.
  - intros r' m' j. destruct r' as [| [| r']]; simpl.
    + intros [= <-]. destruct j as [| j]; [intros _; split; reflexivity|].
      destruct j; discriminate.
    + intros [= <-]. destruct j as [| j]; [discriminate|]. destruct j; discriminate.
    + discriminate.
  - simpl. lia.
Defined.

Lemma policy_exception_halts_loop_witness :
  running demo2 sim2 /\ alive demo2 = true
  /\ raises oracle_raise demo2 sim2
  /\ alive (demo (tick still still oracle_raise demo2)) = false
  /\ ~ raises oracle_long demo2 sim2
  /\ alive (demo (tick still still oracle_long demo2)) = true.
Proof.
  assert (H1 : running demo2 sim2).
  { repeat split; try reflexivity. eexists; reflexivity. }
  assert (H2 : alive demo2 = true) by reflexivity.
  assert (H3 : raises oracle_raise demo2 sim2).
  { exists 1. split; [simpl; lia|]. split; [eexists; reflexivity | reflexivity]. }
  assert (H4 : ~ raises oracle_long demo2 sim2).
  { intros (r & _ & _ & Hr). destruct r as [| [| r]]; discriminate Hr. }
  split; [exact H1|]. split; [exact H2|]. split; [exact H3|]. split.
  - apply (proj1 (policy_exception_halts_loop still still (fun _ => oracle_raise) 0
                    demo2 sim2 0 H1 H2) H3).
  - split; [exact H4|].
    apply (proj2 (policy_exception_halts_loop still still (fun _ => oracle_long) 0
                    demo2 sim2 0 H1 H2) H4).
Defined.



Lemma scene_preconditions_witness :
  (generateMultiRobotScene show_int NetworkError (Some []) demo2).2 = Throw RobotConfigsEmpty
  /\ (generateMultiRobotScene show_int NetworkError
        (Some (replicate 12 (config 0 0 1))) demo2).2 = Throw MaximumRobots
  /\ (generateMultiRobotScene show_int NetworkError
        (Some (replicate 11 (config 0 0 1))) demo2).2 = Throw FetchRejected
  /\ FS (generateMultiRobotScene show_int NetworkError
           (Some (replicate 11 (config 0 0 1))) demo2).1 = FS demo2.
Proof.
  pose proof (scene_preconditions show_int NetworkError (Some []) demo2) as (H1 & _).
  pose proof (scene_preconditions show_int NetworkError
                (Some (replicate 12 (config 0 0 1))) demo2) as (_ & H2 & _).
  pose proof (scene_preconditions show_int NetworkError
                (Some (replicate 11 (config 0 0 1))) demo2) as (_ & _ & H3 & H4).
  split; [now rewrite (H1 (or_intror eq_refl))|].
  split; [rewrite (H2 _ eq_refl); [reflexivity | simpl; lia]|].
  split.
  - destruct (H3 _ eq_refl) as (_ & _ & _ & H); [simpl; lia | exact H].
  - apply (H4 FetchRejected). reflexivity.
Defined.


Lemma reset_unpauses_and_clears_witness :
  simulation demo2 = Some sim2
  /\ paused (params (resetSimulation still wipe demo2).1) = false
  /\ actionTarget (resetSimulation still wipe demo2).1 = VNull
  /\ qpos <$> simulation (resetSimulation still wipe demo2).1
     = Some (nums [0; 0; 1; 1; 0; 0; 0; 0; 3; 0; 1; 1; 0; 0; 0; 0]%Z).
Proof.
  assert (H : simulation demo2 = Some sim2) by reflexivity.
  destruct (ResetFacts.reset_unpauses_and_clears still wipe demo2 sim2 H) as (H1 & H2 & _).
  split; [exact H|]. split; [exact H1|]. split; [exact H2|].
  vm_compute. reflexivity.
Defined.

End SchedulerWitnesses.

(* ===================================================================== *)
(** ** Facts on the matcher and on [replace]                              *)
(* ===================================================================== *)

Module RegexFacts.
Import JS Regex.

Lemma take_app_minus {A} (m s : list A) :
  take (length (m ++ s) - length s) (m ++ s) = m.
Proof.
  rewrite length_app. replace (length m + length s - length s) with (length m) by lia.
  apply take_app_length.
Qed.

Lemma is_not_true c x : is_not c x = true <-> x <> c.
Proof.
  unfold is_not. destruct (Ascii.eqb_spec x c); split; intros; try congruence; auto.
Qed.

Lemma Forall_is_not c l :
  Forall (fun x => x <> c) l -> Forall (fun x => is_not c x = true) l.
Proof. intros H. eapply Forall_impl; [exact H|]. intros x. apply is_not_true. Qed.

Section MatcherFacts.
Context {R : Type}.
Implicit Types (k : text -> captures -> option R) (s : text).

Lemma mt_Lit_app l s caps k : mt (Lit l) (l ++ s) caps k = k s caps.
Proof.
  induction l as [| c l IH]; cbn [Lit mt app]; [reflexivity|].
  rewrite Ascii.eqb_refl. exact IH.
Qed.

Lemma mt_Lit_fail l s caps k : ~ l `prefix_of` s -> mt (Lit l) s caps k = None.
Proof.
  revert s. induction l as [| c l IH]; intros s H; cbn [Lit mt].
  - exfalso. apply H. apply prefix_nil.
  - destruct s as [| x s]; [reflexivity|].
    destruct (Ascii.eqb_spec x c) as [-> | Hne]; [|reflexivity].
    apply IH. intros Hp. apply H. now apply prefix_cons.
Qed.

Lemma mt_Lit_Some l s caps k r :
  mt (Lit l) s caps k = Some r -> exists s', s = l ++ s' /\ k s' caps = Some r.
Proof.
  revert s. induction l as [| c l IH]; intros s; cbn [Lit mt].
  - intros H. exists s. split; [reflexivity | exact H].
  - destruct s as [| x s]; [discriminate|].
    destruct (Ascii.eqb_spec x c) as [-> | Hne]; [|discriminate].
    intros H. apply IH in H as (s' & -> & H). exists s'. split; [reflexivity | exact H].
Qed.

(** Greedy [p*]: the continuation is tried after the longest run first. *)
Lemma many_greedy p a b (k' : text -> option R) r :
  Forall (fun c => p c = true) a -> k' b = Some r -> stops p b ->
  many p (a ++ b) k' = Some r.
Proof.
  intros Ha Hk Hb. induction Ha as [| c a Hc Ha IH]; cbn [app many].
  - destruct b as [| c b]; cbn [many]; [exact Hk|]. cbn in Hb. now rewrite Hb.
  - now rewrite Hc, IH.
Qed.

(** The continuation fails after every part of the run: no match. *)
Lemma many_none p a b (k' : text -> option R) :
  Forall (fun c => p c = true) a -> stops p b ->
  (forall x y, a = x ++ y -> k' (y ++ b) = None) ->
  many p (a ++ b) k' = None.
Proof.
  intros Ha Hb. induction Ha as [| c a Hc Ha IH]; intros Hf; cbn [app many].
  - destruct b as [| d b]; cbn [many]; [apply (Hf [] []); reflexivity|].
    cbn in Hb. rewrite Hb. apply (Hf [] []); reflexivity.
  - rewrite Hc, IH.
    + apply (Hf [] (c :: a)). reflexivity.
    + intros x y E. apply (Hf (c :: x) y). now rewrite E.
Qed.

(** Backtracking: the continuation succeeds after giving back [a2], and
    fails after giving back any shorter part of the run. *)
Lemma many_backtrack p a1 a2 b (k' : text -> option R) r :
  Forall (fun c => p c = true) (a1 ++ a2) -> stops p b ->
  k' (a2 ++ b) = Some r ->
  (forall x y, a2 = x ++ y -> x <> [] -> k' (y ++ b) = None) ->
  many p (a1 ++ a2 ++ b) k' = Some r.
Proof.
  intros Ha Hb Hk Hfail. induction a1 as [| c a1 IH]; cbn [app] in *.
  - destruct a2 as [| c a2]; cbn [app many] in *.
    + destruct b as [| c b]; cbn [many]; [exact Hk|]. cbn in Hb. now rewrite Hb.
    + inversion Ha as [| ? ? Hc Ha']; subst. rewrite Hc.
      rewrite (many_none p a2 b k' Ha' Hb); [exact Hk|].
      intros x y E. apply (Hfail (c :: x) y); [now rewrite E | discriminate].
  - inversion Ha as [| ? ? Hc Ha']; subst. cbn [many]. rewrite Hc. now rewrite IH.
Qed.

Lemma many_Some p s (k' : text -> option R) r :
  many p s k' = Some r ->
  exists a b, s = a ++ b /\ Forall (fun c => p c = true) a /\ k' b = Some r.
Proof.
  induction s as [| c s IH]; cbn [many].
  - intros H. exists [], []. auto.
  - destruct (p c) eqn:Hc.
    + destruct (many p s k') as [r'|] eqn:E.
      * intros [= <-]. destruct (IH eq_refl) as (a & b & -> & Ha & Hk).
        exists (c :: a), b. repeat split; auto.
      * intros H. exists [], (c :: s). auto.
    + intros H. exists [], (c :: s). auto.
Qed.

End MatcherFacts.

(** *** [replace] *)

Lemma replace_from_skip r f x s :
  replace_from r f (x ++ s) (length x) = replace_from r f s 0.
Proof.
  induction x as [| c x IH]; cbn [app length replace_from]; [|exact IH].
  destruct s; reflexivity.
Qed.

(** No match starts at the head: the unit is copied. *)
Lemma replace_all_copy r f c s :
  exec r (c :: s) = None -> replace_all r f (c :: s) = c :: replace_all r f s.
Proof. intros H. unfold replace_all. cbn [replace_from]. now rewrite H. Qed.

(** A non-empty match at the head is replaced and the scan resumes behind
    it. *)
Lemma replace_all_step r f m s caps :
  m <> [] -> exec r (m ++ s) = Some (m, caps) ->
  replace_all r f (m ++ s) = f m caps ++ replace_all r f s.
Proof.
  intros Hm H. unfold replace_all. destruct m as [| c m]; [contradiction|].
  cbn [app replace_from]. cbn [app] in H. rewrite H. cbn [length].
  now rewrite replace_from_skip.
Qed.

(** No match starts inside [x]: [x] is copied. *)
Lemma replace_all_prefix r f x s :
  (forall i, i < length x -> exec r (drop i (x ++ s)) = None) ->
  replace_all r f (x ++ s) = x ++ replace_all r f s.
Proof.
  induction x as [| c x IH]; intros H; [reflexivity|].
  cbn [app]. rewrite replace_all_copy.
  - f_equal. apply IH. intros i Hi. apply (H (S i)). cbn. lia.
  - apply (H 0). cbn. lia.
Qed.

Lemma replace_all_nil r f : exec r [] = None -> replace_all r f [] = [].
Proof. intros H. unfold replace_all. cbn. now rewrite H. Qed.

(** A pattern that begins with the literal [l] does not match where [l] is
    not a prefix. *)
Lemma exec_Lit_fail l r s :
  ~ l `prefix_of` s -> exec (Seq (Lit l) r) s = None.
Proof. intros H. unfold exec. cbn [mt]. now apply mt_Lit_fail. Qed.

End RegexFacts.

(* ===================================================================== *)
(** ** The single-robot scene                                             *)
(* ===================================================================== *)

Module PositionFacts.
Import JS Regex Generator RegexFacts Examples.

(** *** The position pattern *)

Lemma exec_pelvis_pos prefix old post :
  Forall (fun c => c <> dq) old ->
  exec (re_pelvis_pos prefix) (anchor_pos_open prefix ++ old ++ dq :: post)
  = Some (anchor_pos_open prefix ++ old ++ [dq], ∅).
Proof.
  intros Hold. unfold exec, re_pelvis_pos. fold (anchor_pos_open prefix).
  cbn [mt]. rewrite mt_Lit_app. cbn [mt].
  apply many_greedy.
  - now apply Forall_is_not.
  - rewrite Ascii.eqb_refl. f_equal. f_equal.
    replace (anchor_pos_open prefix ++ old ++ dq :: post)
      with ((anchor_pos_open prefix ++ old ++ [dq]) ++ post)
      by (now rewrite <- !app_assoc).
    apply take_app_minus.
  - reflexivity.
Qed.

Lemma exec_pelvis_pos_fail prefix s :
  ~ anchor_pos_open prefix `prefix_of` s -> exec (re_pelvis_pos prefix) s = None.
Proof. apply exec_Lit_fail. Qed.

Lemma exec_pelvis_pos_inv prefix s m caps :
  exec (re_pelvis_pos prefix) s = Some (m, caps) ->
  exists old post,
    s = anchor_pos_open prefix ++ old ++ dq :: post
    /\ Forall (fun c => c <> dq) old
    /\ m = anchor_pos_open prefix ++ old ++ [dq].
Proof.
  unfold exec, re_pelvis_pos. fold (anchor_pos_open prefix).
  remember (anchor_pos_open prefix) as L eqn:HL. cbn [mt].
  intros H. apply mt_Lit_Some in H as (s1 & -> & H). cbn [mt] in H.
  apply many_Some in H as (old & b & -> & Hold & H).
  destruct b as [| c post]; [discriminate|].
  destruct (Ascii.eqb_spec c dq) as [-> | Hne]; [|discriminate].
  injection H as <- _. exists old, post. split; [reflexivity|]. split.
  - eapply Forall_impl; [exact Hold|]. intros x. apply is_not_true.
  - replace (L ++ old ++ dq :: post) with ((L ++ old ++ [dq]) ++ post)
      by (now rewrite <- !app_assoc).
    apply take_app_minus.
Qed.

Lemma anchor_pos_open_not_nil prefix : anchor_pos_open prefix <> [].
Proof. unfold anchor_pos_open. discriminate. Qed.

Section PosFacts.
Variable Number_toString : num -> text.
Abbreviation set_pelvis_pos := (Generator.set_pelvis_pos Number_toString).
Abbreviation pos_of := (Generator.pos_of Number_toString).

Lemma set_pelvis_pos_eq prefix config s :
  set_pelvis_pos prefix config s
  = replace_all (re_pelvis_pos prefix)
      (fun _ _ => xml "<body name='" ++ prefix ++ xml "pelvis' pos='"
                  ++ pos_of config ++ [dq]) s.
Proof. reflexivity. Qed.

Lemma set_pelvis_pos_step prefix config old post :
  Forall (fun c => c <> dq) old ->
  set_pelvis_pos prefix config (anchor_pos_open prefix ++ old ++ dq :: post)
  = anchor_pos_open prefix ++ pos_of config ++ dq :: set_pelvis_pos prefix config post.
Proof.
  intros Hold. unfold Generator.set_pelvis_pos. fold (anchor_pos_open prefix).
  replace (anchor_pos_open prefix ++ old ++ dq :: post)
    with ((anchor_pos_open prefix ++ old ++ [dq]) ++ post)
    by (now rewrite <- !app_assoc).
  rewrite (replace_all_step _ _ _ _ ∅).
  - unfold anchor_pos_open. rewrite <- !app_assoc. reflexivity.
  - intros E. apply app_eq_nil in E as [E _]. now apply anchor_pos_open_not_nil in E.
  - rewrite <- !app_assoc. cbn [app]. now apply exec_pelvis_pos.
Qed.

(** Whatever the text, the position step changes nothing but values of
    position attributes of primary anchor tags. *)
Lemma set_pelvis_pos_frame config s :
  only_pos_rewritten (pos_of config) s (set_pelvis_pos [] config s).
Proof.
  remember (length s) as n eqn:Hn. revert s Hn.
  induction n as [n IH] using lt_wf_ind. intros s Hn.
  destruct s as [| c s'].
  - unfold Generator.set_pelvis_pos. rewrite replace_all_nil; [constructor|].
    apply exec_pelvis_pos_fail. intros [x Hx]. discriminate Hx.
  - destruct (exec (re_pelvis_pos []) (c :: s')) as [[m caps]|] eqn:E.
    + apply exec_pelvis_pos_inv in E as (old & post & Hs & Hold & _).
      rewrite Hs. rewrite set_pelvis_pos_step by exact Hold.
      apply opr_pos; [exact Hold|].
      apply (IH (length post)); [|reflexivity].
      subst n. rewrite Hs, !length_app. cbn. lia.
    + unfold Generator.set_pelvis_pos. rewrite replace_all_copy by exact E.
      apply opr_copy. apply (IH (length s')); [subst n; cbn; lia | reflexivity].
Qed.

Lemma prefix_of_drop_app {A} (l x s : list A) i :
  l `prefix_of` drop i s -> i <= length s -> l `prefix_of` drop (length x + i) (x ++ s).
Proof. intros H _. now rewrite drop_app_add'. Qed.

(** With a single anchor opener carrying a position attribute, exactly the
    value of that attribute is replaced. *)
Lemma replace_all_single r f (L old new pre post : text) :
  (forall s, ~ L `prefix_of` s -> exec r s = None) ->
  replace_all r f (L ++ old ++ dq :: post) = L ++ new ++ dq :: replace_all r f post ->
  (forall i, occurs_at L (pre ++ L ++ old ++ dq :: post) i -> i = length pre) ->
  L <> [] ->
  replace_all r f (pre ++ L ++ old ++ dq :: post) = pre ++ L ++ new ++ dq :: post.
Proof.
  intros Hfail Hstep Huniq HL.
  assert (Hnil : exec r [] = None).
  { apply Hfail. intros [x Hx]. destruct L; [contradiction | discriminate]. }
  assert (Hpost : replace_all r f (post ++ []) = post ++ []).
  { rewrite replace_all_prefix.
    - now rewrite replace_all_nil by exact Hnil.
    - intros i Hi. apply Hfail. intros Hp. rewrite app_nil_r in Hp.
      assert (Hocc : occurs_at L (pre ++ L ++ old ++ dq :: post)
                       (length (pre ++ L ++ old ++ [dq]) + i)).
      { split.
        + rewrite !length_app in *. cbn [length] in *. lia.
        + replace (pre ++ L ++ old ++ dq :: post)
            with ((pre ++ L ++ old ++ [dq]) ++ post)
            by (now rewrite <- !app_assoc).
          now rewrite drop_app_add'. }
      apply Huniq in Hocc. rewrite !length_app in Hocc. cbn [length] in Hocc. lia. }
  rewrite app_nil_r in Hpost.
  rewrite replace_all_prefix.
  - now rewrite Hstep, Hpost.
  - intros i Hi. apply Hfail. intros Hp.
    assert (Hocc : occurs_at L (pre ++ L ++ old ++ dq :: post) i).
    { split; [|exact Hp]. rewrite length_app. lia. }
    apply Huniq in Hocc. lia.
Qed.

Lemma set_pelvis_pos_single config pre old post :
  Forall (fun c => c <> dq) old ->
  (forall i, occurs_at (anchor_pos_open []) (pre ++ anchor_pos_open [] ++ old ++ dq :: post) i ->
             i = length pre) ->
  set_pelvis_pos [] config (pre ++ anchor_pos_open [] ++ old ++ dq :: post)
  = pre ++ anchor_pos_open [] ++ pos_of config ++ dq :: post.
Proof.
  intros Hold Huniq.
  pose proof (set_pelvis_pos_step [] config old post Hold) as Hstep.
  rewrite !set_pelvis_pos_eq in *.
  apply replace_all_single with (old := old).
  - apply exec_pelvis_pos_fail.
  - exact Hstep.
  - exact Huniq.
  - apply anchor_pos_open_not_nil.
Qed.

(** Claim C5. With exactly one spawn config the generator succeeds on every
    fetched template; its result differs from the template only in the
    values of position attributes that directly follow the name of a primary
    anchor tag, which have become the coordinates of the config; and where
    the template has a single such anchor opener, the result is the template
    with the value of that one attribute replaced and every other unit kept. *)
Theorem single_config_rewrites_position_only status xmlContent config :
  exists out,
    generateMultiRobotXML Number_toString (Response true status xmlContent) [config] = Ok out
    /\ only_pos_rewritten (pos_of config) xmlContent out
    /\ forall pre old post,
         xmlContent = pre ++ anchor_pos_open [] ++ old ++ dq :: post ->
         Forall (fun c => c <> dq) old ->
         (forall i, occurs_at (anchor_pos_open []) xmlContent i -> i = length pre) ->
         out = pre ++ anchor_pos_open [] ++ pos_of config ++ dq :: post.
Proof.
  eexists. split; [reflexivity|]. split; [apply set_pelvis_pos_frame|].
  intros pre old post -> Hold Huniq. now apply set_pelvis_pos_single.
Qed.

End PosFacts.

Lemma occurs_at_offsets needle s i :
  occurs_at needle s i -> i ∈ offsets_from needle s 0.
Proof.
  intros [Hi Hp].
  enough (H : forall k, k + i ∈ offsets_from needle s k) by apply (H 0).
  revert i Hi Hp. induction s as [|c s IH]; intros i Hi Hp k.
  - cbn in Hi. assert (i = 0) as -> by lia. cbn [offsets_from drop] in *.
    unfold startsWith. rewrite bool_decide_eq_true_2 by exact Hp.
    rewrite Nat.add_0_r. set_solver.
  - destruct i as [|i].
    + cbn [offsets_from]. rewrite drop_0 in Hp.
      unfold startsWith. rewrite bool_decide_eq_true_2 by exact Hp.
      rewrite Nat.add_0_r. set_solver.
    + cbn [offsets_from]. apply elem_of_app. right.
      replace (k + S i) with (S k + i) by lia.
      apply IH; [cbn in Hi; lia | exact Hp].
Qed.

Lemma single_config_rewrites_position_only_witness :
  generateMultiRobotXML show_int (Response true 200 template) [config 1 2 3]
  = Ok (xml ("<mujoco><worldbody>"
       +:+ "<body name='pelvis' pos='1 2 3'>"
       +:+ "<freejoint name='floating_base_joint'/>"
       +:+ "<geom name='pelvis_geom' class='visual'/>"
       +:+ "<site name='imu'/>"
       +:+ "<body name='left_leg' pos='0 0 -0.1'>"
       +:+ "<joint name='left_hip' axis='0 1 0'/>"
       +:+ "<geom class='col' name='leg_geom'/>"
       +:+ "</body>"
       +:+ "</body>"
       +:+ "</worldbody>"
       +:+ "<actuator>"
       +:+ "<motor name='left_hip' joint='left_hip'/>"
       +:+ "</actuator></mujoco>")).
Proof.
  destruct (single_config_rewrites_position_only show_int 200 template (config 1 2 3))
    as (out & Hout & _ & Hshape).
  rewrite Hout. f_equal.
  rewrite (Hshape (xml "<mujoco><worldbody>") (lit "0 0 0.8") (drop 52 template)).
  - vm_compute. reflexivity.
  - vm_compute. reflexivity.
  - repeat constructor; discriminate.
  - intros i Hi. apply occurs_at_offsets in Hi.
    vm_compute in Hi. apply list_elem_of_singleton in Hi. exact Hi.
Defined.

End PositionFacts.

(* ===================================================================== *)
(** ** Facts on the patterns of the generator                            *)
(* ===================================================================== *)

Module PatternFacts.
Import JS Regex Generator RegexFacts.

Lemma snoc_cases {A} (l : list A) : l = [] \/ exists l' x, l = l' ++ [x].
Proof.
  induction l as [| a l IH]; [now left|]. right.
  destruct IH as [-> | (l' & x & ->)]; [exists [], a | exists (a :: l'), x]; reflexivity.
Qed.

(** If [P ++ z] and [y ++ g :: t] are the same text and [g] does not occur in
    [P], then [P] lies within [y]. *)
Lemma prefix_within {A} (P z y t : list A) (g : A) :
  P ++ z = y ++ g :: t -> g ∉ P -> exists y', y = P ++ y'.
Proof.
  revert y. induction P as [| c P IH]; intros y E Hg; [now exists y|].
  destruct y as [| d y]; cbn [app] in E.
  - injection E as -> _. exfalso. apply Hg. left.
  - injection E as -> E. destruct (IH y E) as (y' & ->).
    + intros H. apply Hg. now right.
    + now exists y'.
Qed.

Section MatcherSteps.
Context {R : Type}.
Implicit Types (k : text -> captures -> option R) (s : text).

Lemma mt_Seq r1 r2 s caps k :
  mt (Seq r1 r2) s caps k = mt r1 s caps (fun s' caps' => mt r2 s' caps' k).
Proof. reflexivity. Qed.

Lemma mt_Group n r s caps k :
  mt (Group n r) s caps k
  = mt r s caps (fun s' caps' => k s' (<[n := take (length s - length s') s]> caps')).
Proof. reflexivity. Qed.

Lemma mt_Many p s caps k : mt (Many p) s caps k = many p s (fun s' => k s' caps).
Proof. reflexivity. Qed.

Lemma mt_Chr c s caps k : mt (Chr c) (c :: s) caps k = k s caps.
Proof. cbn [mt]. now rewrite Ascii.eqb_refl. Qed.

Lemma mt_Opt_Some r s caps k res :
  mt (Opt r) s caps k = Some res -> mt r s caps k = Some res \/ k s caps = Some res.
Proof. cbn [mt]. destruct (mt r s caps k); [intros [= <-]; now left | now right]. Qed.

Lemma mt_Opt_l r s caps k res :
  mt r s caps k = Some res -> mt (Opt r) s caps k = Some res.
Proof. cbn [mt]. now intros ->. Qed.

Lemma mt_Opt_r r s caps k :
  mt r s caps k = None -> mt (Opt r) s caps k = k s caps.
Proof. cbn [mt]. now intros ->. Qed.

Lemma mt_Many_Some p s caps k res :
  mt (Many p) s caps k = Some res ->
  exists a b, s = a ++ b /\ Forall (fun c => p c = true) a /\ k b caps = Some res.
Proof. rewrite mt_Many. apply many_Some. Qed.

Lemma mt_Many1_Some p s caps k res :
  mt (Many1 p) s caps k = Some res ->
  exists x w s', s = x ++ w :: s' /\ Forall (fun c => p c = true) (x ++ [w])
                 /\ k s' caps = Some res.
Proof.
  cbn [mt]. destruct s as [| c s]; [discriminate|].
  destruct (p c) eqn:Hc; [|discriminate].
  intros H. apply many_Some in H as (a & b & -> & Ha & H).
  destruct (snoc_cases a) as [-> | (a' & w & ->)].
  - exists [], c, b. split; [reflexivity|]. split; [|exact H].
    repeat constructor. exact Hc.
  - exists (c :: a'), w, b. split; [now rewrite <- !app_assoc|]. split; [|exact H].
    cbn [app]. now constructor.
Qed.

(** [\s+] followed by a continuation, on white space [ws] before a text that
    begins off white space. *)
Lemma mt_spaces ws b caps k r :
  ws <> [] -> Forall (fun c => is_space c = true) ws -> stops is_space b ->
  k b caps = Some r ->
  mt (Many1 is_space) (ws ++ b) caps k = Some r.
Proof.
  intros Hne Hws Hb Hk. destruct ws as [| w ws]; [contradiction|].
  inversion Hws as [| ? ? Hw Hws']; subst. cbn [app mt]. rewrite Hw.
  now apply many_greedy.
Qed.

End MatcherSteps.

Lemma take_len_minus {A} (s m post : list A) :
  s = m ++ post -> take (length s - length post) s = m.
Proof. intros ->. apply take_app_minus. Qed.

Ltac norm_app :=
  repeat first [progress cbn [app] | rewrite <- app_assoc]; reflexivity.

(** *** The rename pattern *)

Lemma exec_re_named tag ws n post :
  ws <> [] -> Forall (fun c => is_space c = true) ws ->
  Forall (fun c => c <> dq) n ->
  exec (re_named tag) (lit tag ++ ws ++ xml "name='" ++ n ++ dq :: post)
  = Some (lit tag ++ ws ++ xml "name='" ++ n ++ [dq], <[1 := n]> ∅).
Proof.
  intros Hne Hws Hn. unfold exec, re_named.
  remember (xml "name='") as L eqn:HL.
  rewrite mt_Seq, mt_Lit_app, mt_Seq. apply mt_spaces; [exact Hne | exact Hws | |].
  { subst L. reflexivity. }
  rewrite mt_Seq, mt_Lit_app, mt_Seq, mt_Group, mt_Many.
  apply many_greedy; [now apply Forall_is_not | | reflexivity].
  rewrite mt_Chr. f_equal. f_equal.
  - apply take_len_minus. norm_app.
  - f_equal. apply take_len_minus. norm_app.
Qed.

(** A match of the rename pattern begins with the tag opener, white space
    and the opener of the name attribute. *)
Lemma exec_re_named_inv tag s res :
  exec (re_named tag) s = Some res ->
  exists x w y, s = lit tag ++ x ++ w :: xml "name='" ++ y
                /\ Forall (fun c => is_space c = true) (x ++ [w]).
Proof.
  unfold exec, re_named. remember (xml "name='") as L eqn:HL.
  rewrite mt_Seq. intros H.
  apply mt_Lit_Some in H as (s1 & -> & H). rewrite mt_Seq in H.
  apply mt_Many1_Some in H as (x & w & s2 & -> & Hx & H). rewrite mt_Seq in H.
  apply mt_Lit_Some in H as (y & -> & _).
  now exists x, w, y.
Qed.

Lemma space_not_gt c : is_space c = true -> c <> ">"%char.
Proof. intros H ->. discriminate H. Qed.

Lemma attr_open_spaces attr :
  attr_ok attr -> Forall (fun c => is_space c = false /\ c <> ">"%char) (attr_open attr).
Proof.
  intros H. unfold attr_open. apply Forall_app. split; [exact H|].
  repeat constructor; discriminate.
Qed.

Lemma attr_open_stops attr s : attr_ok attr -> stops is_space (attr_open attr ++ s).
Proof.
  intros H. apply attr_open_spaces in H. unfold attr_open in *.
  destruct (lit attr) as [| c l]; [reflexivity|].
  inversion H as [| ? ? [Hc _] _]. exact Hc.
Qed.

Lemma attr_open_no_gt attr x w :
  attr_ok attr -> Forall (fun c => c <> ">"%char) x -> is_space w = true ->
  ">"%char ∉ x ++ w :: attr_open attr.
Proof.
  intros H Hx Hw Hin. apply elem_of_app in Hin as [Hin | Hin].
  - rewrite Forall_forall in Hx. now apply (Hx _ Hin).
  - apply elem_of_cons in Hin as [E | Hin]; [subst w; discriminate Hw|].
    apply attr_open_spaces in H. rewrite Forall_forall in H.
    now apply (H _ Hin).
Qed.

Section AttrSteps.
Context {R : Type}.

(** White space and the opener of [attr] cannot be matched inside a region
    free of them that ends at a [>]. *)
Lemma spaces_attr_none attr r' x0 y tl caps
    (g : text -> captures -> captures) (k : text -> captures -> option R) :
  attr_ok attr -> no_attr attr (x0 ++ y) ->
  mt (Many1 is_space) (y ++ ">"%char :: tl) caps
     (fun s' caps' => mt (Seq (Lit (attr_open attr)) r') s' (g s' caps') k) = None.
Proof.
  intros Hattr Hno.
  destruct (mt (Many1 is_space) _ _ _) as [res|] eqn:E; [exfalso | reflexivity].
  apply mt_Many1_Some in E as (x1 & w1 & s1 & Es & Hsp & HK).
  rewrite mt_Seq in HK. apply mt_Lit_Some in HK as (y1 & -> & _).
  apply Forall_app in Hsp as [Hx1 Hw1]. inversion Hw1 as [| ? ? Hw _]; subst.
  destruct (prefix_within (x1 ++ w1 :: attr_open attr) y1 y tl ">"%char) as (y' & ->).
  - rewrite Es, <- app_assoc. reflexivity.
  - apply attr_open_no_gt; [exact Hattr | | exact Hw].
    eapply Forall_impl; [exact Hx1|]. intros c. apply space_not_gt.
  - specialize (Hno (x0 ++ x1) w1 y'). rewrite Hw in Hno.
    discriminate Hno. now rewrite <- !app_assoc.
Qed.

End AttrSteps.

(** *** The attribute pattern *)

Lemma exec_re_attr tag attr ws before v rem tl :
  attr_ok attr ->
  ws <> [] -> Forall (fun c => is_space c = true) ws ->
  attrs_before before -> Forall (fun c => c <> ">"%char) before ->
  Forall (fun c => c <> dq) v ->
  Forall (fun c => c <> ">"%char) (v ++ dq :: rem) ->
  no_attr attr (attr_open attr ++ v ++ dq :: rem) ->
  exec (re_attr tag attr)
       (lit tag ++ ws ++ before ++ attr_open attr ++ v ++ dq :: rem ++ ">"%char :: tl)
  = Some (lit tag ++ ws ++ before ++ attr_open attr ++ v ++ [dq],
          <[2 := v]> (before_capture before)).
Proof.
  intros Hattr Hne Hws Hbef Hbgt Hv Hgt Hno. unfold exec, re_attr.
  fold (attr_open attr). remember (attr_open attr) as L eqn:HL.
  rewrite mt_Seq, mt_Lit_app, mt_Seq.
  destruct Hbef as [-> | (a & A & w & -> & Ha & Hw)].
  - (* the name is the first attribute *)
    cbn [app]. apply mt_spaces; [exact Hne | exact Hws | subst L; now apply attr_open_stops |].
    rewrite mt_Seq. rewrite mt_Opt_r.
    + rewrite mt_Seq, mt_Lit_app, mt_Seq, mt_Group, mt_Many.
      apply many_greedy; [now apply Forall_is_not | | reflexivity].
      rewrite mt_Chr. f_equal. f_equal.
      * apply take_len_minus. norm_app.
      * f_equal. apply take_len_minus. norm_app.
    + rewrite mt_Group, mt_Seq, mt_Many. cbv beta.
      replace (L ++ v ++ dq :: rem ++ ">"%char :: tl)
        with ((L ++ v ++ dq :: rem) ++ ">"%char :: tl)
        by (rewrite <- !app_assoc; reflexivity).
      apply many_none.
      * apply Forall_app. split.
        -- subst L. apply attr_open_spaces in Hattr.
           eapply Forall_impl; [exact Hattr|]. intros c [_ Hc]. now apply is_not_true.
        -- now apply Forall_is_not.
      * reflexivity.
      * intros x y E. subst L.
        apply (spaces_attr_none attr _ x y tl); [exact Hattr|]. now rewrite <- E.
  - (* attributes stand before the name *)
    apply mt_spaces; [exact Hne | exact Hws | exact Ha |].
    rewrite mt_Seq. apply mt_Opt_l. rewrite mt_Group, mt_Seq, mt_Many. cbv beta.
    replace ((a :: A ++ [w]) ++ L ++ v ++ dq :: rem ++ ">"%char :: tl)
      with ((a :: A) ++ (w :: L ++ v ++ dq :: rem) ++ ">"%char :: tl)
      by (cbn [app]; rewrite <- !app_assoc; reflexivity).
    apply many_backtrack.
    + apply Forall_is_not.
      replace ((a :: A) ++ w :: L ++ v ++ dq :: rem)
        with ((a :: A ++ [w]) ++ L ++ v ++ dq :: rem)
        by (cbn [app]; rewrite <- !app_assoc; reflexivity).
      apply Forall_app. split; [exact Hbgt|]. apply Forall_app. split; [|exact Hgt].
      subst L. apply attr_open_spaces in Hattr.
      eapply Forall_impl; [exact Hattr|]. now intros c [_ Hc].
    + reflexivity.
    + change ((w :: L ++ v ++ dq :: rem) ++ ">"%char :: tl)
        with ([w] ++ (L ++ v ++ dq :: rem) ++ ">"%char :: tl).
      apply mt_spaces; [discriminate | now repeat constructor | |].
      { rewrite <- app_assoc. subst L. now apply attr_open_stops. }
      rewrite <- !app_assoc. cbn [app].
      rewrite mt_Seq, mt_Lit_app, mt_Seq, mt_Group, mt_Many.
      apply many_greedy; [now apply Forall_is_not | | reflexivity].
      rewrite mt_Chr. f_equal. f_equal.
      * apply take_len_minus. norm_app.
      * f_equal.
        -- apply take_len_minus. norm_app.
        -- unfold before_capture. f_equal. apply take_len_minus. norm_app.
    + intros x y E Hx. destruct x as [| c x]; [contradiction|].
      cbn [app] in E. injection E as <- E. subst L.
      apply (spaces_attr_none attr _ x y tl); [exact Hattr|]. now rewrite <- E.
Qed.

Lemma app_eq_app_cases {A} (x1 y1 x2 y2 : list A) :
  x1 ++ y1 = x2 ++ y2 ->
  exists l, (x1 = x2 ++ l /\ y2 = l ++ y1) \/ (x2 = x1 ++ l /\ y1 = l ++ y2).
Proof.
  revert x2. induction x1 as [| a x1 IH]; intros x2 E.
  - exists x2. right. auto.
  - destruct x2 as [| b x2].
    + exists (a :: x1). left. auto.
    + cbn [app] in E. injection E as <- E. destruct (IH x2 E) as (l & [[-> ->] | [-> ->]]).
      * exists l. left. auto.
      * exists l. right. auto.
Qed.

Lemma snoc_eq_app {A} (x l1 l2 : list A) (w : A) :
  x ++ [w] = l1 ++ l2 -> l2 = [] \/ exists l', l2 = l' ++ [w] /\ x = l1 ++ l'.
Proof.
  intros E. destruct (snoc_cases l2) as [-> | (l' & v & ->)]; [now left | right].
  rewrite app_assoc in E. apply app_inj_tail in E as [-> ->]. now exists l'.
Qed.

(** Runs of [p] that end before a unit off [p] are the same run. *)
Lemma run_unique {A} (p : A -> bool) X Y c d (s1 s2 : list A) :
  X ++ c :: s1 = Y ++ d :: s2 ->
  Forall (fun a => p a = true) X -> Forall (fun a => p a = true) Y ->
  p c = false -> p d = false -> X = Y /\ c :: s1 = d :: s2.
Proof.
  revert Y. induction X as [| a X IH]; intros Y E HX HY Hc Hd.
  - destruct Y as [| b Y]; [auto|]. cbn [app] in E. injection E as -> _.
    inversion HY; congruence.
  - destruct Y as [| b Y]; cbn [app] in E.
    + injection E as -> _. inversion HX; congruence.
    + injection E as -> E. inversion HX; inversion HY; subst.
      destruct (IH Y E) as [-> ?]; auto.
Qed.

Lemma attr_ok_name : attr_ok "name".
Proof. repeat constructor; discriminate. Qed.

Lemma attr_ok_joint : attr_ok "joint".
Proof. repeat constructor; discriminate. Qed.

Lemma attr_open_name : attr_open "name" = xml "name='".
Proof. reflexivity. Qed.

(** A match of the attribute pattern begins with the tag opener and holds
    white space followed by the opener of the attribute, with no [>] in
    between. *)
Lemma exec_re_attr_inv tag attr s res :
  exec (re_attr tag attr) s = Some res ->
  exists x w y, s = lit tag ++ x ++ w :: attr_open attr ++ y
                /\ is_space w = true /\ Forall (fun c => c <> ">"%char) x.
Proof.
  unfold exec, re_attr. fold (attr_open attr). remember (attr_open attr) as L eqn:HL.
  rewrite mt_Seq. intros H.
  apply mt_Lit_Some in H as (s1 & -> & H). rewrite mt_Seq in H.
  apply mt_Many1_Some in H as (x1 & w1 & s2 & -> & Hx1 & H). rewrite mt_Seq in H.
  apply Forall_app in Hx1 as [Hx1 Hw1]. inversion Hw1 as [| ? ? Hw1' _]; subst.
  assert (Hx1' : Forall (fun c => c <> ">"%char) x1).
  { eapply Forall_impl; [exact Hx1|]. intros c. apply space_not_gt. }
  apply mt_Opt_Some in H as [H | H].
  - rewrite mt_Group, mt_Seq in H.
    apply mt_Many_Some in H as (a & b & -> & Ha & H).
    apply mt_Many1_Some in H as (x2 & w2 & s3 & -> & Hx2 & H). rewrite mt_Seq in H.
    apply mt_Lit_Some in H as (y & -> & _).
    apply Forall_app in Hx2 as [Hx2 Hw2]. inversion Hw2 as [| ? ? Hw2' _]; subst.
    exists (x1 ++ w1 :: a ++ x2), w2, y. split; [norm_app|]. split; [exact Hw2'|].
    apply Forall_app. split; [exact Hx1'|]. constructor; [now apply space_not_gt|].
    apply Forall_app. split.
    + eapply Forall_impl; [exact Ha|]. intros c. apply is_not_true.
    + eapply Forall_impl; [exact Hx2|]. intros c. apply space_not_gt.
  - apply mt_Lit_Some in H as (y & -> & _).
    exists x1, w1, y. auto.
Qed.

(** No attribute [attr] before the first [>]: the attribute pattern does not
    match. *)
Lemma exec_re_attr_none tag attr R tl :
  attr_ok attr -> no_attr attr R ->
  exec (re_attr tag attr) (lit tag ++ R ++ ">"%char :: tl) = None.
Proof.
  intros Hattr Hno.
  destruct (exec _ _) as [res|] eqn:E; [exfalso | reflexivity].
  apply exec_re_attr_inv in E as (x & w & y & E & Hw & Hx).
  apply app_inv_head in E.
  destruct (prefix_within (x ++ w :: attr_open attr) y R tl ">"%char) as (y' & ->).
  - rewrite E. norm_app.
  - now apply attr_open_no_gt.
  - specialize (Hno x w y'). rewrite Hw in Hno. discriminate Hno. norm_app.
Qed.

Lemma exec_re_named_none tag R tl :
  no_attr "name" R -> exec (re_named tag) (lit tag ++ R ++ ">"%char :: tl) = None.
Proof.
  intros Hno.
  destruct (exec _ _) as [res|] eqn:E; [exfalso | reflexivity].
  apply exec_re_named_inv in E as (x & w & y & E & Hx).
  apply app_inv_head in E. rewrite <- attr_open_name in E.
  apply Forall_app in Hx as [Hx Hw]. inversion Hw as [| ? ? Hw' _]; subst.
  destruct (prefix_within (x ++ w :: attr_open "name") y R tl ">"%char) as (y' & ->).
  - rewrite E. norm_app.
  - apply attr_open_no_gt; [apply attr_ok_name | | exact Hw'].
    eapply Forall_impl; [exact Hx|]. intros c. apply space_not_gt.
  - specialize (Hno x w y'). rewrite Hw' in Hno. discriminate Hno. norm_app.
Qed.

(** The name is not the first attribute: the rename pattern does not
    match. *)
Lemma exec_re_named_later tag gap before z :
  Forall (fun c => is_space c = true) gap ->
  attrs_before before -> before <> [] ->
  ~ xml "name='" `prefix_of` before ->
  exec (re_named tag) (lit tag ++ gap ++ before ++ z) = None.
Proof.
  intros Hgap [-> | (a & A & w & -> & Ha & Hw)] Hne Hpre; [contradiction|].
  destruct (exec _ _) as [res|] eqn:E; [exfalso | reflexivity].
  apply exec_re_named_inv in E as (x & w' & y & E & Hx).
  apply app_inv_head in E.
  assert (E' : gap ++ a :: (A ++ [w]) ++ z
               = (x ++ [w']) ++ "n"%char :: xml "ame='" ++ y).
  { etransitivity; [exact E|]. rewrite <- app_assoc. reflexivity. }
  apply run_unique with (p := is_space) in E' as [_ E']; auto.
  change ("n"%char :: xml "ame='" ++ y) with (xml "name='" ++ y) in E'.
  change (a :: (A ++ [w]) ++ z) with ((a :: A ++ [w]) ++ z) in E'.
  symmetry in E'. apply app_eq_app_cases in E' as (l & [[E1 E2] | [E1 E2]]).
  - assert (Hin : w ∈ xml "name='").
    { rewrite E1. apply elem_of_app. left. apply elem_of_cons. right.
      apply elem_of_app. right. left. }
    revert Hw. clear -Hin.
    repeat (apply elem_of_cons in Hin as [-> | Hin]; [discriminate|]).
    inversion Hin.
  - apply Hpre. exists l. exact E1.
Qed.

Lemma tag_pattern_Lit l r : tag_pattern (Seq (Lit ("<"%char :: l)) r).
Proof.
  split.
  - apply exec_Lit_fail. intros [x Hx]. discriminate Hx.
  - intros c s Hc. apply exec_Lit_fail. intros [x Hx]. cbn [app] in Hx. congruence.
Qed.

Lemma tag_pattern_named tag l : lit tag = "<"%char :: l -> tag_pattern (re_named tag).
Proof. intros H. unfold re_named. rewrite H. apply tag_pattern_Lit. Qed.

Lemma tag_pattern_attr tag attr l :
  lit tag = "<"%char :: l -> tag_pattern (re_attr tag attr).
Proof. intros H. unfold re_attr. rewrite H. apply tag_pattern_Lit. Qed.

Lemma tag_pattern_pos prefix : tag_pattern (re_pelvis_pos prefix).
Proof. unfold re_pelvis_pos. apply tag_pattern_Lit. Qed.

Section Passes.
Variables (r : regex) (f : text -> captures -> text).
Hypothesis Hr : tag_pattern r.

(** Units other than [<] are copied. *)
Lemma replace_all_inside b rest :
  Forall (fun c => c <> "<"%char) b ->
  replace_all r f (b ++ rest) = b ++ replace_all r f rest.
Proof using Hr.
  induction 1 as [| c b Hc Hb IH]; [reflexivity|].
  cbn [app]. rewrite replace_all_copy by (now apply Hr). now rewrite IH.
Qed.

Lemma replace_all_end : replace_all r f [] = [].
Proof using Hr. apply replace_all_nil, Hr. Qed.

(** A segment at which the pattern does not match is copied. *)
Lemma replace_all_miss t rest :
  segment t -> exec r (t ++ rest) = None ->
  replace_all r f (t ++ rest) = t ++ replace_all r f rest.
Proof using Hr.
  intros (b & -> & Hb) H. cbn [app] in *. rewrite replace_all_copy by exact H.
  now rewrite replace_all_inside.
Qed.

(** A match at the head of a segment is replaced and the rest of the segment
    is copied. *)
Lemma replace_all_hit m tl rest caps :
  m <> [] -> Forall (fun c => c <> "<"%char) tl ->
  exec r (m ++ tl ++ rest) = Some (m, caps) ->
  replace_all r f (m ++ tl ++ rest) = f m caps ++ tl ++ replace_all r f rest.
Proof using Hr.
  intros Hm Htl H. rewrite (replace_all_step r f m (tl ++ rest) caps Hm H).
  now rewrite replace_all_inside.
Qed.

End Passes.

End PatternFacts.

(* ===================================================================== *)
(** ** The rename of a clone, segment by segment                         *)
(* ===================================================================== *)

Module MarkupFacts.
Import JS Regex Generator Markup RegexFacts PositionFacts PatternFacts.

Lemma render_cons it doc : render (it :: doc) = render_item it ++ render doc.
Proof. reflexivity. Qed.

Lemma opener_lt T :
  exists l, lit (opener T) = "<"%char :: l
            /\ Forall (fun c => c <> "<"%char /\ is_space c = false) l.
Proof.
  destruct T; eexists; (split; [reflexivity|]); repeat constructor; discriminate.
Qed.

Lemma opener_mismatch T T0 r z :
  T <> T0 -> exec (Seq (Lit (lit (opener T0))) r) (lit (opener T) ++ z) = None.
Proof.
  intros H. apply exec_Lit_fail. intros [k Hk].
  destruct T, T0; try contradiction; discriminate Hk.
Qed.

Lemma space_not_lt c : is_space c = true -> c <> "<"%char.
Proof. intros H ->. discriminate H. Qed.

Lemma Forall_space_lt l :
  Forall (fun c => is_space c = true) l -> Forall (fun c => c <> "<"%char) l.
Proof. intros H. eapply Forall_impl; [exact H|]. intros c. apply space_not_lt. Qed.

Lemma Forall_plain_lt l : Forall plain_char l -> Forall (fun c => c <> "<"%char) l.
Proof. intros H. eapply Forall_impl; [exact H|]. now intros c [? ?]. Qed.

Lemma Forall_plain_gt l : Forall plain_char l -> Forall (fun c => c <> ">"%char) l.
Proof. intros H. eapply Forall_impl; [exact H|]. now intros c [? ?]. Qed.

Lemma Forall_value_plain l : Forall value_char l -> Forall plain_char l.
Proof. intros H. eapply Forall_impl; [exact H|]. now intros c [? ?]. Qed.

Lemma Forall_value_dq l : Forall value_char l -> Forall (fun c => c <> dq) l.
Proof. intros H. eapply Forall_impl; [exact H|]. now intros c [? ?]. Qed.

Lemma Forall_prefix_value p :
  Forall (fun c => value_char c /\ is_space c = false) p -> Forall value_char p.
Proof. intros H. eapply Forall_impl; [exact H|]. now intros c [? ?]. Qed.

Lemma pos_attr_plain pos :
  (forall v, pos = Some v -> Forall value_char v) -> Forall plain_char (pos_attr pos).
Proof.
  intros H. destruct pos as [v|]; [|constructor]. cbn [pos_attr].
  apply Forall_app. split; [repeat constructor; discriminate|].
  apply Forall_app. split; [apply Forall_value_plain; auto|].
  repeat constructor; discriminate.
Qed.

(** The text of a named tag behind its name. *)
Lemma named_rest_lt x :
  wf_named x ->
  Forall (fun c => c <> "<"%char) (pos_attr (n_pos x) ++ n_attrs x ++ ">"%char :: n_tail x).
Proof.
  intros H. apply Forall_app. split.
  { apply Forall_plain_lt, pos_attr_plain, H. }
  apply Forall_app. split; [apply Forall_plain_lt, H|].
  constructor; [discriminate | apply H].
Qed.

Lemma segment_opener T b :
  Forall (fun c => c <> "<"%char) b -> segment (lit (opener T) ++ b).
Proof.
  intros Hb. destruct (opener_lt T) as (l & -> & Hl). exists (l ++ b).
  split; [reflexivity|]. apply Forall_app. split; [|exact Hb].
  eapply Forall_impl; [exact Hl|]. now intros c [? _].
Qed.

Lemma segment_render it : wf_item it -> segment (render_item it).
Proof.
  destruct it as [x | T region tail | t]; cbn [wf_item render_item].
  - intros H. apply segment_opener.
    apply Forall_app. split; [apply Forall_space_lt, H|].
    apply Forall_app. split; [apply Forall_plain_lt, H|].
    apply Forall_app. split; [repeat constructor; discriminate|].
    apply Forall_app. split; [apply Forall_plain_lt, Forall_value_plain, H|].
    constructor; [discriminate|]. now apply named_rest_lt.
  - intros (HR & _ & Htl). apply segment_opener.
    apply Forall_app. split; [exact HR|]. constructor; [discriminate | exact Htl].
  - now intros [H _].
Qed.

Lemma at_tag_segment t rest : segment t -> at_tag (t ++ rest).
Proof. intros (b & -> & _). reflexivity. Qed.

Lemma at_tag_render doc : Forall wf_item doc -> at_tag (render doc).
Proof.
  intros [| it doc' Hit _]; [exact I|]. rewrite render_cons.
  now apply at_tag_segment, segment_render.
Qed.

(** A segment that opens a tag when followed by other segments opens it by
    itself. *)
Lemma opens_app T t rest :
  segment t -> at_tag rest -> opens (opener T) (t ++ rest) -> opens (opener T) t.
Proof.
  intros (b & -> & Hb) Hrest (w & y & E & Hw). unfold opens.
  destruct (opener_lt T) as (l & El & Hl). rewrite El in *.
  assert (E' : ("<"%char :: b) ++ rest = ("<"%char :: l ++ [w]) ++ y).
  { rewrite E. norm_app. }
  apply app_eq_app_cases in E' as (k & [[E1 E2] | [E1 E2]]).
  - exists w, k. split; [|exact Hw]. rewrite E1. norm_app.
  - destruct k as [| c k].
    + exists w, []. split; [|exact Hw]. rewrite app_nil_r in E1. rewrite <- E1. norm_app.
    + exfalso. subst rest. cbn in Hrest. subst c.
      cbn [app] in E1. injection E1 as E1.
      assert (Hin : "<"%char ∈ l ++ [w]).
      { rewrite E1. apply elem_of_app. right. left. }
      apply elem_of_app in Hin as [Hin | Hin].
      * rewrite Forall_forall in Hl. now destruct (Hl _ Hin).
      * apply list_elem_of_singleton in Hin. subst w. discriminate Hw.
Qed.

Lemma opens_spaces tag x w y :
  Forall (fun c => is_space c = true) (x ++ [w]) -> opens tag (lit tag ++ x ++ w :: y).
Proof.
  intros H. destruct x as [| c x]; cbn [app] in *.
  - exists w, y. split; [reflexivity|]. now inversion H.
  - exists c, (x ++ w :: y). split; [reflexivity|]. now inversion H.
Qed.

(** No occurrence of white space and the opener of [attr] arises from a
    prefix free of white space. *)
Lemma no_attr_prefixed attr p n rest :
  attr_ok attr -> Forall (fun c => is_space c = false) p ->
  no_attr attr (attr_open attr ++ n ++ rest) ->
  no_attr attr (attr_open attr ++ p ++ n ++ rest).
Proof.
  intros Hattr Hp Hno x w y E.
  assert (Hlp : Forall (fun c => is_space c = false) (attr_open attr ++ p)).
  { apply Forall_app. split; [|exact Hp]. apply attr_open_spaces in Hattr.
    eapply Forall_impl; [exact Hattr|]. now intros c [? _]. }
  assert (E' : (attr_open attr ++ p) ++ n ++ rest = (x ++ [w]) ++ attr_open attr ++ y).
  { rewrite <- app_assoc, E. norm_app. }
  apply app_eq_app_cases in E' as (l & [[E1 E2] | [E1 E2]]).
  - rewrite Forall_forall in Hlp. apply Hlp. rewrite E1.
    apply elem_of_app. left. apply elem_of_app. right. left.
  - pose proof (snoc_eq_app _ _ _ _ E1) as [-> | (l' & -> & ->)].
    + rewrite app_nil_r in E1. rewrite Forall_forall in Hlp. apply Hlp.
      rewrite <- E1. apply elem_of_app. right. left.
    + apply (Hno (attr_open attr ++ l') w y). rewrite E2. norm_app.
Qed.

Lemma wf_renamed p x : prefix_ok p -> wf_named x -> wf_named (renamed p x).
Proof.
  intros [_ Hp] H. constructor; cbn [renamed n_gap n_before n_name n_pos n_attrs n_tail].
  - discriminate.
  - repeat constructor.
  - apply (wf_before _ H).
  - apply (wf_before_chars _ H).
  - apply (wf_before_first _ H).
  - apply Forall_app. split; [now apply Forall_prefix_value | apply (wf_name _ H)].
  - apply (wf_pos _ H).
  - apply (wf_no_pos _ H).
  - apply (wf_attrs _ H).
  - rewrite <- app_assoc. rewrite <- attr_open_name.
    apply no_attr_prefixed; [apply attr_ok_name | | rewrite attr_open_name; apply H].
    eapply Forall_impl; [exact Hp|]. now intros c [_ ?].
  - apply (wf_tail _ H).
Qed.

Lemma caps_lookup_eq (caps : captures) n v : (<[n := v]> caps) !! n = Some v.
Proof. unfold captures in *. apply lookup_insert_eq. Qed.

Lemma caps_lookup_ne (caps : captures) n m v :
  n <> m -> (<[n := v]> caps) !! m = caps !! m.
Proof. unfold captures in *. apply lookup_insert_ne. Qed.

Lemma caps_lookup_empty n : (∅ : captures) !! n = None.
Proof. unfold captures in *. apply lookup_empty. Qed.

Lemma replace_all_hit' r f s m tl rest caps out :
  tag_pattern r -> s = m ++ tl ++ rest -> m <> [] ->
  Forall (fun c => c <> "<"%char) tl ->
  exec r (m ++ tl ++ rest) = Some (m, caps) ->
  out = f m caps ++ tl ->
  replace_all r f s = out ++ replace_all r f rest.
Proof.
  intros Hr -> Hm Htl H ->. rewrite (replace_all_hit r f Hr m tl rest caps Hm Htl H).
  now rewrite <- app_assoc.
Qed.

Lemma tag_pattern_named_opener T : tag_pattern (re_named (opener T)).
Proof. destruct (opener_lt T) as (l & El & _). eapply tag_pattern_named, El. Qed.

Lemma tag_pattern_attr_opener T attr : tag_pattern (re_attr (opener T) attr).
Proof. destruct (opener_lt T) as (l & El & _). eapply tag_pattern_attr, El. Qed.

Lemma opener_not_nil T z : lit (opener T) ++ z <> [].
Proof. destruct (opener_lt T) as (l & -> & _). discriminate. Qed.

(** *** The rename steps *)

Lemma pass_named T0 p it rest :
  wf_item it -> at_tag rest ->
  replace_all (re_named (opener T0)) (rename_cb (opener T0) p) (render_item it ++ rest)
  = render_item (step_named T0 p it)
    ++ replace_all (re_named (opener T0)) (rename_cb (opener T0) p) rest.
Proof.
  intros Hwf Hrest. pose proof (segment_render it Hwf) as Hseg.
  pose proof (tag_pattern_named_opener T0) as Hr.
  destruct it as [x | T region tail | t]; cbn [step_named].
  - destruct x as [T gap before name pos attrs tail].
    pose proof (named_rest_lt _ Hwf) as Hlt.
    destruct Hwf as [Hgne Hgap Hbef Hbch Hbf Hname Hpos Hnopos Hattrs Hlast Htail].
    cbn [n_tag n_gap n_before n_name n_pos n_attrs n_tail] in *.
    destruct (decide (T = T0)) as [-> | HT].
    + destruct before as [| a before].
      * rewrite bool_decide_eq_true_2 by auto.
        cbn [render_item renamed n_tag n_gap n_before n_name n_pos n_attrs n_tail].
        eapply (replace_all_hit' _ _ _
                  (lit (opener T0) ++ gap ++ xml "name='" ++ name ++ [dq])
                  (pos_attr pos ++ attrs ++ ">"%char :: tail) rest (<[1 := name]> ∅));
          [exact Hr | norm_app | apply opener_not_nil | exact Hlt | |].
        -- replace ((lit (opener T0) ++ gap ++ xml "name='" ++ name ++ [dq])
                     ++ (pos_attr pos ++ attrs ++ ">"%char :: tail) ++ rest)
             with (lit (opener T0) ++ gap ++ xml "name='" ++ name
                   ++ dq :: (pos_attr pos ++ attrs ++ ">"%char :: tail) ++ rest)
             by norm_app.
           apply exec_re_named; [exact Hgne | exact Hgap | now apply Forall_value_dq].
        -- unfold rename_cb. rewrite caps_lookup_eq. cbn [default].
           change (xml " name='") with (lit " " ++ xml "name='"). norm_app.
      * rewrite bool_decide_eq_false_2 by (intros [_ ?]; discriminate).
        apply replace_all_miss; [exact Hr | exact Hseg |].
        cbn [render_item n_tag n_gap n_before n_name n_pos n_attrs n_tail].
        rewrite <- !app_assoc. apply exec_re_named_later; auto.
    + rewrite bool_decide_eq_false_2 by (intros [? _]; contradiction).
      apply replace_all_miss; [exact Hr | exact Hseg |].
      cbn [render_item n_tag]. rewrite <- app_assoc. unfold re_named.
      now apply opener_mismatch.
  - apply replace_all_miss; [exact Hr | exact Hseg |].
    cbn [render_item]. destruct Hwf as (_ & Hno & _).
    destruct (decide (T = T0)) as [-> | HT].
    + rewrite <- !app_assoc. cbn [app]. now apply exec_re_named_none.
    + rewrite <- app_assoc. unfold re_named. now apply opener_mismatch.
  - apply replace_all_miss; [exact Hr | exact Hseg |].
    cbn [render_item]. destruct Hwf as [_ Hop].
    destruct (exec _ _) as [res|] eqn:E; [exfalso | reflexivity].
    apply exec_re_named_inv in E as (x & w & y & E & Hx).
    apply (Hop T0). apply (opens_app T0 t rest Hseg Hrest). rewrite E.
    now apply opens_spaces.
Qed.

Lemma exec_re_attr_opens tag attr s res :
  exec (re_attr tag attr) s = Some res -> opens tag s.
Proof.
  unfold exec, re_attr. rewrite mt_Seq. intros H.
  apply mt_Lit_Some in H as (s1 & -> & H). rewrite mt_Seq in H.
  apply mt_Many1_Some in H as (x1 & w1 & s2 & -> & Hx1 & _).
  now apply opens_spaces.
Qed.

Lemma before_capture_lookup before : default [] (before_capture before !! 1) = before.
Proof.
  destruct before as [| a before]; cbn [before_capture].
  - now rewrite caps_lookup_empty.
  - now rewrite caps_lookup_eq.
Qed.

(** *** The geom step *)

Lemma pass_geom p it rest :
  wf_item it -> at_tag rest ->
  replace_all (re_attr (opener Geom) "name") (guarded_cb (opener Geom) "name" p)
              (render_item it ++ rest)
  = render_item (step_geom p it)
    ++ replace_all (re_attr (opener Geom) "name") (guarded_cb (opener Geom) "name" p) rest.
Proof.
  intros Hwf Hrest. pose proof (segment_render it Hwf) as Hseg.
  pose proof (tag_pattern_attr_opener Geom "name") as Hr.
  destruct it as [x | T region tail | t]; cbn [step_geom].
  - destruct x as [T gap before name pos attrs tail].
    pose proof (named_rest_lt _ Hwf) as Hlt.
    destruct Hwf as [Hgne Hgap Hbef Hbch Hbf Hname Hpos Hnopos Hattrs Hlast Htail].
    cbn [n_tag n_gap n_before n_name n_pos n_attrs n_tail] in *.
    destruct (decide (T = Geom)) as [-> | HT].
    + rewrite bool_decide_eq_true_2 by reflexivity.
      assert (Hexec :
        exec (re_attr (opener Geom) "name")
             ((lit (opener Geom) ++ gap ++ before ++ attr_open "name" ++ name ++ [dq])
              ++ (pos_attr pos ++ attrs ++ ">"%char :: tail) ++ rest)
        = Some (lit (opener Geom) ++ gap ++ before ++ attr_open "name" ++ name ++ [dq],
                <[2 := name]> (before_capture before))).
      { replace ((lit (opener Geom) ++ gap ++ before ++ attr_open "name" ++ name ++ [dq])
                 ++ (pos_attr pos ++ attrs ++ ">"%char :: tail) ++ rest)
          with (lit (opener Geom) ++ gap ++ before ++ attr_open "name" ++ name
                ++ dq :: (pos_attr pos ++ attrs) ++ ">"%char :: (tail ++ rest))
          by norm_app.
        apply exec_re_attr;
          [apply attr_ok_name | exact Hgne | exact Hgap | exact Hbef
          | now apply Forall_plain_gt | now apply Forall_value_dq | | ].
        - apply Forall_app. split; [apply Forall_plain_gt, Forall_value_plain, Hname|].
          constructor; [discriminate|]. apply Forall_app. split.
          + now apply Forall_plain_gt, pos_attr_plain.
          + now apply Forall_plain_gt.
        - rewrite attr_open_name. exact Hlast. }
      eapply (replace_all_hit' _ _ _ _ _ rest _ _ Hr); [ | | exact Hlt | exact Hexec |].
      * cbn [render_item n_tag n_gap n_before n_name n_pos n_attrs n_tail].
        rewrite <- attr_open_name. norm_app.
      * apply opener_not_nil.
      * unfold guarded_cb. rewrite caps_lookup_eq. cbn [from_option id].
        destruct (startsWith p name).
        -- cbn [render_item n_tag n_gap n_before n_name n_pos n_attrs n_tail].
           rewrite <- attr_open_name. norm_app.
        -- rewrite caps_lookup_ne by discriminate. rewrite before_capture_lookup.
           cbn [render_item renamed n_tag n_gap n_before n_name n_pos n_attrs n_tail].
           rewrite <- attr_open_name. unfold attr_open. norm_app.
    + rewrite bool_decide_eq_false_2 by exact HT.
      apply replace_all_miss; [exact Hr | exact Hseg |].
      cbn [render_item n_tag]. rewrite <- app_assoc. unfold re_attr.
      now apply opener_mismatch.
  - apply replace_all_miss; [exact Hr | exact Hseg |].
    cbn [render_item]. destruct Hwf as (_ & Hno & _).
    destruct (decide (T = Geom)) as [-> | HT].
    + rewrite <- !app_assoc. cbn [app].
      apply exec_re_attr_none; [apply attr_ok_name | exact Hno].
    + rewrite <- app_assoc. unfold re_attr. now apply opener_mismatch.
  - apply replace_all_miss; [exact Hr | exact Hseg |].
    cbn [render_item]. destruct Hwf as [_ Hop].
    destruct (exec _ _) as [res|] eqn:E; [exfalso | reflexivity].
    apply exec_re_attr_opens in E.
    apply (Hop Geom). now apply (opens_app Geom t rest Hseg Hrest).
Qed.

Lemma anchor_shape p z :
  anchor_pos_open p ++ z
  = lit (opener Body) ++ lit " " ++ xml "name='" ++ (p ++ lit "pelvis")
    ++ dq :: xml " pos='" ++ z.
Proof.
  unfold anchor_pos_open.
  change (xml "<body name='") with (lit (opener Body) ++ lit " " ++ xml "name='").
  change (xml "pelvis' pos='") with (lit "pelvis" ++ dq :: xml " pos='").
  norm_app.
Qed.

Lemma opener_prefix T T0 z :
  lit (opener T0) `prefix_of` lit (opener T) ++ z -> T = T0.
Proof. intros [k Hk]. destruct T, T0; try reflexivity; discriminate Hk. Qed.

Lemma before_not_name before z :
  attrs_before before -> before <> [] ->
  ~ xml "name='" `prefix_of` before -> ~ xml "name='" `prefix_of` before ++ z.
Proof.
  intros [-> | (a & A & w & -> & Ha & Hw)] Hne Hpre [y E]; [contradiction|].
  apply app_eq_app_cases in E as (l & [[E1 E2] | [E1 E2]]).
  - apply Hpre. exists l. exact E1.
  - assert (Hin : w ∈ xml "name='").
    { rewrite E1. apply elem_of_app. left. apply elem_of_cons. right.
      apply elem_of_app. right. left. }
    revert Hw. clear -Hin.
    repeat (apply elem_of_cons in Hin as [-> | Hin]; [discriminate|]).
    inversion Hin.
Qed.

(** A named tag at which the anchor opener of [p] begins. *)
Lemma anchor_inv x rest p z :
  wf_named x -> Forall (fun c => c <> dq) p ->
  render_item (Named x) ++ rest = anchor_pos_open p ++ z ->
  n_tag x = Body /\ n_gap x = lit " " /\ n_before x = []
  /\ n_name x = p ++ lit "pelvis"
  /\ pos_attr (n_pos x) ++ n_attrs x ++ ">"%char :: n_tail x ++ rest = xml " pos='" ++ z.
Proof.
  intros Hwf Hp E. rewrite anchor_shape in E.
  destruct x as [T gap before name pos attrs tail].
  destruct Hwf as [Hgne Hgap Hbef Hbch Hbf Hname Hpos Hnopos Hattrs Hlast Htail].
  cbn [render_item n_tag n_gap n_before n_name n_pos n_attrs n_tail] in *.
  assert (T = Body) as ->.
  { apply (opener_prefix T Body (gap ++ before ++ xml "name='" ++ name
             ++ dq :: pos_attr pos ++ attrs ++ ">"%char :: tail ++ rest)).
    eexists. etransitivity; [|exact E]. norm_app. }
  rewrite <- !app_assoc in E. apply app_inv_head in E.
  destruct gap as [| w gap]; [contradiction|].
  cbn [app] in E. change (lit " ") with [" "%char] in *. cbn [app] in E.
  injection E as -> E.
  inversion Hgap as [| ? ? _ Hgap']; subst.
  assert (gap = [] /\ before = []
          /\ name ++ dq :: pos_attr pos ++ attrs ++ ">"%char :: tail ++ rest
             = (p ++ lit "pelvis") ++ dq :: xml " pos='" ++ z) as (-> & -> & E').
  { destruct Hbef as [-> | (a & A & w & -> & Ha & Hw)].
    - cbn [app] in E.
      apply (run_unique is_space gap [] "n"%char "n"%char) in E as [-> E];
        [| exact Hgap' | constructor | reflexivity | reflexivity].
      injection E as E. split; [reflexivity|]. split; [reflexivity|].
      rewrite <- (app_assoc p). rewrite <- !app_assoc in E. cbn [app] in E. exact E.
    - exfalso. cbn [app] in E.
      apply (run_unique is_space gap [] a "n"%char) in E as [-> E];
        [| exact Hgap' | constructor | exact Ha | reflexivity].
      eapply (before_not_name (a :: A ++ [w]));
        [right; now exists a, A, w | discriminate | exact Hbf | eexists; exact E]. }
  apply (run_unique (is_not dq) name (p ++ lit "pelvis") dq dq) in E' as [-> E'];
    [| now apply Forall_is_not, Forall_value_dq | | reflexivity | reflexivity].
  - injection E' as E'. auto.
  - apply Forall_is_not. apply Forall_app. split; [exact Hp|].
    repeat constructor; discriminate.
Qed.

(** *** The position step *)

Lemma not_in_literal (g : ascii) (l : text) :
  forallb (fun c => negb (Ascii.eqb c g)) l = true -> g ∉ l.
Proof.
  induction l as [| c l IH]; cbn [forallb]; intros H Hin; [inversion Hin|].
  apply andb_true_iff in H as [Hc Hl].
  apply elem_of_cons in Hin as [-> | Hin]; [|now apply IH].
  rewrite Ascii.eqb_refl in Hc. discriminate Hc.
Qed.

(** The position pattern matches at a named tag only if the tag is the
    anchor of [p] and carries a position directly behind its name. *)
Lemma exec_pos_named p x rest res :
  wf_named x -> Forall (fun c => c <> dq) p ->
  exec (re_pelvis_pos p) (render_item (Named x) ++ rest) = Some res ->
  (n_tag x = Body /\ n_gap x = lit " " /\ n_before x = []
   /\ n_name x = p ++ lit "pelvis")
  /\ exists v, n_pos x = Some v.
Proof.
  intros Hwf Hp E. destruct res as [m caps].
  apply exec_pelvis_pos_inv in E as (old & post & E & Hold & _).
  apply anchor_inv in E as (HT & Hg & Hb & Hn & E); [| exact Hwf | exact Hp].
  split; [auto|]. destruct (n_pos x) as [v|] eqn:Hpos; [now exists v | exfalso].
  cbn [pos_attr app] in E.
  destruct (prefix_within (xml " pos='") (old ++ dq :: post) (n_attrs x)
              (n_tail x ++ rest) ">"%char) as (y' & Hy).
  - now rewrite E.
  - now apply not_in_literal.
  - apply (wf_no_pos _ Hwf Hpos). now exists y'.
Qed.

Lemma render_anchor p v attrs tail :
  render_item (Named {| n_tag := Body; n_gap := lit " "; n_before := [];
                        n_name := p ++ lit "pelvis"; n_pos := Some v;
                        n_attrs := attrs; n_tail := tail |})
  = (anchor_pos_open p ++ v ++ [dq]) ++ attrs ++ ">"%char :: tail.
Proof.
  cbn [render_item pos_attr n_tag n_gap n_before n_name n_pos n_attrs n_tail].
  rewrite <- (app_assoc (anchor_pos_open p)). rewrite anchor_shape. norm_app.
Qed.

Lemma pass_pos p new it rest :
  Forall (fun c => c <> dq) p -> wf_item it -> at_tag rest ->
  replace_all (re_pelvis_pos p)
    (fun _ _ => xml "<body name='" ++ p ++ xml "pelvis' pos='" ++ new ++ [dq])
    (render_item it ++ rest)
  = render_item (step_pos p new it)
    ++ replace_all (re_pelvis_pos p)
         (fun _ _ => xml "<body name='" ++ p ++ xml "pelvis' pos='" ++ new ++ [dq])
         rest.
Proof.
  intros Hp Hwf Hrest. pose proof (segment_render it Hwf) as Hseg.
  pose proof (tag_pattern_pos p) as Hr.
  destruct it as [x | T region tail | t]; cbn [step_pos].
  - destruct (decide (n_tag x = Body /\ n_gap x = lit " " /\ n_before x = []
                      /\ n_name x = p ++ lit "pelvis")) as [Hc | Hc].
    + rewrite bool_decide_eq_true_2 by exact Hc.
      destruct x as [T gap before name pos attrs tail].
      cbn [n_tag n_gap n_before n_name n_pos n_attrs n_tail] in Hc.
      destruct Hc as (-> & -> & -> & ->). destruct pos as [v|].
      * unfold placed.
        cbn [fmap option_fmap option_map
               n_tag n_gap n_before n_name n_pos n_attrs n_tail].
        rewrite !render_anchor.
        eapply (replace_all_hit' _ _ _ (anchor_pos_open p ++ v ++ [dq])
                  (attrs ++ ">"%char :: tail) rest ∅ _ Hr);
          [norm_app | | | |].
        -- intros E. apply app_eq_nil in E as [E _].
           now apply anchor_pos_open_not_nil in E.
        -- apply Forall_app. split; [apply Forall_plain_lt, (wf_attrs _ Hwf)|].
           constructor; [discriminate | apply (wf_tail _ Hwf)].
        -- replace ((anchor_pos_open p ++ v ++ [dq]) ++ (attrs ++ ">"%char :: tail) ++ rest)
             with (anchor_pos_open p ++ v ++ dq :: (attrs ++ ">"%char :: tail) ++ rest)
             by norm_app.
           apply exec_pelvis_pos. apply Forall_value_dq, (wf_pos _ Hwf). reflexivity.
        -- unfold anchor_pos_open. norm_app.
      * apply replace_all_miss; [exact Hr | exact Hseg |].
        destruct (exec _ _) as [res|] eqn:E; [exfalso | reflexivity].
        apply exec_pos_named in E as (_ & v & Hv); [discriminate Hv | exact Hwf | exact Hp].
    + rewrite bool_decide_eq_false_2 by exact Hc.
      apply replace_all_miss; [exact Hr | exact Hseg |].
      destruct (exec _ _) as [res|] eqn:E; [exfalso | reflexivity].
      apply exec_pos_named in E as (Hc' & _); [contradiction | exact Hwf | exact Hp].
  - apply replace_all_miss; [exact Hr | exact Hseg |].
    destruct (exec _ _) as [[m caps]|] eqn:E; [exfalso | reflexivity].
    apply exec_pelvis_pos_inv in E as (old & post & E & _ & _).
    rewrite anchor_shape in E. cbn [render_item] in E. destruct Hwf as (_ & Hno & _).
    assert (T = Body) as ->.
    { apply (opener_prefix T Body (region ++ ">"%char :: tail ++ rest)).
      eexists. etransitivity; [|exact E]. norm_app. }
    rewrite <- !app_assoc in E. apply app_inv_head in E.
    destruct (prefix_within (" "%char :: attr_open "name")
                (p ++ lit "pelvis" ++ dq :: xml " pos='" ++ old ++ dq :: post)
                region (tail ++ rest) ">"%char) as (y' & Hy).
    * symmetry. etransitivity; [|exact E]. reflexivity.
    * now apply not_in_literal.
    * specialize (Hno [] " "%char y' Hy). discriminate Hno.
  - apply replace_all_miss; [exact Hr | exact Hseg |].
    destruct (exec _ _) as [[m caps]|] eqn:E; [exfalso | reflexivity].
    apply exec_pelvis_pos_inv in E as (old & post & E & _ & _).
    rewrite anchor_shape in E. cbn [render_item] in E. destruct Hwf as [_ Hop].
    apply (Hop Body). apply (opens_app Body t rest Hseg Hrest).
    rewrite E. exists " "%char. eexists. split; [reflexivity | reflexivity].
Qed.

(** *** Whole texts *)

Lemma pass_doc r f (g : item -> item) doc :
  tag_pattern r ->
  (forall it rest, wf_item it -> at_tag rest ->
     replace_all r f (render_item it ++ rest)
     = render_item (g it) ++ replace_all r f rest) ->
  Forall wf_item doc ->
  replace_all r f (render doc) = render (g <$> doc).
Proof.
  intros Hr Hstep Hdoc. induction Hdoc as [| it doc Hit Hdoc IH].
  - now apply replace_all_end.
  - rewrite fmap_cons, !render_cons.
    rewrite Hstep; [now rewrite IH | exact Hit | now apply at_tag_render].
Qed.

Lemma wf_step_named T0 p it : prefix_ok p -> wf_item it -> wf_item (step_named T0 p it).
Proof.
  intros Hp Hwf. destruct it as [x | |]; cbn [step_named]; [|exact Hwf..].
  case_bool_decide; [|exact Hwf]. now apply wf_renamed.
Qed.

Lemma wf_step_geom p it : prefix_ok p -> wf_item it -> wf_item (step_geom p it).
Proof.
  intros Hp Hwf. destruct it as [x | |]; cbn [step_geom]; [|exact Hwf..].
  case_bool_decide; [|exact Hwf]. destruct (startsWith p (n_name x)); [exact Hwf|].
  now apply wf_renamed.
Qed.

Lemma Forall_wf_fmap (g : item -> item) doc :
  (forall it, wf_item it -> wf_item (g it)) ->
  Forall wf_item doc -> Forall wf_item (g <$> doc).
Proof. intros Hg H. apply Forall_fmap. eapply Forall_impl; [exact H|]. exact Hg. Qed.

Lemma step_named_other T0 p x : n_tag x <> T0 -> step_named T0 p (Named x) = Named x.
Proof. intros H. cbn [step_named]. case_bool_decide as Hc; [|reflexivity]. now destruct Hc. Qed.

Lemma step_named_later T0 p x :
  n_before x <> [] -> step_named T0 p (Named x) = Named x.
Proof. intros H. cbn [step_named]. case_bool_decide as Hc; [|reflexivity]. now destruct Hc. Qed.

Lemma step_named_first T0 p x :
  n_tag x = T0 -> n_before x = [] -> step_named T0 p (Named x) = Named (renamed p x).
Proof. intros H1 H2. cbn [step_named]. now rewrite bool_decide_eq_true_2. Qed.

Lemma step_geom_other p x : n_tag x <> Geom -> step_geom p (Named x) = Named x.
Proof. intros H. cbn [step_geom]. now rewrite bool_decide_eq_false_2. Qed.

Lemma step_geom_geom p x :
  n_tag x = Geom ->
  step_geom p (Named x) = if startsWith p (n_name x) then Named x else Named (renamed p x).
Proof. intros H. cbn [step_geom]. now rewrite bool_decide_eq_true_2. Qed.

Lemma step_pos_other p new x :
  ~ (n_tag x = Body /\ n_before x = []) -> step_pos p new (Named x) = Named x.
Proof.
  intros H. cbn [step_pos]. case_bool_decide as Hc; [|reflexivity].
  exfalso. apply H. destruct Hc as (H1 & _ & H2 & _). now split.
Qed.

Lemma step_pos_renamed p new x :
  n_tag x = Body -> n_before x = [] ->
  step_pos p new (Named (renamed p x))
  = if bool_decide (n_name x = lit "pelvis") then Named (placed new (renamed p x))
    else Named (renamed p x).
Proof.
  intros H1 H2. cbn [step_pos renamed n_tag n_gap n_before n_name].
  repeat case_bool_decide; try reflexivity; exfalso.
  - destruct H as (_ & _ & _ & H). now apply app_inv_head in H.
  - apply H. repeat split; auto. now f_equal.
Qed.

(** The six steps together are the rename of a segment. *)
Lemma rename_item_steps p new it :
  step_pos p new
    (step_geom p
       (step_named Site p
          (step_named Freejoint p (step_named Joint p (step_named Body p it)))))
  = rename_item p new it.
Proof.
  destruct it as [x | |]; [|reflexivity..].
  destruct x as [T gap before name pos attrs tail].
  destruct T, before as [| a before]; unfold rename_item;
    cbn [n_tag n_before n_name];
    repeat first
      [ rewrite step_named_first by reflexivity
      | rewrite step_named_other by (cbn; discriminate)
      | rewrite step_named_later by (cbn; discriminate)
      | rewrite step_geom_other by (cbn; discriminate)
      | rewrite step_geom_geom by reflexivity ];
    cbn [n_name];
    try (destruct (startsWith p name));
    first
      [ rewrite step_pos_renamed by reflexivity; reflexivity
      | rewrite step_pos_other by (cbn; intros [? ?]; discriminate); reflexivity ].
Qed.

Section CloneFacts.
Variable Number_toString : num -> text.

Theorem clone_rename p config doc :
  prefix_ok p -> Forall wf_item doc ->
  addPrefixToRobotBody Number_toString (render doc) p config
  = render (rename_item p (pos_of Number_toString config) <$> doc).
Proof.
  intros Hp Hdoc. pose proof Hp as [Hne Hchars].
  unfold addPrefixToRobotBody. rewrite bool_decide_eq_false_2 by exact Hne.
  cbv zeta.
  change "<body"%string with (opener Body).
  change "<joint"%string with (opener Joint).
  change "<freejoint"%string with (opener Freejoint).
  change "<site"%string with (opener Site).
  change "<geom"%string with (opener Geom).
  rewrite (pass_doc _ _ (step_named Body p) doc (tag_pattern_named_opener Body)
             (pass_named Body p) Hdoc).
  apply (Forall_wf_fmap _ _ (fun it => wf_step_named Body p it Hp)) in Hdoc.
  rewrite (pass_doc _ _ (step_named Joint p) _ (tag_pattern_named_opener Joint)
             (pass_named Joint p) Hdoc).
  apply (Forall_wf_fmap _ _ (fun it => wf_step_named Joint p it Hp)) in Hdoc.
  rewrite (pass_doc _ _ (step_named Freejoint p) _ (tag_pattern_named_opener Freejoint)
             (pass_named Freejoint p) Hdoc).
  apply (Forall_wf_fmap _ _ (fun it => wf_step_named Freejoint p it Hp)) in Hdoc.
  rewrite (pass_doc _ _ (step_named Site p) _ (tag_pattern_named_opener Site)
             (pass_named Site p) Hdoc).
  apply (Forall_wf_fmap _ _ (fun it => wf_step_named Site p it Hp)) in Hdoc.
  rewrite (pass_doc _ _ (step_geom p) _ (tag_pattern_attr_opener Geom "name")
             (pass_geom p) Hdoc).
  apply (Forall_wf_fmap _ _ (fun it => wf_step_geom p it Hp)) in Hdoc.
  rewrite set_pelvis_pos_eq.
  rewrite (pass_doc _ _ (step_pos p (pos_of Number_toString config)) _ (tag_pattern_pos p)).
  - rewrite <- !list_fmap_compose. f_equal. apply list_fmap_ext.
    intros i it _. apply rename_item_steps.
  - intros it rest. apply pass_pos.
    eapply Forall_impl; [exact Hchars|]. now intros c [[? _] _].
  - exact Hdoc.
Qed.

End CloneFacts.

Lemma forallb_Forall {A} (f : A -> bool) (P : A -> Prop) l :
  (forall c, f c = true -> P c) -> forallb f l = true -> Forall P l.
Proof.
  intros HfP. induction l as [| c l IH]; cbn [forallb]; intros H; [constructor|].
  apply andb_true_iff in H as [Hc Hl]. constructor; auto.
Qed.

Lemma not_lt_b_true c : not_lt_b c = true -> c <> "<"%char.
Proof. unfold not_lt_b. intros H ->. discriminate H. Qed.

Lemma plain_b_true c : plain_b c = true -> plain_char c.
Proof.
  unfold plain_b. intros H. apply andb_true_iff in H as [H1 H2].
  split; [now apply not_lt_b_true|]. intros ->. discriminate H2.
Qed.

Lemma value_b_true c : value_b c = true -> value_char c.
Proof.
  unfold value_b. intros H. apply andb_true_iff in H as [H1 H2].
  split; [|now apply plain_b_true]. intros ->. discriminate H1.
Qed.

Lemma attrs_before_b_true A : attrs_before_b A = true -> attrs_before A.
Proof.
  destruct A as [| a A']; [now left|]. cbn [attrs_before_b]. intros H.
  apply andb_true_iff in H as [Ha Hw]. right.
  destruct (snoc_cases A') as [-> | (A'' & w & ->)]; [discriminate Hw|].
  rewrite last_snoc in Hw. exists a, A'', w. repeat split; auto.
  now apply negb_true_iff.
Qed.

Lemma no_attr_b_true attr t : no_attr_b attr t = true -> no_attr attr t.
Proof.
  induction t as [| c t IH]; intros H x w y E.
  - destruct x; discriminate E.
  - cbn [no_attr_b] in H. apply andb_true_iff in H as [Hc Ht].
    destruct x as [| d x]; cbn [app] in E.
    + injection E as -> ->. apply negb_true_iff, andb_false_iff in Hc as [Hc | Hc];
        [exact Hc|].
      unfold startsWith in Hc. apply bool_decide_eq_false in Hc.
      exfalso. apply Hc. now exists y.
    + injection E as -> ->. now apply (IH Ht x w y).
Qed.

Lemma startsWith_false p s : negb (startsWith p s) = true -> ~ p `prefix_of` s.
Proof.
  intros H. apply negb_true_iff in H. unfold startsWith in H.
  now apply bool_decide_eq_false in H.
Qed.

Lemma opens_b_true tag t : opens tag t -> opens_b tag t = true.
Proof.
  intros (w & y & -> & Hw). unfold opens_b. apply andb_true_iff. split.
  - unfold startsWith. apply bool_decide_eq_true. now exists (w :: y).
  - now rewrite drop_app_length.
Qed.

Lemma wf_named_b_true x : wf_named_b x = true -> wf_named x.
Proof.
  unfold wf_named_b. intros H.
  repeat (apply andb_true_iff in H as [H ?]).
  constructor.
  - intros E. rewrite E in H. discriminate H.
  - eapply forallb_Forall; [|eassumption]. auto.
  - now apply attrs_before_b_true.
  - eapply forallb_Forall; [|eassumption]. apply plain_b_true.
  - now apply startsWith_false.
  - eapply forallb_Forall; [|eassumption]. apply value_b_true.
  - intros v Hv. rewrite Hv in *. eapply forallb_Forall; [|eassumption]. apply value_b_true.
  - intros Hv. rewrite Hv in *. now apply startsWith_false.
  - eapply forallb_Forall; [|eassumption]. apply plain_b_true.
  - now apply no_attr_b_true.
  - eapply forallb_Forall; [|eassumption]. apply not_lt_b_true.
Qed.

Lemma wf_item_b_true it : wf_item_b it = true -> wf_item it.
Proof.
  destruct it as [x | T region tail | t]; cbn [wf_item_b wf_item].
  - apply wf_named_b_true.
  - intros H. repeat (apply andb_true_iff in H as [H ?]).
    repeat split.
    + eapply forallb_Forall; [|eassumption]. apply not_lt_b_true.
    + now apply no_attr_b_true.
    + eapply forallb_Forall; [|eassumption]. apply not_lt_b_true.
  - intros H. apply andb_true_iff in H as [Hs Ho]. split.
    + destruct t as [| c b]; [discriminate Hs|]. cbn [segment_b] in Hs.
      apply andb_true_iff in Hs as [Hc Hb]. apply Ascii.eqb_eq in Hc as ->.
      exists b. split; [reflexivity|]. eapply forallb_Forall; [|eassumption].
      apply not_lt_b_true.
    + intros T Hop. apply opens_b_true in Hop.
      rewrite forallb_forall in Ho. specialize (Ho T).
      rewrite Hop in Ho. discriminate Ho. destruct T; cbn; auto 10.
Qed.

Lemma Forall_wf_check doc : forallb wf_item_b doc = true -> Forall wf_item doc.
Proof. apply forallb_Forall, wf_item_b_true. Qed.

Lemma pos_ok_b_true new : pos_ok_b new = true -> pos_ok new.
Proof.
  unfold pos_ok_b. intros H. apply andb_true_iff in H as [H1 H2]. split.
  - eapply forallb_Forall; [|eassumption]. apply value_b_true.
  - now apply no_attr_b_true.
Qed.

(** Where the same unit [g] stands in two splittings of a text. *)
Lemma split_cases {A} (g : A) (X Y A' B' : list A) :
  X ++ g :: Y = A' ++ g :: B' ->
  (X = A' /\ Y = B')
  \/ (exists m, A' = X ++ g :: m /\ Y = m ++ g :: B')
  \/ (exists m, X = A' ++ g :: m /\ B' = m ++ g :: Y).
Proof.
  intros E. apply app_eq_app_cases in E as (l & [[E1 E2] | [E1 E2]]).
  - destruct l as [| c l].
    + left. rewrite app_nil_r in E1. cbn [app] in E2. injection E2 as ->. auto.
    + right. right. cbn [app] in E2. injection E2 as -> ->. now exists l.
  - destruct l as [| c l].
    + left. rewrite app_nil_r in E1. cbn [app] in E2. injection E2 as ->. auto.
    + right. left. cbn [app] in E2. injection E2 as -> ->. now exists l.
Qed.

(** A run free of [g] that ends a text ending in [m] after a [g] lies in
    [m]. *)
Lemma suffix_after {A} (g : A) (x run pre m : list A) :
  x ++ run = (pre ++ [g]) ++ m -> g ∉ run -> exists k, m = k ++ run.
Proof.
  intros E Hg. apply app_eq_app_cases in E as (k & [[E1 E2] | [E1 E2]]).
  - now exists k.
  - destruct (snoc_cases k) as [-> | (k' & c & ->)].
    + exists []. now rewrite E2.
    + exfalso. rewrite app_assoc in E1. apply app_inj_tail in E1 as [_ <-].
      apply Hg. rewrite E2. apply elem_of_app. left. apply elem_of_app. right. left.
Qed.

(** Replacing a quoted value leaves a text free of name openers so. *)
Lemma no_attr_value A v new B :
  Forall (fun c => c <> dq) new -> no_attr "name" (new ++ [dq]) ->
  no_attr "name" (A ++ dq :: v ++ dq :: B) ->
  no_attr "name" (A ++ dq :: new ++ dq :: B).
Proof.
  intros Hnew Hend Hno x w y E.
  destruct (is_space w) eqn:Hw; [exfalso | reflexivity].
  assert (Hrun : dq ∉ w :: xml "name=").
  { apply not_in_literal. cbn [forallb]. rewrite andb_true_iff. split; [|reflexivity].
    apply negb_true_iff. apply Ascii.eqb_neq. intros ->. discriminate Hw. }
  assert (E' : (x ++ w :: xml "name=") ++ dq :: y = A ++ dq :: new ++ dq :: B).
  { rewrite E, <- app_assoc. reflexivity. }
  assert (Hocc : forall pre post, pre ++ w :: xml "name=" ++ dq :: post
                                  = A ++ dq :: v ++ dq :: B -> False).
  { intros pre post Eo. specialize (Hno pre w post). rewrite Hw in Hno.
    discriminate Hno. rewrite <- Eo. reflexivity. }
  apply split_cases in E' as [[E1 E2] | [(m & E1 & E2) | (m & E1 & E2)]].
  - apply (Hocc x (v ++ dq :: B)). rewrite <- E1. norm_app.
  - apply (Hocc x (m ++ dq :: v ++ dq :: B)). rewrite E1. norm_app.
  - symmetry in E2.
    apply split_cases in E2 as [[E3 E4] | [(m' & E3 & E4) | (m' & E3 & E4)]].
    + subst m y.
      destruct (suffix_after dq x (w :: xml "name=") A new) as (k & Hk);
        [rewrite E1; norm_app | exact Hrun |].
      specialize (Hend k w []). rewrite Hw in Hend. discriminate Hend.
      rewrite Hk. unfold attr_open. norm_app.
    + rewrite Forall_forall in Hnew. apply (Hnew dq); [|reflexivity].
      rewrite E3. apply elem_of_app. right. left.
    + subst m B.
      destruct (suffix_after dq x (w :: xml "name=") (A ++ dq :: new) m') as (k & Hk);
        [rewrite E1; norm_app | exact Hrun |].
      apply (Hocc (A ++ dq :: v ++ dq :: k) y). rewrite Hk. norm_app.
Qed.

Lemma wf_placed new x : pos_ok new -> wf_named x -> wf_named (placed new x).
Proof.
  intros [Hnew Hend] H.
  constructor; cbn [placed n_gap n_before n_name n_pos n_attrs n_tail].
  - apply (wf_gap_ne _ H).
  - apply (wf_gap _ H).
  - apply (wf_before _ H).
  - apply (wf_before_chars _ H).
  - apply (wf_before_first _ H).
  - apply (wf_name _ H).
  - intros v Hv. destruct (n_pos x); [|discriminate Hv]. now injection Hv as <-.
  - intros Hv. apply (wf_no_pos _ H). now destruct (n_pos x).
  - apply (wf_attrs _ H).
  - pose proof (wf_last _ H) as Hl. destruct (n_pos x) as [v|]; [|exact Hl].
    cbn [fmap option_fmap option_map pos_attr] in *.
    change (xml " pos='") with (xml " pos=" ++ [dq]) in *.
    replace (xml "name='" ++ n_name x ++ dq :: ((xml " pos=" ++ [dq]) ++ new ++ [dq]) ++ n_attrs x)
      with ((xml "name='" ++ n_name x ++ dq :: xml " pos=") ++ dq :: new ++ dq :: n_attrs x)
      by norm_app.
    apply (no_attr_value _ v).
    + now apply Forall_value_dq.
    + exact Hend.
    + replace ((xml "name='" ++ n_name x ++ dq :: xml " pos=") ++ dq :: v ++ dq :: n_attrs x)
        with (xml "name='" ++ n_name x ++ dq :: ((xml " pos=" ++ [dq]) ++ v ++ [dq]) ++ n_attrs x)
        by norm_app.
      exact Hl.
  - apply (wf_tail _ H).
Qed.

Lemma wf_step_pos p new it : pos_ok new -> wf_item it -> wf_item (step_pos p new it).
Proof.
  intros Hnew Hwf. destruct it as [x | |]; cbn [step_pos]; [|exact Hwf..].
  case_bool_decide; [|exact Hwf]. now apply wf_placed.
Qed.

Lemma wf_rename_item p new it :
  prefix_ok p -> pos_ok new -> wf_item it -> wf_item (rename_item p new it).
Proof.
  intros Hp Hnew Hwf. rewrite <- rename_item_steps.
  apply wf_step_pos; [exact Hnew|]. apply wf_step_geom; [exact Hp|].
  repeat (apply wf_step_named; [exact Hp|]). exact Hwf.
Qed.

Lemma startsWith_app p n : startsWith p (p ++ n) = true.
Proof. unfold startsWith. apply bool_decide_eq_true. now exists n. Qed.

(** A geom is renamed once. *)
Lemma rename_item_geom p new new' x :
  n_tag x = Geom ->
  rename_item p new' (rename_item p new (Named x)) = rename_item p new (Named x).
Proof.
  intros HT. unfold rename_item at 2 3. rewrite HT.
  destruct (startsWith p (n_name x)) eqn:E.
  - unfold rename_item. now rewrite HT, E.
  - unfold rename_item. cbn [renamed n_tag n_name]. now rewrite HT, startsWith_app.
Qed.

(** The other tags are renamed again. *)
Lemma rename_item_again p new new' x :
  n_tag x <> Geom -> n_before x = [] ->
  exists y, rename_item p new' (rename_item p new (Named x)) = Named y
            /\ n_tag y = n_tag x /\ n_name y = p ++ p ++ n_name x.
Proof.
  intros HT Hb. destruct x as [T gap before name pos attrs tail].
  cbn [n_tag n_before n_name] in *. subst before.
  destruct T; try contradiction; unfold rename_item; cbn [n_tag n_before n_name renamed placed];
    repeat case_bool_decide; cbn [n_tag n_before n_name renamed placed];
    eexists; (split; [reflexivity|]); split; reflexivity.
Qed.

End MarkupFacts.

(* ===================================================================== *)
(** ** The rename of the motors                                          *)
(* ===================================================================== *)

Module MotorFacts.
Import JS Regex Generator Markup RegexFacts PositionFacts PatternFacts MarkupFacts.

Lemma opens_app_tag tag l t rest :
  lit tag = "<"%char :: l ->
  Forall (fun c => c <> "<"%char /\ is_space c = false) l ->
  segment t -> at_tag rest -> opens tag (t ++ rest) -> opens tag t.
Proof.
  intros El Hl (b & -> & Hb) Hrest (w & y & E & Hw). unfold opens.
  rewrite El in *.
  assert (E' : ("<"%char :: b) ++ rest = ("<"%char :: l ++ [w]) ++ y).
  { rewrite E. norm_app. }
  apply app_eq_app_cases in E' as (k & [[E1 E2] | [E1 E2]]).
  - exists w, k. split; [|exact Hw]. rewrite E1. norm_app.
  - destruct k as [| c k].
    + exists w, []. split; [|exact Hw]. rewrite app_nil_r in E1. rewrite <- E1. norm_app.
    + exfalso. subst rest. cbn in Hrest. subst c.
      cbn [app] in E1. injection E1 as E1.
      assert (Hin : "<"%char ∈ l ++ [w]).
      { rewrite E1. apply elem_of_app. right. left. }
      apply elem_of_app in Hin as [Hin | Hin].
      * rewrite Forall_forall in Hl. now destruct (Hl _ Hin).
      * apply list_elem_of_singleton in Hin. subst w. discriminate Hw.
Qed.

Lemma pass_segments {A} (render_it : A -> text) (wf : A -> Prop) r f (g : A -> A) l :
  tag_pattern r ->
  (forall it, wf it -> segment (render_it it)) ->
  (forall it rest, wf it -> at_tag rest ->
     replace_all r f (render_it it ++ rest)
     = render_it (g it) ++ replace_all r f rest) ->
  Forall wf l ->
  replace_all r f (concat (render_it <$> l)) = concat (render_it <$> (g <$> l)).
Proof.
  intros Hr Hseg Hstep Hl. induction Hl as [| it l Hit Hl IH].
  - now apply replace_all_end.
  - rewrite !fmap_cons. cbn [concat]. rewrite Hstep; [now rewrite IH | exact Hit |].
    destruct Hl as [| it' l' Hit' _]; [exact I|].
    rewrite fmap_cons. cbn [concat]. now apply at_tag_segment, Hseg.
Qed.

Lemma motor_lt : lit "<motor" = "<"%char :: lit "motor".
Proof. reflexivity. Qed.

Lemma motor_chars : Forall (fun c => c <> "<"%char /\ is_space c = false) (lit "motor").
Proof. repeat constructor; discriminate. Qed.

Lemma motor_rest_lt m :
  wf_motor m ->
  Forall (fun c => c <> "<"%char)
         (m_between m ++ xml "joint='" ++ m_joint m ++ dq :: m_attrs m
          ++ ">"%char :: m_tail m).
Proof.
  intros H. apply Forall_app. split; [apply Forall_plain_lt, H|].
  apply Forall_app. split; [repeat constructor; discriminate|].
  apply Forall_app. split; [apply Forall_plain_lt, Forall_value_plain, H|].
  constructor; [discriminate|]. apply Forall_app. split; [apply Forall_plain_lt, H|].
  constructor; [discriminate | apply H].
Qed.

Lemma segment_motor it : wf_motor_item it -> segment (render_motor_item it).
Proof.
  destruct it as [m | t]; cbn [wf_motor_item render_motor_item]; [|now intros [? _]].
  intros H. rewrite motor_lt. eexists. split; [reflexivity|].
  apply Forall_app. split; [repeat constructor; discriminate|].
  apply Forall_app. split; [apply Forall_space_lt, H|].
  apply Forall_app. split; [repeat constructor; discriminate|].
  apply Forall_app. split; [apply Forall_plain_lt, Forall_value_plain, H|].
  constructor; [discriminate|]. now apply motor_rest_lt.
Qed.

Lemma wf_step_motor_name p it :
  prefix_ok p -> wf_motor_item it -> wf_motor_item (step_motor_name p it).
Proof.
  intros [_ Hp] H. destruct it as [m | t]; [|exact H].
  cbn [step_motor_name wf_motor_item] in *.
  constructor; cbn [m_gap m_name m_between m_joint m_attrs m_tail]; try apply H.
  - discriminate.
  - repeat constructor.
  - apply Forall_app. split; [now apply Forall_prefix_value | apply H].
Qed.

(** *** The two steps on a segment *)

Lemma pass_motor_name p it rest :
  wf_motor_item it -> at_tag rest ->
  replace_all (re_named "<motor") (rename_cb "<motor" p) (render_motor_item it ++ rest)
  = render_motor_item (step_motor_name p it)
    ++ replace_all (re_named "<motor") (rename_cb "<motor" p) rest.
Proof.
  intros Hwf Hrest. pose proof (segment_motor it Hwf) as Hseg.
  pose proof (tag_pattern_named "<motor" _ motor_lt) as Hr.
  destruct it as [m | t]; cbn [step_motor_name].
  - pose proof (motor_rest_lt _ Hwf) as Hlt.
    destruct m as [gap name between joint attrs tail].
    destruct Hwf as [Hgne Hgap Hname Hbet Hbch Hjoint Hattrs Hlast Htail].
    cbn [m_gap m_name m_between m_joint m_attrs m_tail] in *.
    cbn [render_motor_item m_gap m_name m_between m_joint m_attrs m_tail].
    eapply (replace_all_hit' _ _ _
              (lit "<motor" ++ gap ++ xml "name='" ++ name ++ [dq])
              (between ++ xml "joint='" ++ joint ++ dq :: attrs ++ ">"%char :: tail)
              rest (<[1 := name]> ∅) _ Hr);
      [norm_app | rewrite motor_lt; discriminate | exact Hlt | |].
    + replace ((lit "<motor" ++ gap ++ xml "name='" ++ name ++ [dq])
               ++ (between ++ xml "joint='" ++ joint ++ dq :: attrs ++ ">"%char :: tail)
               ++ rest)
        with (lit "<motor" ++ gap ++ xml "name='" ++ name
              ++ dq :: (between ++ xml "joint='" ++ joint ++ dq :: attrs
                        ++ ">"%char :: tail) ++ rest)
        by norm_app.
      apply exec_re_named; [exact Hgne | exact Hgap | now apply Forall_value_dq].
    + unfold rename_cb. rewrite caps_lookup_eq. cbn [from_option id].
      change (xml " name='") with (lit " " ++ xml "name='"). norm_app.
  - apply replace_all_miss; [exact Hr | exact Hseg |].
    cbn [render_motor_item]. destruct Hwf as [_ Hop].
    destruct (exec _ _) as [res|] eqn:E; [exfalso | reflexivity].
    apply exec_re_named_inv in E as (x & w & y & E & Hx).
    apply Hop. apply (opens_app_tag "<motor" _ t rest motor_lt motor_chars Hseg Hrest).
    rewrite E. now apply opens_spaces.
Qed.

Lemma pass_motor_joint p it rest :
  wf_motor_item it -> at_tag rest ->
  replace_all (re_attr "<motor" "joint") (guarded_cb "<motor" "joint" p)
              (render_motor_item it ++ rest)
  = render_motor_item (step_motor_joint p it)
    ++ replace_all (re_attr "<motor" "joint") (guarded_cb "<motor" "joint" p) rest.
Proof.
  intros Hwf Hrest. pose proof (segment_motor it Hwf) as Hseg.
  pose proof (tag_pattern_attr "<motor" "joint" _ motor_lt) as Hr.
  destruct it as [m | t]; cbn [step_motor_joint].
  - destruct m as [gap name between joint attrs tail].
    destruct Hwf as [Hgne Hgap Hname (B & w & Hbet & Hw) Hbch Hjoint Hattrs Hlast Htail].
    cbn [m_gap m_name m_between m_joint m_attrs m_tail] in *.
    set (before := xml "name='" ++ name ++ dq :: between).
    assert (Hexec :
      exec (re_attr "<motor" "joint")
           ((lit "<motor" ++ gap ++ before ++ attr_open "joint" ++ joint ++ [dq])
            ++ (attrs ++ ">"%char :: tail) ++ rest)
      = Some (lit "<motor" ++ gap ++ before ++ attr_open "joint" ++ joint ++ [dq],
              <[2 := joint]> (before_capture before))).
    { replace ((lit "<motor" ++ gap ++ before ++ attr_open "joint" ++ joint ++ [dq])
               ++ (attrs ++ ">"%char :: tail) ++ rest)
        with (lit "<motor" ++ gap ++ before ++ attr_open "joint" ++ joint
              ++ dq :: attrs ++ ">"%char :: (tail ++ rest))
        by norm_app.
      apply exec_re_attr;
        [apply attr_ok_joint | exact Hgne | exact Hgap | | | now apply Forall_value_dq | | ].
      - right. exists "n"%char, (xml "ame='" ++ name ++ dq :: B), w.
        split; [|split; [reflexivity | exact Hw]].
        subst before. rewrite Hbet. norm_app.
      - subst before. apply Forall_app. split; [repeat constructor; discriminate|].
        apply Forall_app. split; [apply Forall_plain_gt, Forall_value_plain, Hname|].
        constructor; [discriminate | now apply Forall_plain_gt].
      - apply Forall_app. split; [apply Forall_plain_gt, Forall_value_plain, Hjoint|].
        constructor; [discriminate | now apply Forall_plain_gt].
      - exact Hlast. }
    eapply (replace_all_hit' _ _ _ _ _ rest _ _ Hr); [ | | | exact Hexec |].
    + cbn [render_motor_item m_gap m_name m_between m_joint m_attrs m_tail].
      subst before. change (attr_open "joint") with (xml "joint='"). norm_app.
    + rewrite motor_lt. discriminate.
    + apply Forall_app. split; [now apply Forall_plain_lt|].
      constructor; [discriminate | exact Htail].
    + unfold guarded_cb. rewrite caps_lookup_eq. cbn [from_option id].
      destruct (startsWith p joint).
      * cbn [render_motor_item m_gap m_name m_between m_joint m_attrs m_tail].
        subst before. change (attr_open "joint") with (xml "joint='"). norm_app.
      * rewrite caps_lookup_ne by discriminate. rewrite before_capture_lookup.
        cbn [render_motor_item m_gap m_name m_between m_joint m_attrs m_tail].
        subst before. change (lit "joint" ++ xml "='") with (xml "joint='"). norm_app.
  - apply replace_all_miss; [exact Hr | exact Hseg |].
    cbn [render_motor_item]. destruct Hwf as [_ Hop].
    destruct (exec _ _) as [res|] eqn:E; [exfalso | reflexivity].
    apply exec_re_attr_opens in E.
    apply Hop. now apply (opens_app_tag "<motor" _ t rest motor_lt motor_chars Hseg Hrest).
Qed.

Lemma rename_motor_steps p it :
  step_motor_joint p (step_motor_name p it) = rename_motor p it.
Proof.
  destruct it as [m | t]; [|reflexivity].
  cbn [step_motor_name step_motor_joint rename_motor m_joint].
  now destruct (startsWith p (m_joint m)).
Qed.

Lemma addPrefixToMotors_render p ms :
  prefix_ok p -> Forall wf_motor_item ms ->
  addPrefixToMotors (render_motors ms) p = render_motors (rename_motor p <$> ms).
Proof.
  intros Hp Hms. unfold addPrefixToMotors, render_motors. cbv zeta.
  rewrite (pass_segments render_motor_item wf_motor_item _ _ (step_motor_name p) ms
             (tag_pattern_named "<motor" _ motor_lt) segment_motor
             (pass_motor_name p) Hms).
  rewrite (pass_segments render_motor_item wf_motor_item _ _ (step_motor_joint p) _
             (tag_pattern_attr "<motor" "joint" _ motor_lt) segment_motor
             (pass_motor_joint p)).
  - do 2 f_equal. rewrite <- list_fmap_compose. apply list_fmap_ext.
    intros i it _. apply rename_motor_steps.
  - apply Forall_fmap. eapply Forall_impl; [exact Hms|].
    intros it. now apply wf_step_motor_name.
Qed.

End MotorFacts.

(* ===================================================================== *)
(** ** The searches of the generator                                     *)
(* ===================================================================== *)

Module SearchFacts.
Import JS Regex Generator Markup RegexFacts PositionFacts PatternFacts MarkupFacts MotorFacts.

Lemma prefix_ok_b_true p : prefix_ok_b p = true -> prefix_ok p.
Proof.
  unfold prefix_ok_b. intros H. apply andb_true_iff in H as [H1 H2]. split.
  - intros ->. discriminate H1.
  - eapply forallb_Forall; [|exact H2]. intros c Hc.
    apply andb_true_iff in Hc as [Hv Hs]. split; [now apply value_b_true|].
    now apply negb_true_iff.
Qed.

Lemma wf_motor_b_true m : wf_motor_b m = true -> wf_motor m.
Proof.
  unfold wf_motor_b. intros H.
  repeat (apply andb_true_iff in H as [H ?]).
  constructor.
  - intros E. rewrite E in H. discriminate H.
  - eapply forallb_Forall; [|eassumption]. auto.
  - eapply forallb_Forall; [|eassumption]. apply value_b_true.
  - unfold ends_space_b in *.
    destruct (snoc_cases (m_between m)) as [E | (B & w & E)]; rewrite E in *.
    + discriminate.
    + rewrite last_snoc in *. now exists B, w.
  - eapply forallb_Forall; [|eassumption]. apply plain_b_true.
  - eapply forallb_Forall; [|eassumption]. apply value_b_true.
  - eapply forallb_Forall; [|eassumption]. apply plain_b_true.
  - now apply no_attr_b_true.
  - eapply forallb_Forall; [|eassumption]. apply not_lt_b_true.
Qed.

Lemma wf_motor_item_b_true it : wf_motor_item_b it = true -> wf_motor_item it.
Proof.
  destruct it as [m | t]; cbn [wf_motor_item_b wf_motor_item].
  - apply wf_motor_b_true.
  - intros H. apply andb_true_iff in H as [Hs Ho]. split.
    + destruct t as [| c b]; [discriminate Hs|]. cbn [segment_b] in Hs.
      apply andb_true_iff in Hs as [Hc Hb]. apply Ascii.eqb_eq in Hc as ->.
      exists b. split; [reflexivity|]. eapply forallb_Forall; [|eassumption].
      apply not_lt_b_true.
    + intros Hop. apply opens_b_true in Hop. rewrite Hop in Ho. discriminate Ho.
Qed.

(** *** [robotId] *)

Lemma lit_inj s1 s2 : lit s1 = lit s2 -> s1 = s2.
Proof.
  unfold lit. intros H.
  rewrite <- (string_of_list_ascii_of_string s1), <- (string_of_list_ascii_of_string s2).
  now rewrite H.
Qed.

Lemma string_of_nat_inj n m : string_of_nat n = string_of_nat m -> n = m.
Proof.
  unfold string_of_nat. intros H.
  assert (Hu : Nat.to_uint n = Nat.to_uint m).
  { pose proof (NilEmpty.usu (Nat.to_uint n)) as H1.
    pose proof (NilEmpty.usu (Nat.to_uint m)) as H2.
    rewrite H in H1. rewrite H1 in H2. now injection H2. }
  rewrite <- (Unsigned.of_to n), <- (Unsigned.of_to m). now rewrite Hu.
Qed.

Lemma digits_chars d :
  Forall (fun c => value_char c /\ is_space c = false) (lit (NilEmpty.string_of_uint d)).
Proof.
  induction d; cbn; constructor; try exact IHd;
    (split; [split; [discriminate | split; discriminate] | reflexivity]).
Qed.

Lemma robotId_inj j k : robotId j = robotId k -> j = k.
Proof.
  unfold robotId. destruct (Nat.eqb_spec j 0) as [-> | Hj], (Nat.eqb_spec k 0) as [-> | Hk];
    try reflexivity; try discriminate.
  intros H. apply app_inv_head in H. apply app_inv_tail in H.
  apply lit_inj, string_of_nat_inj in H. lia.
Qed.

Lemma robotId_ok k : k <> 0 -> prefix_ok (robotId k).
Proof.
  intros Hk. unfold robotId. destruct (Nat.eqb_spec k 0) as [-> | _]; [contradiction|].
  split; [discriminate|].
  apply Forall_app. split.
  { repeat constructor; discriminate. }
  apply Forall_app. split; [apply digits_chars|].
  repeat constructor; discriminate.
Qed.

(** *** [indexOf] *)

Lemma index_from_Some needle s i j :
  index_from needle s i = Some j ->
  exists k, j = i + k /\ k <= length s /\ needle `prefix_of` drop k s
            /\ forall k', k' < k -> ~ needle `prefix_of` drop k' s.
Proof.
  revert i. induction s as [| c s IH]; intros i; cbn [index_from].
  - case_bool_decide as Hn; [|discriminate]. intros [= <-]. exists 0.
    repeat split; [lia | lia | subst; apply prefix_nil | lia].
  - case_bool_decide as Hp.
    + intros [= <-]. exists 0. repeat split; [lia | cbn; lia | exact Hp | lia].
    + intros H. apply IH in H as (k & -> & Hk & Hpre & Hmin).
      exists (S k). repeat split; [lia | cbn; lia | exact Hpre |].
      intros [| k'] Hlt; [exact Hp|]. cbn [drop]. apply Hmin. lia.
Qed.

Lemma index_from_None needle s i :
  index_from needle s i = None ->
  forall k, ~ needle `prefix_of` drop k s.
Proof.
  revert i. induction s as [| c s IH]; intros i; cbn [index_from].
  - case_bool_decide as Hn; [discriminate|]. intros _ k. rewrite drop_nil.
    intros Hp. apply Hn. now apply prefix_nil_inv.
  - case_bool_decide as Hp; [discriminate|]. intros H [| k]; [exact Hp|].
    cbn [drop]. now apply (IH (S i)).
Qed.

(** *** [scan_body] *)

Lemma startsWith_take10 L s :
  length L <= 10 -> startsWith L (take 10 s) = startsWith L s.
Proof.
  intros HL. unfold startsWith. apply bool_decide_ext. split.
  - intros [k Hk]. exists (k ++ drop 10 s). rewrite app_assoc, <- Hk.
    now rewrite take_drop.
  - intros [k ->]. exists (take (10 - length L) k).
    rewrite take_app. rewrite take_ge by lia. reflexivity.
Qed.

Lemma scan_body_step ps c s i depth found :
  scan_body ps (c :: s) i depth found
  = if opener_at (c :: s) then
      scan_body ps s (S i) (depth + 1) (found || (i =? ps))
    else if closer_at (c :: s) then
      if found && (depth - 1 =? 0)%Z then Some (i + 7)
      else scan_body ps s (S i) (depth - 1) found
    else scan_body ps s (S i) depth found.
Proof.
  cbn [scan_body]. cbv zeta. unfold opener_at, closer_at.
  rewrite !startsWith_take10 by (cbn; lia). reflexivity.
Qed.

Lemma opener_not_closer s : opener_at s = true -> closer_at s = false.
Proof.
  unfold opener_at, closer_at, startsWith. intros H.
  apply bool_decide_eq_true in H as [k ->]. apply bool_decide_eq_false.
  intros [k' Hk']. discriminate Hk'.
Qed.

(** Before the start has been seen nothing is returned. *)
Lemma scan_body_not_found ps s i depth :
  ps < i -> scan_body ps s i depth false = None.
Proof.
  revert i depth. induction s as [| c s IH]; intros i depth Hi; [reflexivity|].
  rewrite scan_body_step.
  assert (E : (i =? ps) = false) by (apply Nat.eqb_neq; lia).
  rewrite E. cbn [orb andb].
  destruct (opener_at (c :: s)); [apply IH; lia|].
  destruct (closer_at (c :: s)); apply IH; lia.
Qed.

Lemma scan_body_found ps s i depth pe :
  scan_body ps s i depth true = Some pe <->
  exists k, pe = i + k + 7 /\ closes_at s depth k.
Proof.
  revert i depth. induction s as [| c s IH]; intros i depth.
  - split; [discriminate|]. intros (k & _ & Hk & _). cbn in Hk. lia.
  - rewrite scan_body_step. cbn [orb andb].
    destruct (opener_at (c :: s)) eqn:Ho.
    + pose proof (opener_not_closer _ Ho) as Hc. rewrite IH. split.
      * intros (k & -> & Hlen & Hcl & Hd & Hmin). exists (S k).
        split; [lia|]. split; [cbn; lia|]. split; [exact Hcl|].
        split; [cbn [depth_after]; now rewrite Ho|].
        intros [| k'] Hlt Hcl'; [cbn [drop] in Hcl'; congruence|].
        cbn [depth_after]. rewrite Ho. apply Hmin; [lia | exact Hcl'].
      * intros (k & -> & Hlen & Hcl & Hd & Hmin).
        destruct k as [| k]; [cbn [drop] in Hcl; congruence|].
        exists k. split; [lia|]. split; [cbn in Hlen; lia|]. split; [exact Hcl|].
        cbn [depth_after] in Hd. rewrite Ho in Hd. split; [exact Hd|].
        intros k' Hlt Hcl'. specialize (Hmin (S k') ltac:(lia) Hcl').
        cbn [depth_after] in Hmin. now rewrite Ho in Hmin.
    + destruct (closer_at (c :: s)) eqn:Hc.
      * destruct (Z.eqb_spec (depth - 1) 0) as [Hz | Hz].
        -- split.
           ++ intros [= <-]. exists 0. split; [lia|]. split; [cbn; lia|].
              split; [exact Hc|]. split; [cbn; lia|]. intros k' Hk'. lia.
           ++ intros (k & -> & Hlen & Hcl & Hd & Hmin).
              destruct k as [| k]; [f_equal; lia|].
              exfalso. apply (Hmin 0); [lia | exact Hc | cbn; lia].
        -- rewrite IH. split.
           ++ intros (k & -> & Hlen & Hcl & Hd & Hmin). exists (S k).
              split; [lia|]. split; [cbn; lia|]. split; [exact Hcl|].
              split; [cbn [depth_after]; now rewrite Ho, Hc|].
              intros [| k'] Hlt Hcl'; [cbn; lia|].
              cbn [depth_after]. rewrite Ho, Hc. apply Hmin; [lia | exact Hcl'].
           ++ intros (k & -> & Hlen & Hcl & Hd & Hmin).
              destruct k as [| k]; [cbn in Hd; lia|].
              exists k. split; [lia|]. split; [cbn in Hlen; lia|]. split; [exact Hcl|].
              cbn [depth_after] in Hd. rewrite Ho, Hc in Hd. split; [exact Hd|].
              intros k' Hlt Hcl'. specialize (Hmin (S k') ltac:(lia) Hcl').
              cbn [depth_after] in Hmin. now rewrite Ho, Hc in Hmin.
      * rewrite IH. split.
        -- intros (k & -> & Hlen & Hcl & Hd & Hmin). exists (S k).
           split; [lia|]. split; [cbn; lia|]. split; [exact Hcl|].
           split; [cbn [depth_after]; now rewrite Ho, Hc|].
           intros [| k'] Hlt Hcl'; [cbn [drop] in Hcl'; congruence|].
           cbn [depth_after]. rewrite Ho, Hc. apply Hmin; [lia | exact Hcl'].
        -- intros (k & -> & Hlen & Hcl & Hd & Hmin).
           destruct k as [| k]; [cbn [drop] in Hcl; congruence|].
           exists k. split; [lia|]. split; [cbn in Hlen; lia|]. split; [exact Hcl|].
           cbn [depth_after] in Hd. rewrite Ho, Hc in Hd. split; [exact Hd|].
           intros k' Hlt Hcl'. specialize (Hmin (S k') ltac:(lia) Hcl').
           cbn [depth_after] in Hmin. now rewrite Ho, Hc in Hmin.
Qed.

Lemma scan_body_start ps s pe :
  scan_body ps s ps 0 false = Some pe <->
  opener_at s = true /\ exists k, pe = ps + k + 7 /\ closes_at s 0 k.
Proof.
  destruct s as [| c s].
  - split; [discriminate|]. intros [H _]. discriminate H.
  - rewrite scan_body_step. rewrite Nat.eqb_refl. cbn [orb andb].
    destruct (opener_at (c :: s)) eqn:Ho.
    + pose proof (opener_not_closer _ Ho) as Hc. rewrite scan_body_found. split.
      * intros (k & -> & Hlen & Hcl & Hd & Hmin). split; [reflexivity|]. exists (S k).
        split; [lia|]. split; [cbn; lia|]. split; [exact Hcl|].
        split; [cbn [depth_after]; now rewrite Ho|].
        intros [| k'] Hlt Hcl'; [cbn [drop] in Hcl'; congruence|].
        cbn [depth_after]. rewrite Ho. apply Hmin; [lia | exact Hcl'].
      * intros (_ & k & -> & Hlen & Hcl & Hd & Hmin).
        destruct k as [| k]; [cbn [drop] in Hcl; congruence|].
        exists k. split; [lia|]. split; [cbn in Hlen; lia|]. split; [exact Hcl|].
        cbn [depth_after] in Hd. rewrite Ho in Hd. split; [exact Hd|].
        intros k' Hlt Hcl'. specialize (Hmin (S k') ltac:(lia) Hcl').
        cbn [depth_after] in Hmin. now rewrite Ho in Hmin.
    + split; [|intros [H _]; discriminate H].
      destruct (closer_at (c :: s)); rewrite scan_body_not_found by lia; discriminate.
Qed.

Lemma index_from_absent needle s i :
  (forall k, ~ needle `prefix_of` drop k s) -> index_from needle s i = None.
Proof.
  intros H. destruct (index_from needle s i) as [j|] eqn:E; [|reflexivity].
  apply index_from_Some in E as (k & _ & _ & Hp & _). now apply H in Hp.
Qed.

Lemma replace_all_absent r f s :
  (forall k, exec r (drop k s) = None) -> replace_all r f s = s.
Proof.
  intros H. rewrite <- (app_nil_r s) at 1. rewrite replace_all_prefix.
  - rewrite replace_all_nil; [apply app_nil_r|].
    specialize (H (length s)). now rewrite drop_all in H.
  - intros i _. rewrite app_nil_r. apply H.
Qed.

Lemma take_add_drop {A} (s : list A) k n :
  take (k + n) s = take k s ++ take n (drop k s).
Proof.
  revert s. induction k as [| k IH]; intros s; [reflexivity|].
  destruct s as [| c s]; [now rewrite drop_nil, !take_nil|]. cbn. now rewrite IH.
Qed.

Lemma no_occurrence_check needle s :
  offsets_from needle s 0 = [] -> forall k, ~ needle `prefix_of` drop k s.
Proof.
  intros H k Hp.
  assert (Hocc : occurs_at needle s (Nat.min k (length s))).
  { split; [lia|]. destruct (Nat.le_gt_cases k (length s)) as [Hk | Hk].
    - now rewrite Nat.min_l by exact Hk.
    - rewrite Nat.min_r by lia. rewrite drop_all. now rewrite drop_ge in Hp by lia. }
  apply occurs_at_offsets in Hocc. rewrite H in Hocc. inversion Hocc.
Qed.

End SearchFacts.

(* ===================================================================== *)
(** ** The generated scene text                                          *)
(* ===================================================================== *)

Module SceneTextFacts.
Import JS Regex Generator Markup RegexFacts PositionFacts PatternFacts MarkupFacts MotorFacts SearchFacts.

Section SceneText.
Variable Number_toString : num -> text.

Lemma addPrefixToRobotBody_render p config doc :
  prefix_ok p -> Forall wf_item doc ->
  addPrefixToRobotBody Number_toString (render doc) p config
  = render (rename_item p (pos_of Number_toString config) <$> doc).
Proof. apply clone_rename. Qed.

Lemma first_robot_render config doc :
  Forall wf_item doc ->
  addPrefixToRobotBody Number_toString (render doc) [] config
  = render (step_pos [] (pos_of Number_toString config) <$> doc).
Proof.
  intros Hdoc. unfold addPrefixToRobotBody.
  rewrite bool_decide_eq_true_2 by reflexivity. rewrite set_pelvis_pos_eq.
  apply (pass_doc _ _ _ doc (tag_pattern_pos [])); [|exact Hdoc].
  intros it rest. apply pass_pos. constructor.
Qed.

Lemma clone_render k config doc :
  Forall wf_item doc ->
  addPrefixToRobotBody Number_toString (render doc) (robotId k) config
  = render (clone_item k (pos_of Number_toString config) <$> doc).
Proof.
  intros Hdoc. unfold clone_item. destruct (Nat.eqb_spec k 0) as [-> | Hk].
  - now apply first_robot_render.
  - apply addPrefixToRobotBody_render; [now apply robotId_ok | exact Hdoc].
Qed.

Lemma clone_motors_render k motors :
  Forall wf_motor_item motors ->
  (if k =? 0 then render_motors motors
   else addPrefixToMotors (render_motors motors) (robotId k))
  = render_motors (clone_motor k <$> motors).
Proof.
  intros Hm. unfold clone_motor. destruct (Nat.eqb_spec k 0) as [-> | Hk].
  - now rewrite list_fmap_id.
  - apply addPrefixToMotors_render; [now apply robotId_ok | exact Hm].
Qed.

Theorem multi_robot_text status xmlContent configs ps pe act ms ae doc motors :
  length configs <> 1 ->
  indexOf (xml "<body name='pelvis'") xmlContent = Some ps ->
  scan_body ps (drop ps xmlContent) ps 0 false = Some pe ->
  indexOf (lit "<actuator>") xmlContent = Some act ->
  indexOf_from (xml "<motor name='") xmlContent act = Some ms ->
  indexOf (lit "</actuator>") xmlContent = Some ae ->
  substring ps pe xmlContent = render doc -> Forall wf_item doc ->
  substring ms ae xmlContent = render_motors motors -> Forall wf_motor_item motors ->
  generateMultiRobotXML Number_toString (Response true status xmlContent) configs
  = Ok (take ps xmlContent
        ++ mjoin ((fun ic : nat * Config.t =>
                     render (clone_item ic.1 (pos_of Number_toString ic.2) <$> doc)
                     ++ lit (String "010" "        "))
                  <$> indexed configs)
        ++ substring pe ms xmlContent
        ++ mjoin ((fun ic : nat * Config.t => render_motors (clone_motor ic.1 <$> motors))
                  <$> indexed configs)
        ++ drop ae xmlContent).
Proof.
  intros Hlen H1 H2 H3 H4 H5 Hbody Hdoc Hmot Hmotors.
  assert (E : generateMultiRobotXML Number_toString (Response true status xmlContent) configs
              = Ok (assemble Number_toString xmlContent configs ps pe ms ae)).
  { unfold generateMultiRobotXML.
    destruct configs as [| c1 [| c2 cs]]; [| contradiction |];
      now rewrite H1, H2, H3, H4, H5. }
  rewrite E. f_equal. unfold assemble. cbv zeta. rewrite Hbody, Hmot.
  f_equal; [unfold substring; cbn [Nat.max Nat.min]; now rewrite Nat.sub_0_r|].
  f_equal; [|f_equal; f_equal].
  - f_equal. apply list_fmap_ext. intros i [k cfg] _. cbn [fst snd].
    f_equal. now apply clone_render.
  - f_equal. apply list_fmap_ext. intros i [k cfg] _. cbn [fst snd].
    now apply clone_motors_render.
Qed.

End SceneText.

Section GeneratorFacts.
Variable Number_toString : num -> text.
Abbreviation pos_of := (Generator.pos_of Number_toString).
Abbreviation addPrefixToRobotBody := (Generator.addPrefixToRobotBody Number_toString).
Abbreviation generateMultiRobotXML := (Generator.generateMultiRobotXML Number_toString).



(** X5. With zero or several configs and a template in which the five
    searches succeed, [generateMultiRobotXML] returns the text before the
    anchor, one clone of the anchor sub-tree per config (the first with its
    names kept, the others renamed with the prefix of their index), each
    followed by a line break and eight spaces, the text between the anchor
    sub-tree and the first motor, one group of motors per config (the first
    unchanged, the others renamed), and the text from the end of the actuator
    block on. *)
Theorem multi_robot_scene_text status xmlContent configs ps pe act ms ae doc motors :
  length configs <> 1 ->
  indexOf (xml "<body name='pelvis'") xmlContent = Some ps ->
  scan_body ps (drop ps xmlContent) ps 0 false = Some pe ->
  indexOf (lit "<actuator>") xmlContent = Some act ->
  indexOf_from (xml "<motor name='") xmlContent act = Some ms ->
  indexOf (lit "</actuator>") xmlContent = Some ae ->
  substring ps pe xmlContent = render doc -> Forall wf_item doc ->
  substring ms ae xmlContent = render_motors motors -> Forall wf_motor_item motors ->
  generateMultiRobotXML (Response true status xmlContent) configs
  = Ok (take ps xmlContent
        ++ mjoin ((fun ic : nat * Config.t =>
                     render (clone_item ic.1 (pos_of ic.2) <$> doc)
                     ++ lit (String "010" "        "))
                  <$> indexed configs)
        ++ substring pe ms xmlContent
        ++ mjoin ((fun ic : nat * Config.t => render_motors (clone_motor ic.1 <$> motors))
                  <$> indexed configs)
        ++ drop ae xmlContent).
Proof. apply multi_robot_text. Qed.

(** X7. With zero or several configs, [generateMultiRobotXML] throws the
    error of the first search that fails, in the order: the anchor opener
    (nowhere in the template), the end of the anchor body (no closer brings
    the depth back to zero), the actuator block, a motor at or behind the
    start of the actuator block, and the end of the actuator block. *)
Theorem missing_part_errors status xmlContent configs :
  length configs <> 1 ->
  let run := generateMultiRobotXML (Response true status xmlContent) configs in
  ((forall k, ~ xml "<body name='pelvis'" `prefix_of` drop k xmlContent) ->
     run = Throw PelvisNotFound)
  /\ (forall ps, indexOf (xml "<body name='pelvis'") xmlContent = Some ps ->
        (forall k, ~ closes_at (drop ps xmlContent) 0 k) ->
        run = Throw PelvisEndNotFound)
  /\ (forall ps pe, indexOf (xml "<body name='pelvis'") xmlContent = Some ps ->
        scan_body ps (drop ps xmlContent) ps 0 false = Some pe ->
        ((forall k, ~ lit "<actuator>" `prefix_of` drop k xmlContent) ->
           run = Throw ActuatorNotFound)
        /\ (forall act, indexOf (lit "<actuator>") xmlContent = Some act ->
              ((forall k, act <= k -> ~ xml "<motor name='" `prefix_of` drop k xmlContent) ->
                 run = Throw MotorsNotFound)
              /\ (forall ms, indexOf_from (xml "<motor name='") xmlContent act = Some ms ->
                    (forall k, ~ lit "</actuator>" `prefix_of` drop k xmlContent) ->
                    run = Throw ActuatorEndNotFound))).
Proof.
  intros Hlen run.
  assert (E : run =
    match indexOf (xml "<body name='pelvis'") xmlContent with
    | None => Throw PelvisNotFound
    | Some ps =>
        match scan_body ps (drop ps xmlContent) ps 0 false with
        | None => Throw PelvisEndNotFound
        | Some pe =>
            match indexOf (lit "<actuator>") xmlContent with
            | None => Throw ActuatorNotFound
            | Some act =>
                match indexOf_from (xml "<motor name='") xmlContent act with
                | None => Throw MotorsNotFound
                | Some ms =>
                    match indexOf (lit "</actuator>") xmlContent with
                    | None => Throw ActuatorEndNotFound
                    | Some ae =>
                        Ok (assemble Number_toString xmlContent configs ps pe ms ae)
                    end
                end
            end
        end
    end).
  { subst run. unfold Generator.generateMultiRobotXML.
    destruct configs as [| c1 [| c2 cs]]; [reflexivity | contradiction | reflexivity]. }
  rewrite E. clear E run.
  split; [|split].
  - intros H. unfold indexOf. now rewrite index_from_absent.
  - intros ps -> H.
    destruct (scan_body _ _ _ _ _) as [pe|] eqn:Es; [exfalso | reflexivity].
    apply scan_body_start in Es as (_ & k & _ & Hk). now apply (H k).
  - intros ps pe -> ->. split.
    + intros H. unfold indexOf. now rewrite index_from_absent.
    + intros act ->. split.
      * intros H. unfold indexOf_from. rewrite index_from_absent; [reflexivity|].
        intros k. rewrite drop_drop. apply H. lia.
      * intros ms -> H. unfold indexOf. now rewrite index_from_absent.
Qed.

(** X8. With exactly one config and a template that holds no anchor opener
    followed by a position attribute, [generateMultiRobotXML] returns the
    template as it is: no error is raised and no position is set. *)
Theorem single_config_without_anchor status xmlContent config :
  (forall k, ~ anchor_pos_open [] `prefix_of` drop k xmlContent) ->
  generateMultiRobotXML (Response true status xmlContent) [config] = Ok xmlContent.
Proof.
  intros H. cbn [Generator.generateMultiRobotXML]. f_equal.
  rewrite set_pelvis_pos_eq. apply replace_all_absent.
  intros k. apply exec_pelvis_pos_fail, H.
Qed.

End GeneratorFacts.

(** X3. On a text made of well-formed motor entries, [addPrefixToMotors]
    prefixes the name of every motor, whatever it is, and its joint reference
    unless that begins with the prefix, and copies every other segment. *)
Theorem motors_renamed_by_segment p motors :
  prefix_ok p -> Forall wf_motor_item motors ->
  addPrefixToMotors (render_motors motors) p = render_motors (rename_motor p <$> motors).
Proof. apply addPrefixToMotors_render. Qed.


(** X6. The search for the end of the anchor body succeeds exactly when the
    text begins with a body opener and holds a closer at which the nesting
    depth is back to zero; it returns the position behind the first such
    closer, so that the text up to that position ends with [</body>]. *)
Theorem anchor_end_balances ps s :
  (forall pe, scan_body ps s ps 0 false = Some pe ->
     opener_at s = true
     /\ exists k, pe = ps + k + 7 /\ closes_at s 0 k
                  /\ take (k + 7) s = take k s ++ lit "</body>")
  /\ (forall k, opener_at s = true -> closes_at s 0 k ->
        scan_body ps s ps 0 false = Some (ps + k + 7)).
Proof.
  split.
  - intros pe H. apply scan_body_start in H as (Ho & k & -> & Hk).
    split; [exact Ho|]. exists k. split; [reflexivity|]. split; [exact Hk|].
    destruct Hk as (_ & Hc & _). unfold closer_at, startsWith in Hc.
    apply bool_decide_eq_true in Hc as [rest Hc].
    rewrite take_add_drop, Hc. f_equal.
  - intros k Ho Hk. apply scan_body_start. split; [exact Ho|]. now exists k.
Qed.

End SceneTextFacts.

(* ===================================================================== *)
(** ** Instances for the generator                                       *)
(* ===================================================================== *)

Module GeneratorWitnesses.
Import JS Regex Generator Markup RegexFacts PositionFacts PatternFacts MarkupFacts MotorFacts SearchFacts SceneTextFacts.
Import Examples MarkupExamples.



Lemma motors_renamed_by_segment_witness :
  addPrefixToMotors (render_motors motor_doc) (robotId 1)
  = render_motors (rename_motor (robotId 1) <$> motor_doc).
Proof.
  apply motors_renamed_by_segment.
  - apply prefix_ok_b_true. vm_compute. reflexivity.
  - eapply forallb_Forall; [apply wf_motor_item_b_true|]. vm_compute. reflexivity.
Defined.


Lemma multi_robot_scene_text_witness :
  generateMultiRobotXML show_int (Response true 200 template) [config 1 2 3; config 4 5 6]
  = Ok (take 19 template
        ++ mjoin ((fun ic : nat * Config.t =>
                     render (clone_item ic.1 (pos_of show_int ic.2) <$> anchor_doc)
                     ++ lit (String "010" "        "))
                  <$> indexed [config 1 2 3; config 4 5 6])
        ++ substring 274 296 template
        ++ mjoin ((fun ic : nat * Config.t => render_motors (clone_motor ic.1 <$> motor_doc))
                  <$> indexed [config 1 2 3; config 4 5 6])
        ++ drop 337 template).
Proof.
  apply (multi_robot_scene_text show_int 200 template [config 1 2 3; config 4 5 6]
           19 274 286 296 337 anchor_doc motor_doc).
  - cbn. lia.
  - vm_compute. reflexivity.
  - vm_compute. reflexivity.
  - vm_compute. reflexivity.
  - vm_compute. reflexivity.
  - vm_compute. reflexivity.
  - vm_compute. reflexivity.
  - apply Forall_wf_check. vm_compute. reflexivity.
  - vm_compute. reflexivity.
  - eapply forallb_Forall; [apply wf_motor_item_b_true|]. vm_compute. reflexivity.
Defined.

Lemma anchor_end_balances_witness :
  opener_at (drop 19 template) = true
  /\ exists k, 274 = 19 + k + 7 /\ closes_at (drop 19 template) 0 k
               /\ take (k + 7) (drop 19 template)
                  = take k (drop 19 template) ++ lit "</body>".
Proof.
  apply (proj1 (anchor_end_balances 19 (drop 19 template)) 274).
  vm_compute. reflexivity.
Defined.

Lemma missing_part_errors_witness :
  generateMultiRobotXML show_int (Response true 200 template_bare)
    [config 1 2 3; config 4 5 6] = Throw PelvisNotFound
  /\ generateMultiRobotXML show_int (Response true 200 template_open)
       [config 1 2 3; config 4 5 6] = Throw PelvisEndNotFound.
Proof.
  split.
  - apply (missing_part_errors show_int 200 template_bare [config 1 2 3; config 4 5 6]);
      [cbn; lia|].
    apply no_occurrence_check. vm_compute. reflexivity.
  - apply (proj1 (proj2 (missing_part_errors show_int 200 template_open
                           [config 1 2 3; config 4 5 6] ltac:(cbn; lia))) 19).
    + vm_compute. reflexivity.
    + intros k Hk.
      assert (H : scan_body 19 (drop 19 template_open) 19 0 false = Some (19 + k + 7)).
      { apply scan_body_start. split; [vm_compute; reflexivity | now exists k]. }
      vm_compute in H. discriminate H.
Defined.

Lemma single_config_without_anchor_witness :
  generateMultiRobotXML show_int (Response true 200 template_bare) [config 1 2 3]
  = Ok template_bare.
Proof.
  apply single_config_without_anchor.
  apply no_occurrence_check. vm_compute. reflexivity.
Defined.

End GeneratorWitnesses.

(* ===================================================================== *)
(** ** Integers as numbers                                              *)
(* ===================================================================== *)

Module NumberFacts.
Import JS JSFacts.

Lemma digits2_pos_size p : digits2_pos p = Pos.size p.
Proof. induction p; cbn; congruence. Qed.

Lemma digits2_pos_bounds p :
  (2 ^ (Zpos (digits2_pos p) - 1) <= Zpos p < 2 ^ Zpos (digits2_pos p))%Z.
Proof.
  rewrite digits2_pos_size.
  pose proof (Pos.size_gt p) as Hgt. pose proof (Pos.size_le p) as Hle.
  apply Pos2Z.pos_lt_pos in Hgt. apply Pos2Z.pos_le_pos in Hle.
  rewrite Pos2Z.inj_pow in Hgt, Hle. change (Zpos 2) with 2%Z in Hgt, Hle.
  rewrite (Pos2Z.inj_xO p) in Hle.
  split; [|exact Hgt].
  assert (E : (2 ^ Zpos (Pos.size p) = 2 * 2 ^ (Zpos (Pos.size p) - 1))%Z).
  { rewrite <- Z.pow_succ_r by lia. f_equal. lia. }
  rewrite E in Hle. lia.
Qed.

Lemma iter_xO_mul p n : Zpos (Pos.iter xO p n) = (Zpos p * 2 ^ Zpos n)%Z.
Proof.
  pose proof (shift_pos_correct n p) as H. unfold shift_pos in H.
  rewrite H, Z.pow_pos_fold. lia.
Qed.

Lemma digits2_pos_iter_xO p n :
  Zpos (digits2_pos (Pos.iter xO p n)) = (Zpos (digits2_pos p) + Zpos n)%Z.
Proof.
  induction n as [| n IH] using Pos.peano_ind.
  - cbn. lia.
  - rewrite Pos.iter_succ. cbn [digits2_pos]. lia.
Qed.

(** The number of an integer below [2^53] in absolute value: the integer
    itself, with its 53-digit mantissa. *)
Lemma binary_round_exact s p :
  (Zpos p < 2 ^ 53)%Z ->
  exists m e,
    binary_round prec emax s p 0 = S754_finite s m e
    /\ (-52 <= e <= 0)%Z /\ (Zpos m = Zpos p * 2 ^ (- e))%Z
    /\ e = (Zpos (digits2_pos p) - 53)%Z.
Proof.
  intros Hp. pose proof (digits2_pos_bounds p) as [Hlo Hhi].
  assert (Hd : (1 <= Zpos (digits2_pos p) <= 53)%Z).
  { split; [lia|]. destruct (Z_le_gt_dec (Zpos (digits2_pos p)) 53) as [H | H]; [exact H|].
    exfalso. assert (2 ^ 53 <= 2 ^ (Zpos (digits2_pos p) - 1))%Z; [|lia].
    apply Z.pow_le_mono_r; lia. }
  assert (Haux : forall m e, Zpos (digits2_pos m) = 53%Z -> (-52 <= e <= 0)%Z ->
            binary_round_aux prec emax s (Zpos m) e loc_Exact = S754_finite s m e).
  { intros m e Hm He. unfold binary_round_aux, shr_fexp. cbn [Zdigits2]. rewrite Hm.
    assert (E : (fexp prec emax (53 + e) - e = 0)%Z).
    { unfold fexp, emin, prec, emax. lia. }
    rewrite E. cbn [shr shr_record_of_loc shr_m loc_of_shr_record round_nearest_even].
    cbn [Zdigits2]. rewrite Hm, E. cbn [shr shr_record_of_loc shr_m].
    destruct (Z.leb_spec e (emax - prec)) as [_ | H]; [reflexivity|].
    unfold emax, prec in H. lia. }
  unfold binary_round, shl_align. rewrite Z.add_0_r.
  assert (E : (fexp prec emax (Zpos (digits2_pos p)) = Zpos (digits2_pos p) - 53)%Z).
  { unfold fexp, emin, prec, emax. lia. }
  rewrite E, Z.sub_0_r.
  destruct (Zpos (digits2_pos p) - 53)%Z as [| q | q] eqn:Eq; [|lia|].
  - exists p, 0%Z. rewrite Haux by lia. repeat split; lia.
  - exists (Pos.iter xO p q), (Zneg q). rewrite Haux.
    + repeat split; try lia. rewrite iter_xO_mul. reflexivity.
    + rewrite digits2_pos_iter_xO. lia.
    + lia.
Qed.

Lemma of_Z_pos p :
  (Zpos p < 2 ^ 53)%Z ->
  exists m e,
    of_Z (Zpos p) = S754_finite false m e
    /\ (-52 <= e <= 0)%Z /\ (Zpos m = Zpos p * 2 ^ (- e))%Z
    /\ e = (Zpos (digits2_pos p) - 53)%Z.
Proof. apply binary_round_exact. Qed.

Lemma of_Z_neg p :
  (Zpos p < 2 ^ 53)%Z -> exists m e, of_Z (Zneg p) = S754_finite true m e.
Proof.
  intros H. destruct (binary_round_exact true p H) as (m & e & E & _). now exists m, e.
Qed.

(** Numbers of integers are ordered as the integers. *)
Lemma compare_of_Z a b :
  (0 <= a < 2 ^ 53)%Z -> (0 <= b < 2 ^ 53)%Z ->
  SFcompare (of_Z a) (of_Z b) = Some (a ?= b)%Z.
Proof.
  intros Ha Hb.
  destruct a as [| pa | pa]; [| | lia]; destruct b as [| pb | pb]; try lia.
  - reflexivity.
  - destruct (of_Z_pos pb) as (m & e & -> & _); [lia | reflexivity].
  - destruct (of_Z_pos pa) as (m & e & -> & _); [lia | reflexivity].
  - destruct (of_Z_pos pa) as (ma & ea & -> & Hea & Hma & Eea); [lia|].
    destruct (of_Z_pos pb) as (mb & eb & -> & Heb & Hmb & Eeb); [lia|].
    pose proof (digits2_pos_bounds pa) as [La Ua].
    pose proof (digits2_pos_bounds pb) as [Lb Ub].
    cbn [SFcompare]. f_equal.
    destruct (Z.compare_spec ea eb) as [E | E | E].
    + transitivity (Zpos ma ?= Zpos mb)%Z; [reflexivity|].
      rewrite Hma, Hmb, E.
      assert (HK : (0 < 2 ^ (- eb))%Z) by (apply Z.pow_pos_nonneg; lia).
      destruct (Z.compare_spec (Zpos pa) (Zpos pb)) as [H | H | H].
      * rewrite H. apply Z.compare_refl.
      * apply Z.compare_lt_iff. nia.
      * apply Z.compare_gt_iff. nia.
    + symmetry. apply Z.compare_lt_iff.
      assert (2 ^ Zpos (digits2_pos pa) <= 2 ^ (Zpos (digits2_pos pb) - 1))%Z; [|lia].
      apply Z.pow_le_mono_r; lia.
    + symmetry. apply Z.compare_gt_iff.
      assert (2 ^ Zpos (digits2_pos pb) <= 2 ^ (Zpos (digits2_pos pa) - 1))%Z; [|lia].
      apply Z.pow_le_mono_r; lia.
Qed.

Lemma lt_of_Z a b :
  (0 <= a < 2 ^ 53)%Z -> (0 <= b < 2 ^ 53)%Z -> lt (of_Z a) (of_Z b) = (a <? b)%Z.
Proof.
  intros Ha Hb. unfold lt, SFltb, Z.ltb. rewrite (compare_of_Z a b Ha Hb).
  now destruct (a ?= b)%Z.
Qed.

Lemma le_of_Z a b :
  (0 <= a < 2 ^ 53)%Z -> (0 <= b < 2 ^ 53)%Z -> le (of_Z a) (of_Z b) = (a <=? b)%Z.
Proof.
  intros Ha Hb. unfold le, SFleb, Z.leb. rewrite (compare_of_Z a b Ha Hb).
  now destruct (a ?= b)%Z.
Qed.

(** [Math.max(0, i)] of an integer [i]. *)
Lemma Math_max_zero_of_Z i :
  (- 2 ^ 53 < i < 2 ^ 53)%Z -> Math_max pzero (of_Z i) = of_Z (Z.max 0 i).
Proof.
  intros Hi. destruct i as [| p | p].
  - reflexivity.
  - destruct (of_Z_pos p) as (m & e & E & _); [lia|].
    rewrite Z.max_r by lia. now rewrite E.
  - destruct (of_Z_neg p) as (m & e & E); [lia|]. now rewrite E.
Qed.

End NumberFacts.

(* ===================================================================== *)
(** ** The loop: idle passes and the control entries written            *)
(* ===================================================================== *)

Module LoopFacts.
Import JS JSFacts Demo ControlFacts TickFacts.

Section LoopFacts.
Variables mj_step drag : Simulation -> Simulation.
Abbreviation tick := (Demo.tick mj_step drag).
Abbreviation main_loop := (Demo.main_loop mj_step drag).
Abbreviation main_loop_from := (Demo.main_loop_from mj_step drag).

Lemma tick_idle oracle d :
  paused (params d) = true \/ model d = None \/ data d = false
  \/ simulation d = None \/ hasPolicyRunner d = false ->
  tick oracle d = {| demo := d; trace := []; broke := false |}.
Proof.
  intros H. unfold Demo.tick.
  destruct (model d) as [m|]; [|reflexivity].
  destruct (simulation d) as [sim|]; [|reflexivity].
  destruct H as [-> | [H | [-> | [H | ->]]]]; try discriminate; try reflexivity.
  - now rewrite andb_false_r.
  - now rewrite andb_false_r.
Qed.

Lemma main_loop_from_idle fuel n oracles d :
  paused (params d) = true \/ model d = None \/ data d = false
  \/ simulation d = None \/ hasPolicyRunner d = false ->
  main_loop_from fuel n oracles d = (d, []).
Proof.
  intros H. revert n. induction fuel as [| fuel IH]; intros n; [reflexivity|].
  cbn [Demo.main_loop_from]. destruct (alive d); [|reflexivity].
  rewrite (tick_idle _ d H). cbn [broke demo trace]. now rewrite IH.
Qed.


Hypothesis mj_step_ctrl : forall s, ctrl (mj_step s) = ctrl s.
Hypothesis drag_ctrl : forall s, ctrl (drag s) = ctrl s.

Lemma phase_writes_mapped d ats s w c :
  (forall r m, mjoin (robotJointMappings d !! r) = Some m ->
               c ∉ Mapping.ctrl_adr_policy m) ->
  c ∉ ctrl_adr_policy d ->
  w ∈ phase_writes d ats s -> write_adr w <> Some c.
Proof.
  intros Hmulti Hsingle Hw Hadr. unfold phase_writes in Hw.
  destruct (control_type d); try (inversion Hw; fail).
  destruct (isMultiRobot d).
  - apply list_elem_of_join in Hw as (ws & Hw & Hws).
    apply list_elem_of_fmap in Hws as (r & -> & _).
    apply elem_of_robot_writes in Hw as (m & i & Hm & _ & _ & ->).
    cbn in Hadr. apply (Hmulti r m Hm). now apply list_elem_of_lookup_2 in Hadr.
  - unfold single_writes in Hw. apply list_elem_of_fmap in Hw as (i & -> & _).
    cbn in Hadr. apply Hsingle. now apply list_elem_of_lookup_2 in Hadr.
Qed.

Lemma tick_simulation oracle d sim sim' :
  running d sim -> simulation (demo (tick oracle d)) = Some sim' ->
  sim' = sim
  \/ exists d1 ats,
       control_type d1 = control_type d
       /\ robotJointMappings d1 = robotJointMappings d
       /\ ctrl_adr_policy d1 = ctrl_adr_policy d
       /\ sim' = (run_substeps mj_step drag d1 ats sim (seq 0 (decimation d))).1.
Proof.
  intros Hrun. destruct (isMultiRobot d) eqn:Hmode.
  - rewrite (tick_multi mj_step drag oracle d sim Hrun Hmode).
    destruct (infer_multi _ _ _ _ _ _) as [[ats|] tr]; cbn.
    + intros [= <-]. right.
      exists (set_actionTarget (default VUndefined (ats !! 0)) d), ats.
      repeat split; reflexivity.
    + destruct Hrun as (_ & -> & _). intros [= <-]. now left.
  - rewrite (tick_single mj_step drag oracle d sim Hrun Hmode). cbn zeta.
    destruct (oracle _ _) as [v|]; cbn.
    + intros [= <-]. right. exists (set_actionTarget v d), {[ 0 := v ]}.
      repeat split; reflexivity.
    + destruct Hrun as (_ & -> & _). intros [= <-]. now left.
Qed.

(** X10. A pass of the loop whose guard holds leaves every entry of [ctrl]
    that no joint mapping addresses (neither the [ctrl_adr_policy] of an
    entry of [robotJointMappings] nor [this.ctrl_adr_policy]) as it was,
    given that the engine's [step] and the drag force leave [ctrl] alone;
    with a control type other than [joint_position] the pass leaves the whole
    of [ctrl] as it was. *)
Theorem pass_writes_only_mapped oracle d sim sim' :
  running d sim -> simulation (demo (tick oracle d)) = Some sim' ->
  (forall c,
     (forall r m, mjoin (robotJointMappings d !! r) = Some m ->
                  c ∉ Mapping.ctrl_adr_policy m) ->
     c ∉ ctrl_adr_policy d ->
     ctrl sim' !! c = ctrl sim !! c)
  /\ (control_type d <> joint_position -> ctrl sim' = ctrl sim).
Proof using mj_step_ctrl drag_ctrl.
  intros Hrun Hsim.
  destruct (tick_simulation oracle d sim sim' Hrun Hsim)
    as [-> | (d1 & ats & Hct & Hmap & Hadr & ->)]; [split; reflexivity|].
  split.
  - intros c Hmulti Hsingle.
    apply (run_substeps_untouched mj_step drag mj_step_ctrl drag_ctrl).
    intros s' w. apply phase_writes_mapped.
    + now rewrite Hmap.
    + now rewrite Hadr.
  - intros Htype. apply list_eq. intros c.
    apply (run_substeps_untouched mj_step drag mj_step_ctrl drag_ctrl).
    intros s' w Hw. exfalso. unfold phase_writes in Hw. rewrite Hct in Hw.
    destruct (control_type d); [contradiction | inversion Hw | inversion Hw].
Qed.

End LoopFacts.

End LoopFacts.

(* ===================================================================== *)
(** ** The spawn poses and the pelvis bodies recorded                   *)
(* ===================================================================== *)

Module PlacementFacts.
Import JS JSFacts Demo ControlFacts ResetFacts.

Lemma find_body_seq m name n : forall i b,
  find_body m name (seq i n) = Some b <->
  i <= b < i + n /\ bodyName m b = name
  /\ forall b', i <= b' < b -> bodyName m b' <> name.
Proof.
  induction n as [| n IH]; intros i b; cbn [seq find_body].
  - split; [discriminate | lia].
  - case_bool_decide as Hi.
    + split.
      * intros [= <-]. repeat split; [lia | lia | exact Hi | lia].
      * intros (Hb & Hname & Hmin). f_equal.
        destruct (decide (i = b)) as [-> | Hne]; [reflexivity|].
        exfalso. apply (Hmin i); [lia | exact Hi].
    + rewrite IH. split.
      * intros (Hb & Hname & Hmin). repeat split; [lia | lia | exact Hname |].
        intros b' Hb'. destruct (decide (b' = i)) as [-> | Hne]; [exact Hi|].
        apply Hmin. lia.
      * intros (Hb & Hname & Hmin).
        assert (b <> i) by (intros ->; contradiction).
        repeat split; [lia | lia | exact Hname |].
        intros b' Hb'. apply Hmin. lia.
Qed.

Lemma foldl_place_config_ids m L : forall ids qpos k,
  (foldl (place_config m) (ids, qpos) L).1 !! k =
  match (if bool_decide (k ∈ L.*1) then pelvisBodyId_of m k else None) with
  | Some b => Some b
  | None => ids !! k
  end.
Proof.
  induction L as [| [k' c'] L IH]; intros ids qpos k; [reflexivity|].
  cbn [foldl place_config fmap list_fmap fst].
  destruct (pelvisBodyId_of m k') as [b'|] eqn:Eb; rewrite IH.
  - case_bool_decide as H1; case_bool_decide as H2.
    + destruct (pelvisBodyId_of m k) eqn:Ek; [reflexivity|].
      rewrite lookup_insert_ne; [reflexivity|]. intros ->. congruence.
    + exfalso. apply H2. now right.
    + apply elem_of_cons in H2 as [-> | H2]; [|contradiction].
      rewrite Eb. apply lookup_insert_eq.
    + rewrite lookup_insert_ne; [reflexivity|]. intros ->. apply H2. left.
  - case_bool_decide as H1; case_bool_decide as H2.
    + reflexivity.
    + exfalso. apply H2. now right.
    + apply elem_of_cons in H2 as [-> | H2]; [|contradiction].
      now rewrite Eb.
    + reflexivity.
Qed.

Lemma foldl_place_config_outside m len t L : forall ids qpos,
  length qpos = len ->
  (forall k c a, (k, c) ∈ L -> spawn_adr m len k = Some a -> t < a \/ a + 6 < t) ->
  (foldl (place_config m) (ids, qpos) L).2 !! t = qpos !! t.
Proof.
  induction L as [| [k c] L IH]; intros ids qpos Hlen Hout; [reflexivity|].
  cbn [foldl].
  destruct (place_config m (ids, qpos) (k, c)) as [ids' qpos'] eqn:E.
  assert (Hq : qpos' = (place_config m (ids, qpos) (k, c)).2) by now rewrite E.
  rewrite IH.
  - rewrite Hq, place_config_qpos, Hlen.
    destruct (spawn_adr m len k) as [a|] eqn:Ea; [|reflexivity].
    apply set_pose_outside. apply (Hout k c a); [left | exact Ea].
  - rewrite Hq, place_config_length. exact Hlen.
  - intros k0 c0 a0 H0. apply (Hout k0 c0 a0). now right.
Qed.

Lemma indexed_keys {A} (l : list A) : (Generator.indexed l).*1 = seq 0 (length l).
Proof. unfold Generator.indexed. apply fst_zip. now rewrite length_seq. Qed.

Lemma pelvisBodyId_of_spec m k b :
  pelvisBodyId_of m k = Some b <->
  b < nbody m /\ bodyName m b = list_ascii_of_string (robotPrefix k)
  /\ forall b', b' < b -> bodyName m b' <> list_ascii_of_string (robotPrefix k).
Proof.
  unfold pelvisBodyId_of. rewrite find_body_seq. split.
  - intros (Hb & Hname & Hmin). repeat split; [lia | exact Hname |].
    intros b' Hb'. apply Hmin. lia.
  - intros (Hb & Hname & Hmin). repeat split; [lia | lia | exact Hname |].
    intros b' Hb'. apply Hmin. lia.
Qed.

Section PlacementFacts.
Variable mj_forward : Simulation -> Simulation.
Abbreviation setMultiRobotInitialPositions := (Demo.setMultiRobotInitialPositions mj_forward).

Lemma initial_positions_ids d m sim :
  1 < length (robotConfigs d) -> model d = Some m -> data d = true ->
  simulation d = Some sim ->
  forall k, robotPelvisBodyIds (setMultiRobotInitialPositions d).1 !! k
            = if k <? length (robotConfigs d) then pelvisBodyId_of m k else None.
Proof.
  intros Hn Hm Hd Hs k. unfold Demo.setMultiRobotInitialPositions.
  rewrite (proj2 (Nat.leb_gt _ _) Hn), Hm, Hd, Hs.
  destruct (foldl _ _ _) as [ids qpos'] eqn:E. cbn [fst].
  assert (Hids : ids = (foldl (place_config m) (∅, qpos sim)
                          (Generator.indexed (robotConfigs d))).1) by now rewrite E.
  cbn [robotPelvisBodyIds set_simulation set_robotPelvisBodyIds].
  rewrite Hids, foldl_place_config_ids, indexed_keys, lookup_empty.
  destruct (Nat.ltb_spec k (length (robotConfigs d))) as [Hk | Hk].
  - rewrite bool_decide_eq_true_2 by (rewrite elem_of_seq; lia).
    now destruct (pelvisBodyId_of m k).
  - rewrite bool_decide_eq_false_2 by (rewrite elem_of_seq; lia). reflexivity.
Qed.

(** X11. With more than one config and model, data and simulation loaded,
    [setMultiRobotInitialPositions] records for each robot index below the
    number of configs the id of the first body named [pelvis] (index 0) or
    [robot{index+1}_pelvis], and nothing where no body has that name or for
    any other index; it leaves [qvel], [ctrl] and [qfrc_applied] as they
    were, keeps the length of [qpos], changes no [qpos] entry outside the
    seven entries at the free joint address of a robot, and runs [forward]
    on the result. *)
Theorem initial_positions_record_bodies d m sim :
  1 < length (robotConfigs d) -> model d = Some m -> data d = true ->
  simulation d = Some sim ->
  let d' := (setMultiRobotInitialPositions d).1 in
  (forall k, robotPelvisBodyIds d' !! k
             = if k <? length (robotConfigs d) then pelvisBodyId_of m k else None)
  /\ (forall k b,
        pelvisBodyId_of m k = Some b <->
        b < nbody m /\ bodyName m b = list_ascii_of_string (robotPrefix k)
        /\ forall b', b' < b -> bodyName m b' <> list_ascii_of_string (robotPrefix k))
  /\ exists s, simulation d' = Some (mj_forward s)
       /\ qvel s = qvel sim /\ ctrl s = ctrl sim /\ qfrc_applied s = qfrc_applied sim
       /\ length (qpos s) = length (qpos sim)
       /\ forall t,
            (forall k a, k < length (robotConfigs d) ->
                         spawn_adr m (length (qpos sim)) k = Some a ->
                         t < a \/ a + 6 < t) ->
            qpos s !! t = qpos sim !! t.
Proof.
  intros Hn Hm Hd Hs d'. split; [|split].
  - apply (initial_positions_ids d m sim Hn Hm Hd Hs).
  - apply pelvisBodyId_of_spec.
  - subst d'. unfold Demo.setMultiRobotInitialPositions.
    rewrite (proj2 (Nat.leb_gt _ _) Hn), Hm, Hd, Hs.
    destruct (foldl _ _ _) as [ids qpos'] eqn:E. cbn [fst].
    assert (Hq : qpos' = (foldl (place_config m) (∅, qpos sim)
                            (Generator.indexed (robotConfigs d))).2) by now rewrite E.
    exists (set_qpos qpos' sim). cbn. repeat split.
    + rewrite Hq. apply foldl_place_config_length.
    + intros t Hout. rewrite Hq.
      apply (foldl_place_config_outside m (length (qpos sim))); [reflexivity|].
      intros k c a Hin. apply (Hout k a).
      apply elem_of_indexed in Hin. eapply lookup_lt_Some; eauto.
Qed.

End PlacementFacts.

End PlacementFacts.

(* ===================================================================== *)
(** ** Motion requests                                                  *)
(* ===================================================================== *)

Module MotionFacts.
Import JS JSFacts Demo RequestFacts RequestViews.

Lemma set_robotConfigs_eta d : set_robotConfigs (robotConfigs d) d = d.
Proof. now destruct d. Qed.

Lemma set_robotConfigs_twice rc rc' d :
  set_robotConfigs rc' (set_robotConfigs rc d) = set_robotConfigs rc' d.
Proof. reflexivity. Qed.

Lemma insert_alter_motion (rc : list Config.t) i c s :
  rc !! i = Some c -> <[i := Config.set_motion s c]> rc = alter (Config.set_motion s) i rc.
Proof.
  intros H. apply list_eq. intros k. destruct (decide (k = i)) as [-> | Hne].
  - rewrite list_lookup_alter_eq, H. apply list_lookup_insert_eq. eapply lookup_lt_Some, H.
  - rewrite list_lookup_insert_ne by congruence.
    now rewrite list_lookup_alter_ne by congruence.
Qed.

Lemma alter_motion_absent (rc : list Config.t) i s :
  rc !! i = None -> alter (Config.set_motion s) i rc = rc.
Proof.
  intros H. apply list_eq. intros k. destruct (decide (k = i)) as [-> | Hne].
  - now rewrite list_lookup_alter_eq, H.
  - now rewrite list_lookup_alter_ne by congruence.
Qed.

Lemma applyToRobot_configs d rc s force i sim :
  simulation d = Some sim ->
  exists tr,
    applyToRobot (set_robotConfigs rc d) s force i
    = Some (set_robotConfigs
              (if accepts d s force i then alter (Config.set_motion s) i rc else rc) d,
            tr, accepts d s force i)
    /\ filter (fun e => is_ApplyToRobot e = true) tr = [ApplyToRobot i].
Proof.
  intros Hsim. unfold accepts, applyToRobot.
  change (runners_of (set_robotConfigs rc d)) with (runners_of d).
  change (simulation (set_robotConfigs rc d)) with (simulation d).
  change (isMultiRobot (set_robotConfigs rc d)) with (isMultiRobot d).
  destruct (mjoin (runners_of d !! i) ≫= tracking) as [t|];
    [|exists [ApplyToRobot i]; split; reflexivity].
  destruct (negb _); [exists [ApplyToRobot i]; split; reflexivity|].
  rewrite Hsim.
  change (readPolicyStateForRobot (set_robotConfigs rc d) sim i)
    with (readPolicyStateForRobot d sim i).
  change (readPolicyState (set_robotConfigs rc d) sim) with (readPolicyState d sim).
  destruct (force && has_startMotionFromCurrent t).
  - cbn [robotConfigs set_robotConfigs].
    destruct (rc !! i) as [c|] eqn:E; rewrite ?set_robotConfigs_twice.
    + eexists; split; [now rewrite (insert_alter_motion rc i c s E) | reflexivity].
    + eexists; split; [now rewrite (alter_motion_absent rc i s E) | reflexivity].
  - destruct (tracking_requestMotion t s _).
    + cbn [robotConfigs set_robotConfigs].
      destruct (rc !! i) as [c|] eqn:E; rewrite ?set_robotConfigs_twice.
      * eexists; split; [now rewrite (insert_alter_motion rc i c s E) | reflexivity].
      * eexists; split; [now rewrite (alter_motion_absent rc i s E) | reflexivity].
    + eexists; split; reflexivity.
Qed.

Lemma apply_all_configs d s force sim idxs :
  simulation d = Some sim ->
  forall rc all, exists tr,
    apply_all (set_robotConfigs rc d) s force idxs all
    = Some (set_robotConfigs
              (foldl (fun rc i => if accepts d s force i
                                  then alter (Config.set_motion s) i rc else rc) rc idxs) d,
            tr, all && forallb (accepts d s force) idxs)
    /\ filter (fun e => is_ApplyToRobot e = true) tr = ApplyToRobot <$> idxs.
Proof.
  intros Hsim. induction idxs as [| i idxs IH]; intros rc all.
  - exists []. cbn. now rewrite andb_true_r.
  - cbn [apply_all foldl forallb].
    destruct (applyToRobot_configs d rc s force i sim Hsim) as (tr1 & -> & F1).
    destruct (IH (if accepts d s force i then alter (Config.set_motion s) i rc else rc)
                 (all && accepts d s force i)) as (tr2 & -> & F2).
    exists (tr1 ++ tr2). split.
    + now rewrite andb_assoc.
    + now rewrite filter_app, F1, F2.
Qed.

Lemma set_motion_twice s c :
  Config.set_motion s (Config.set_motion s c) = Config.set_motion s c.
Proof. reflexivity. Qed.

Lemma foldl_alter_lookup (acc : nat -> bool) s idxs : forall (rc : list Config.t) k,
  foldl (fun rc i => if acc i then alter (Config.set_motion s) i rc else rc) rc idxs !! k
  = (if bool_decide (k ∈ idxs) && acc k then Config.set_motion s else id) <$> rc !! k.
Proof.
  induction idxs as [| i idxs IH]; intros rc k.
  - cbn. now destruct (rc !! k).
  - cbn [foldl]. rewrite IH.
    destruct (decide (k = i)) as [-> | Hne].
    + rewrite (bool_decide_eq_true_2 (i ∈ i :: idxs)) by left. cbn [andb].
      destruct (acc i).
      * rewrite list_lookup_alter_eq. rewrite andb_true_r.
        destruct (rc !! i); [|now destruct (bool_decide _)].
        cbn. now destruct (bool_decide _).
      * rewrite andb_false_r. reflexivity.
    + assert (E : bool_decide (k ∈ i :: idxs) = bool_decide (k ∈ idxs)).
      { apply bool_decide_ext. rewrite elem_of_cons. tauto. }
      rewrite E. destruct (acc i); [|reflexivity].
      now rewrite list_lookup_alter_ne by congruence.
Qed.

Lemma foldl_alter_length (acc : nat -> bool) s idxs : forall (rc : list Config.t),
  length (foldl (fun rc i => if acc i then alter (Config.set_motion s) i rc else rc) rc idxs)
  = length rc.
Proof.
  induction idxs as [| i idxs IH]; intros rc; [reflexivity|].
  cbn [foldl]. rewrite IH. destruct (acc i); [apply length_alter | reflexivity].
Qed.

Lemma requestMotion_broadcast d s force :
  s <> EmptyString -> runners_of d <> [] ->
  forall robotIndex, robotIndex = VNull \/ robotIndex = VUndefined ->
  requestMotion d (VString s) robotIndex force
  = match apply_all d s force (seq 0 (length (runners_of d))) true with
    | None => None
    | Some (d, tr, allAccepted) =>
        Some (if allAccepted then set_current_motion s d else d, tr, allAccepted)
    end.
Proof.
  intros Hs Hr robotIndex Hi. unfold requestMotion. cbn [truthy].
  destruct (String.eqb_spec s EmptyString) as [E | _]; [contradiction|].
  assert (Hn : length (runners_of d) <> 0) by (destruct (runners_of d); [congruence | discriminate]).
  rewrite (proj2 (Nat.eqb_neq _ 0) Hn). cbn [negb orb].
  now destruct Hi as [-> | ->].
Qed.

(** X13. A request for all robots (null or missing index, a non-empty
    name, at least one runner, simulation loaded) calls [applyToRobot] for
    every runner in index order, also after one has refused; it returns true
    exactly when all accepted, records the motion on the config of each robot
    that accepted, sets [params.current_motion] to the name only when all
    accepted, and changes nothing else. *)
Theorem broadcast_asks_every_runner d s robotIndex force sim :
  s <> EmptyString -> runners_of d <> [] -> simulation d = Some sim ->
  robotIndex = VNull \/ robotIndex = VUndefined ->
  let n := length (runners_of d) in
  let all := forallb (accepts d s force) (seq 0 n) in
  exists d' tr,
    requestMotion d (VString s) robotIndex force = Some (d', tr, all)
    /\ filter (fun e => is_ApplyToRobot e = true) tr = ApplyToRobot <$> seq 0 n
    /\ (forall i, robotConfigs d' !! i
                  = (if (i <? n) && accepts d s force i then Config.set_motion s else id)
                      <$> robotConfigs d !! i)
    /\ params d' = (if all then {| paused := paused (params d); current_motion := s |}
                    else params d)
    /\ d' = set_params (params d') (set_robotConfigs (robotConfigs d') d).
Proof.
  intros Hs Hr Hsim Hi n all.
  rewrite (requestMotion_broadcast d s force Hs Hr robotIndex Hi). fold n.
  destruct (apply_all_configs d s force sim (seq 0 n) Hsim (robotConfigs d) true)
    as (tr & E & F).
  rewrite set_robotConfigs_eta in E. rewrite E. cbn [andb]. fold all.
  eexists _, tr. split; [reflexivity|]. split; [exact F|].
  assert (Hin : forall i, bool_decide (i ∈ seq 0 n) = (i <? n)).
  { intros i. destruct (Nat.ltb_spec i n).
    - apply bool_decide_eq_true_2, elem_of_seq. lia.
    - apply bool_decide_eq_false_2. rewrite elem_of_seq. lia. }
  destruct all; cbn [params set_current_motion set_params robotConfigs set_robotConfigs].
  - split; [|split; [reflexivity|]].
    + intros i. now rewrite foldl_alter_lookup, Hin.
    + destruct d; reflexivity.
  - split; [|split; [reflexivity|]].
    + intros i. now rewrite foldl_alter_lookup, Hin.
    + destruct d; reflexivity.
Qed.

(** X12. With a simulation loaded, [requestMotion] returns for every name
    and index, and changes nothing but [params.current_motion] and the
    [motion] of entries of [robotConfigs]: [paused], the simulation, the
    runners and every other field are as before, and the configs keep their
    number and coordinates.  [current_motion] changes only when the request
    went to all robots (null or missing index) and all of them accepted. *)
Theorem requestMotion_touches_motions_only d name robotIndex force sim :
  simulation d = Some sim ->
  exists d' tr b,
    requestMotion d name robotIndex force = Some (d', tr, b)
    /\ d' = set_params (params d') (set_robotConfigs (robotConfigs d') d)
    /\ paused (params d') = paused (params d)
    /\ (current_motion (params d') <> current_motion (params d) ->
        b = true /\ name = VString (current_motion (params d'))
        /\ (robotIndex = VNull \/ robotIndex = VUndefined))
    /\ length (robotConfigs d') = length (robotConfigs d)
    /\ (forall k c, robotConfigs d !! k = Some c ->
          robotConfigs d' !! k = Some c
          \/ exists s, name = VString s /\ robotConfigs d' !! k = Some (Config.set_motion s c)).
Proof.
  intros Hsim.
  assert (Hsame : exists d' tr b, Some (d, @nil event, false) = Some (d', tr, b)
    /\ d' = set_params (params d') (set_robotConfigs (robotConfigs d') d)
    /\ paused (params d') = paused (params d)
    /\ (current_motion (params d') <> current_motion (params d) ->
        b = true /\ name = VString (current_motion (params d'))
        /\ (robotIndex = VNull \/ robotIndex = VUndefined))
    /\ length (robotConfigs d') = length (robotConfigs d)
    /\ (forall k c, robotConfigs d !! k = Some c ->
          robotConfigs d' !! k = Some c
          \/ exists s, name = VString s /\ robotConfigs d' !! k = Some (Config.set_motion s c))).
  { exists d, [], false. split; [reflexivity|]. split; [now destruct d|].
    split; [reflexivity|]. split; [congruence|]. split; [reflexivity|]. intros; now left. }
  destruct name as [| | | | s | | |]; try exact Hsame.
  unfold requestMotion. destruct (negb _ || _) eqn:Eearly; [exact Hsame|].
  assert (Hone : forall i, exists d' tr b, applyToRobot d s force i = Some (d', tr, b)
    /\ d' = set_params (params d') (set_robotConfigs (robotConfigs d') d)
    /\ paused (params d') = paused (params d)
    /\ (current_motion (params d') <> current_motion (params d) ->
        b = true /\ VString s = VString (current_motion (params d'))
        /\ (robotIndex = VNull \/ robotIndex = VUndefined))
    /\ length (robotConfigs d') = length (robotConfigs d)
    /\ (forall k c, robotConfigs d !! k = Some c ->
          robotConfigs d' !! k = Some c
          \/ exists s0, VString s = VString s0
                        /\ robotConfigs d' !! k = Some (Config.set_motion s0 c))).
  { intros i.
    destruct (applyToRobot_configs d (robotConfigs d) s force i sim Hsim) as (tr & E & _).
    rewrite set_robotConfigs_eta in E. rewrite E. eexists _, tr, _.
    split; [reflexivity|]. cbn [params set_robotConfigs robotConfigs].
    split; [now destruct d|]. split; [reflexivity|]. split; [congruence|].
    split; [destruct (accepts d s force i); [apply length_alter | reflexivity]|].
    intros k c Hk. destruct (accepts d s force i); [|now left].
    destruct (decide (k = i)) as [-> | Hne].
    - right. exists s. split; [reflexivity|]. now rewrite list_lookup_alter_eq, Hk.
    - left. now rewrite list_lookup_alter_ne by congruence. }
  destruct robotIndex as [| | | x | | | |]; try exact Hsame.
  - destruct (apply_all_configs d s force sim (seq 0 (length (runners_of d))) Hsim
                (robotConfigs d) true) as (tr & E & _).
    rewrite set_robotConfigs_eta in E. rewrite E. cbn [andb]. eexists _, tr, _.
    split; [reflexivity|].
    set (all := forallb _ _). set (rc := foldl _ _ _).
    assert (Hlen : length rc = length (robotConfigs d)) by apply foldl_alter_length.
    assert (Hrc : forall k c, robotConfigs d !! k = Some c ->
              rc !! k = Some c \/ exists s0, VString s = VString s0
                                   /\ rc !! k = Some (Config.set_motion s0 c)).
    { intros k c Hk. subst rc. rewrite foldl_alter_lookup, Hk.
      destruct (bool_decide _ && _); [right; exists s; split; reflexivity | now left]. }
    destruct all; cbn [params set_current_motion set_params robotConfigs set_robotConfigs paused
                        current_motion].
    + split; [reflexivity|]. split; [reflexivity|]. split; [|split; [exact Hlen | exact Hrc]].
      intros _. repeat split. first [now left | now right].
    + split; [now destruct d|]. split; [reflexivity|]. split; [congruence|].
      split; [exact Hlen | exact Hrc].
  - destruct (apply_all_configs d s force sim (seq 0 (length (runners_of d))) Hsim
                (robotConfigs d) true) as (tr & E & _).
    rewrite set_robotConfigs_eta in E. rewrite E. cbn [andb]. eexists _, tr, _.
    split; [reflexivity|].
    set (all := forallb _ _). set (rc := foldl _ _ _).
    assert (Hlen : length rc = length (robotConfigs d)) by apply foldl_alter_length.
    assert (Hrc : forall k c, robotConfigs d !! k = Some c ->
              rc !! k = Some c \/ exists s0, VString s = VString s0
                                   /\ rc !! k = Some (Config.set_motion s0 c)).
    { intros k c Hk. subst rc. rewrite foldl_alter_lookup, Hk.
      destruct (bool_decide _ && _); [right; exists s; split; reflexivity | now left]. }
    destruct all; cbn [params set_current_motion set_params robotConfigs set_robotConfigs paused
                        current_motion].
    + split; [reflexivity|]. split; [reflexivity|]. split; [|split; [exact Hlen | exact Hrc]].
      intros _. repeat split. first [now left | now right].
    + split; [now destruct d|]. split; [reflexivity|]. split; [congruence|].
      split; [exact Hlen | exact Hrc].
  - destruct (Number_isFinite x); [|exact Hsame]. apply Hone.
Qed.

End MotionFacts.

(* ===================================================================== *)
(** ** The render scale                                                 *)
(* ===================================================================== *)

Module ScreenFacts.
Import JS JSFacts Screen.

Lemma lit_0_5_nearest : lit_0_5 = div (of_Z 1) (of_Z 2).
Proof. vm_compute. reflexivity. Qed.

Lemma lit_2_of_Z : lit_2 = of_Z 2.
Proof. vm_compute. reflexivity. Qed.

Lemma Math_min_not_nan (a b : num) : a <> NaN -> b <> NaN -> Math_min a b <> NaN.
Proof.
  intros Ha Hb. unfold Math_min.
  destruct a, b; try congruence; try discriminate;
    match goal with |- context [if ?c then _ else _] => destruct c end; discriminate.
Qed.

Lemma Math_min_le_l (a b : num) :
  a <> NaN -> b <> NaN -> le (Math_min a b) a = true.
Proof.
  intros Ha Hb. unfold Math_min.
  destruct a as [sa | sa | | sa ma ea] eqn:Ea; try congruence;
    destruct b as [sb | sb | | sb mb eb] eqn:Eb; try congruence;
    try reflexivity;
    rewrite <- ?Ea, <- ?Eb;
    (destruct (lt _ _) eqn:L; [ now apply lt_le | apply le_refl_not_nan; congruence ]).
Qed.

Lemma Math_max_lub (a b c : num) :
  le a c = true -> le b c = true -> le (Math_max a b) c = true.
Proof.
  intros Ha Hb.
  pose proof (le_not_nan_l _ _ Ha) as Na. pose proof (le_not_nan_l _ _ Hb) as Nb.
  unfold Math_max.
  destruct a as [sa | sa | | sa ma ea] eqn:Ea; try congruence;
    destruct b as [sb | sb | | sb mb eb] eqn:Eb; try congruence;
    try (destruct c; exact Ha);
    rewrite <- ?Ea, <- ?Eb;
    (destruct (lt _ _); congruence).
Qed.

(** A scale within the bounds of [setRenderScale]. *)
Lemma clamped_within (scale : num) :
  scale <> NaN ->
  le lit_0_5 (Math_max lit_0_5 (Math_min lit_2 scale)) = true
  /\ le (Math_max lit_0_5 (Math_min lit_2 scale)) lit_2 = true.
Proof.
  intros Hs.
  assert (N1 : lit_0_5 <> NaN) by discriminate.
  assert (N2 : lit_2 <> NaN) by discriminate.
  split.
  - apply Math_max_ge_l; [exact N1 | now apply Math_min_not_nan].
  - apply Math_max_lub; [reflexivity | now apply Math_min_le_l].
Qed.

Lemma le_lt_false (a b : num) : le a b = true -> lt b a = false.
Proof.
  unfold le, lt, SFleb, SFltb. destruct (SFcompare a b) as [c|] eqn:E; [|discriminate].
  rewrite (compare_antisym _ _ _ E). now destruct c.
Qed.

Lemma clamp_low (x : num) :
  le x lit_0_5 = true -> Math_max lit_0_5 (Math_min lit_2 x) = lit_0_5.
Proof.
  intros H. pose proof (le_lt_false _ _ H) as Hlt.
  assert (Hmin : Math_min lit_2 x = x).
  { destruct x as [s | [] | | [] m e]; try discriminate; try reflexivity.
    unfold Math_min, lit_2. cbn [lt SFltb SFcompare].
    unfold le, SFleb, lit_0_5 in H. cbn [SFcompare] in H.
    destruct (Z.compare_spec e (-53)) as [E | E | E]; try discriminate.
    - subst e. reflexivity.
    - assert (E2 : (e ?= -51)%Z = Lt) by (apply Z.compare_lt_iff; lia).
      now rewrite E2. }
  rewrite Hmin. unfold Math_max.
  destruct x as [s | s | | s m e]; try discriminate; try reflexivity.
  - destruct s; [reflexivity | discriminate].
  - unfold lit_0_5 in *. now rewrite Hlt.
Qed.

Lemma clamp_high (x : num) :
  le lit_2 x = true -> Math_max lit_0_5 (Math_min lit_2 x) = lit_2.
Proof.
  intros H. pose proof (le_lt_false _ _ H) as Hlt.
  assert (Hmin : Math_min lit_2 x = lit_2).
  { unfold Math_min. destruct x as [s | s | | s m e]; try discriminate; try reflexivity.
    - destruct s; [discriminate | reflexivity].
    - unfold lit_2 in *. now rewrite Hlt. }
  rewrite Hmin. reflexivity.
Qed.

Section ScreenFacts.
Variable render : t -> t.
Hypothesis render_scale : forall s, renderScale (render s) = renderScale s.

Lemma perform_within c s :
  within (renderScale s) -> scale_given c ->
  within (renderScale (perform render c s).1)
  /\ Forall ratio_within (perform render c s).2.
Proof using render_scale.
  intros Hs Hc. destruct c as [x|]; cbn [perform setRenderScale onWindowResize fst snd].
  - rewrite render_scale. cbn [renderScale].
    pose proof (clamped_within x Hc) as Hw. split; [exact Hw|].
    repeat constructor; apply Hw.
  - rewrite render_scale. cbn [renderScale]. split; [exact Hs|].
    repeat constructor; apply Hs.
Qed.

(** X14. Starting from a render scale within [0.5, 2] (such as the 2.0 of
    the constructor), any sequence of [setRenderScale] with numbers other
    than NaN and of [onWindowResize] keeps [renderScale] within [0.5, 2] and
    hands the renderer only pixel ratios within these bounds, given that
    [render] leaves [renderScale] alone.  [setRenderScale] sets 0.5 for a
    scale at or below 0.5, 2 for a scale at or above 2, and NaN for NaN. *)
Theorem render_scale_within_bounds cs s :
  within (renderScale s) -> Forall scale_given cs ->
  within (renderScale (perform_all render cs s).1)
  /\ Forall ratio_within (perform_all render cs s).2
  /\ (forall x,
        (le x lit_0_5 = true -> renderScale (setRenderScale render x s).1 = lit_0_5)
        /\ (le lit_2 x = true -> renderScale (setRenderScale render x s).1 = lit_2)
        /\ (x = NaN -> renderScale (setRenderScale render x s).1 = NaN)).
Proof using render_scale.
  intros Hs Hcs. split; [|split].
  - revert s Hs. induction Hcs as [| c cs Hc _ IH]; intros s Hs; [exact Hs|].
    cbn [perform_all]. destruct (perform_within c s Hs Hc) as [Hw _].
    destruct (perform render c s) as [s1 tr1]. specialize (IH s1 Hw).
    destruct (perform_all render cs s1) as [s2 tr2]. exact IH.
  - revert s Hs. induction Hcs as [| c cs Hc Hcs IH]; intros s Hs; [constructor|].
    cbn [perform_all]. destruct (perform_within c s Hs Hc) as [Hw Hf].
    destruct (perform render c s) as [s1 tr1]. specialize (IH s1 Hw).
    destruct (perform_all render cs s1) as [s2 tr2]. cbn [snd fst] in *.
    apply Forall_app. split; assumption.
  - intros x. cbn [setRenderScale fst]. rewrite render_scale. cbn [renderScale].
    split; [apply clamp_low|]. split; [apply clamp_high|]. now intros ->.
Qed.

End ScreenFacts.
End ScreenFacts.

(* ===================================================================== *)
(** ** The follow selection                                             *)
(* ===================================================================== *)

Module FollowFacts.
Import JS JSFacts Demo ResetFacts NumberFacts PlacementFacts Follow.

Lemma foldr_max_ge (l : list nat) x : x ∈ l -> x <= foldr Nat.max 0 l.
Proof.
  induction l as [| y l IH]; [intros H; inversion H|].
  intros H. apply elem_of_cons in H as [-> | H]; cbn; [lia|]. specialize (IH H). lia.
Qed.

Lemma foldr_max_le (l : list nat) n : Forall (fun x => x <= n) l -> foldr Nat.max 0 l <= n.
Proof. induction 1; cbn; lia. Qed.

Lemma array_length_gt {A} (a : gmap nat A) k x : a !! k = Some x -> k < array_length a.
Proof.
  intros H. unfold array_length.
  assert (Hin : S k ∈ (fun kv : nat * A => S kv.1) <$> map_to_list a).
  { apply list_elem_of_fmap. exists (k, x). split; [reflexivity|].
    now apply elem_of_map_to_list. }
  apply foldr_max_ge in Hin. lia.
Qed.

Lemma array_length_le {A} (a : gmap nat A) n :
  (forall k, n <= k -> a !! k = None) -> array_length a <= n.
Proof.
  intros H. unfold array_length. apply foldr_max_le.
  apply Forall_forall. intros y Hy.
  apply list_elem_of_fmap in Hy as ([k x] & -> & Hkx).
  apply elem_of_map_to_list in Hkx. cbn.
  destruct (Nat.lt_ge_cases k n) as [Hlt | Hge]; [lia|].
  rewrite (H k Hge) in Hkx. discriminate.
Qed.

Lemma or_zero_of_Z k : (0 <= k < 2 ^ 53)%Z -> or_zero (of_Z k) = of_Z k.
Proof.
  intros Hk. destruct k as [| p | p]; [reflexivity | | lia].
  destruct (of_Z_pos p) as (m & e & E & _); [lia|]. now rewrite E.
Qed.

Lemma to_index_of_Z k : (0 <= k < 2 ^ 53)%Z -> to_index (of_Z k) = Some (Z.to_nat k).
Proof.
  intros Hk. destruct k as [| p | p]; [reflexivity | | lia].
  destruct (of_Z_pos p) as (m & e & E & He & Hm & _); [lia|]. rewrite E.
  unfold to_index.
  destruct (Z.leb_spec 0 e) as [H0 | H0].
  - assert (e = 0%Z) by lia. subst e. rewrite Z.shiftl_0_r.
    f_equal. f_equal. rewrite Hm. cbn. lia.
  - assert (Hs : Z.shiftr (Zpos m) (- e) = Zpos p).
    { rewrite Z.shiftr_div_pow2 by lia. rewrite Hm. apply Z.div_mul.
      apply Z.pow_nonzero; lia. }
    rewrite Hs, Z.shiftl_mul_pow2 by lia. rewrite <- Hm, Z.eqb_refl. reflexivity.
Qed.

(** The first block of [updateFollowBodyId] at an integer index. *)
Lemma multi_choice_of_Z d v k :
  followRobotIndex v = of_Z k -> (0 <= k < 2 ^ 53)%Z ->
  (Z.of_nat (array_length (robotPelvisBodyIds d)) < 2 ^ 53)%Z ->
  multi_choice d v = robotPelvisBodyIds d !! Z.to_nat k.
Proof.
  intros Hv Hk Hn. unfold multi_choice. rewrite Hv, (or_zero_of_Z k Hk).
  change pzero with (of_Z 0).
  rewrite le_of_Z, lt_of_Z, to_index_of_Z by lia.
  rewrite (proj2 (Z.leb_le 0 k)) by lia. cbn [andb mbind option_bind].
  destruct (robotPelvisBodyIds d !! Z.to_nat k) as [b|] eqn:E.
  - pose proof (array_length_gt _ _ _ E) as Hlt.
    rewrite (proj2 (Nat.ltb_lt 0 _)) by lia.
    rewrite (proj2 (Z.ltb_lt _ _)) by lia. reflexivity.
  - destruct (0 <? _); [|reflexivity]. now destruct (k <? _)%Z.
Qed.

(** X15. [setFollowRobotIndex] with an integer [i] stores [max(0, i)] as
    the follow index and follows the pelvis body recorded at that index.
    Where none is recorded there, which includes every index at or beyond
    the length of [robotPelvisBodyIds] (the index is not clamped from
    above), the single-robot methods decide, and [followBodyId] is kept when
    none of them applies.  [followInitialized] is cleared when following is
    enabled. *)
Theorem follow_index_not_clamped_above d v i :
  (- 2 ^ 53 < i < 2 ^ 53)%Z ->
  (Z.of_nat (array_length (robotPelvisBodyIds d)) < 2 ^ 53)%Z ->
  let v' := setFollowRobotIndex d v (of_Z i) in
  let k := Z.to_nat (Z.max 0 i) in
  followRobotIndex v' = of_Z (Z.max 0 i)
  /\ (forall b, robotPelvisBodyIds d !! k = Some b -> followBodyId v' = Some (Z.of_nat b))
  /\ (robotPelvisBodyIds d !! k = None ->
      followBodyId v' = match single_choice d v with
                        | Some id => Some id
                        | None => followBodyId v
                        end)
  /\ (array_length (robotPelvisBodyIds d) <= k -> robotPelvisBodyIds d !! k = None)
  /\ followInitialized v' = followInitialized v && negb (followEnabled v)
  /\ followEnabled v' = followEnabled v.
Proof.
  intros Hi Hn v' k. subst v'. unfold setFollowRobotIndex.
  rewrite (Math_max_zero_of_Z i Hi).
  set (v1 := set_followRobotIndex (of_Z (Z.max 0 i)) v).
  assert (Hm : multi_choice d v1 = robotPelvisBodyIds d !! k).
  { apply multi_choice_of_Z; [reflexivity | lia | exact Hn]. }
  assert (Hs : single_choice d v1 = single_choice d v) by reflexivity.
  unfold updateFollowBodyId. rewrite Hm, Hs.
  assert (Hout : array_length (robotPelvisBodyIds d) <= k -> robotPelvisBodyIds d !! k = None).
  { intros Hle. destruct (robotPelvisBodyIds d !! k) eqn:E; [|reflexivity].
    apply array_length_gt in E. lia. }
  destruct (robotPelvisBodyIds d !! k) as [b|] eqn:E.
  - cbn [followEnabled set_followBodyId].
    destruct (followEnabled v1) eqn:Ef; cbn; subst v1; cbn in *; rewrite ?Ef;
      repeat split; try discriminate; try (intros b' [= <-]; reflexivity);
      try (now rewrite andb_false_r); try (now rewrite andb_true_r); auto.
  - destruct (single_choice d v) as [id|];
      destruct (followEnabled v) eqn:Ef; cbn; rewrite ?Ef; cbn;
      repeat split; try discriminate; try (now rewrite andb_false_r);
      try (now rewrite andb_true_r); auto.
Qed.

Section AfterPlacement.
Variable mj_forward : Simulation -> Simulation.

(** X16. After [setMultiRobotInitialPositions] on more than one config
    with model, data and simulation loaded, [setFollowRobotIndex] with an
    integer [i] below the number of configs makes [followBodyId] the id of
    the pelvis body of robot [k = max(0, i)], whenever the model has a body
    with that robot's pelvis name: the body followed is the first one named
    [pelvis] for robot 0 and [robot{k+1}_pelvis] otherwise. *)
Theorem selected_robot_is_followed d m sim v i b :
  1 < length (robotConfigs d) -> model d = Some m -> data d = true ->
  simulation d = Some sim ->
  (- 2 ^ 53 < i < Z.of_nat (length (robotConfigs d)))%Z ->
  (Z.of_nat (length (robotConfigs d)) < 2 ^ 53)%Z ->
  let k := Z.to_nat (Z.max 0 i) in
  pelvisBodyId_of m k = Some b ->
  let d' := (setMultiRobotInitialPositions mj_forward d).1 in
  followBodyId (setFollowRobotIndex d' v (of_Z i)) = Some (Z.of_nat b)
  /\ bodyName m b = list_ascii_of_string (robotPrefix k)
  /\ b < nbody m.
Proof.
  intros Hn Hm Hd Hs Hi Hlen k Hb d'.
  pose proof (initial_positions_ids mj_forward d m sim Hn Hm Hd Hs) as Hids. fold d' in Hids.
  assert (Hk : robotPelvisBodyIds d' !! k = Some b).
  { rewrite Hids. rewrite (proj2 (Nat.ltb_lt _ _)) by lia. exact Hb. }
  assert (Hbound : array_length (robotPelvisBodyIds d') <= length (robotConfigs d)).
  { apply array_length_le. intros j Hj. rewrite Hids.
    now rewrite (proj2 (Nat.ltb_ge _ _)) by lia. }
  unfold setFollowRobotIndex. rewrite Math_max_zero_of_Z by lia.
  set (v1 := set_followRobotIndex (of_Z (Z.max 0 i)) v).
  assert (Hmc : multi_choice d' v1 = Some b).
  { rewrite (multi_choice_of_Z d' v1 (Z.max 0 i)); [exact Hk | reflexivity | lia | lia]. }
  unfold updateFollowBodyId. rewrite Hmc.
  apply pelvisBodyId_of_spec in Hb as (Hlt & Hname & _).
  split; [|split; assumption].
  cbn [followEnabled set_followBodyId]. now destruct (followEnabled v1).
Qed.

End AfterPlacement.

End FollowFacts.

(* ===================================================================== *)
(** ** What a reset leaves alone                                        *)
(* ===================================================================== *)

Module ResetFrameFacts.
Import JS JSFacts Demo ResetFacts.

Section ResetFrame.
Variables mj_forward mj_resetData : Simulation -> Simulation.
Abbreviation resetSimulation := (Demo.resetSimulation mj_forward mj_resetData).
Abbreviation setMultiRobotInitialPositions := (Demo.setMultiRobotInitialPositions mj_forward).

Lemma setMultiRobotInitialPositions_frame d :
  let d' := (setMultiRobotInitialPositions d).1 in
  d' = set_simulation (simulation d') (set_robotPelvisBodyIds (robotPelvisBodyIds d') d).
Proof.
  unfold Demo.setMultiRobotInitialPositions.
  destruct (_ <=? 1); [now destruct d|].
  destruct (model d); [|now destruct d].
  destruct (data d); [|now destruct d].
  destruct (simulation d); [|now destruct d].
  destruct (foldl _ _ _) as [ids qpos']. reflexivity.
Qed.

Lemma setMultiRobotInitialPositions_simulation d :
  is_Some (simulation d) -> is_Some (simulation (setMultiRobotInitialPositions d).1).
Proof.
  intros [sim E]. unfold Demo.setMultiRobotInitialPositions.
  destruct (_ <=? 1); [cbn [fst]; rewrite E; eauto|].
  destruct (model d); [|cbn [fst]; rewrite E; eauto].
  destruct (data d); [|cbn [fst]; rewrite E; eauto].
  rewrite E. destruct (foldl _ _ _) as [ids qpos']. cbn. eauto.
Qed.

(** X17. [resetSimulation] changes nothing but [params], the simulation,
    [actionTarget] and [robotPelvisBodyIds]: the configs (their [motion]
    included), the runners and the mappings are as before.  Without a
    simulation it does nothing at all.  With one, [params.current_motion]
    becomes ['default'] in multi-robot mode or when a policy runner is set,
    and is kept otherwise. *)
Theorem reset_keeps_configs d :
  let d' := (resetSimulation d).1 in
  d' = set_params (params d')
         (set_simulation (simulation d')
            (set_actionTarget (actionTarget d')
               (set_robotPelvisBodyIds (robotPelvisBodyIds d') d)))
  /\ (simulation d = None -> resetSimulation d = (d, []))
  /\ (simulation d <> None -> isMultiRobot d = true \/ is_Some (policyRunner d) ->
      current_motion (params d') = "default")
  /\ (isMultiRobot d = false -> policyRunner d = None ->
      current_motion (params d') = current_motion (params d)).
Proof.
  cbn zeta. unfold Demo.resetSimulation.
  destruct (simulation d) as [sim|] eqn:Hs.
  2:{ cbn [fst]. split; [now destruct d|]. split; [reflexivity|]. split; [congruence|].
      reflexivity. }
  cbn zeta.
  set (d0 := set_simulation (Some (mj_forward (mj_resetData sim))) (set_paused true d)).
  change (robotConfigs d0) with (robotConfigs d).
  assert (Hstep : exists d1 poses,
            (if 1 <? length (robotConfigs d) then setMultiRobotInitialPositions d0
             else (d0, [])) = (d1, poses)
            /\ d1 = set_simulation (simulation d1)
                      (set_robotPelvisBodyIds (robotPelvisBodyIds d1) d0)
            /\ is_Some (simulation d1)).
  { destruct (1 <? length (robotConfigs d)).
    - pose proof (setMultiRobotInitialPositions_frame d0) as Hf.
      pose proof (setMultiRobotInitialPositions_simulation d0 (mk_is_Some _ _ eq_refl)) as Hsome.
      cbn zeta in Hf. destruct (setMultiRobotInitialPositions d0) as [d1 poses].
      exists d1, poses. split; [reflexivity|]. split; assumption.
    - exists d0, []. split; [reflexivity|]. split; [now destruct d | cbn; eauto]. }
  destruct Hstep as (d1 & poses & -> & Hf & [sim1 Hs1]).
  assert (Hmulti : isMultiRobot (set_actionTarget VNull d1) = isMultiRobot d)
    by (rewrite Hf; reflexivity).
  assert (Hrun : policyRunner (set_actionTarget VNull d1) = policyRunner d)
    by (rewrite Hf; reflexivity).
  assert (Hcm : current_motion (params d1) = current_motion (params d))
    by (rewrite Hf; reflexivity).
  change (simulation (set_actionTarget VNull d1)) with (simulation d1).
  rewrite Hs1, Hmulti, Hrun.
  destruct (isMultiRobot d); destruct (policyRunner d) as [r|]; cbn [fst];
    (split; [rewrite Hf; now destruct d|]);
    (split; [discriminate|]);
    cbn; rewrite ?Hcm; split; try reflexivity; try discriminate;
    try (intros _ [H | [x H]]; try reflexivity; discriminate H).
Qed.

End ResetFrame.

End ResetFrameFacts.

(* ===================================================================== *)
(** ** Instances                                                        *)
(* ===================================================================== *)

Module ExtraWitnesses.
Import JS JSFacts Demo ControlFacts TickFacts ResetFacts RequestFacts Examples.
Import RequestViews Follow Screen NumberFacts LoopFacts PlacementFacts MotionFacts.
Import ScreenFacts FollowFacts ResetFrameFacts FollowExamples.


Lemma pass_writes_only_mapped_witness :
  let sim3 := set_ctrl (nums [7; 7; 4]%Z) sim2 in
  let d := set_simulation (Some sim3) demo2 in
  running d sim3
  /\ exists sim',
       simulation (demo (Demo.tick still still oracle_ok d)) = Some sim'
       /\ ctrl sim' !! 2 = Some (of_Z 4).
Proof.
  intros sim3 d.
  assert (H1 : running d sim3).
  { repeat split; try reflexivity. eexists; reflexivity. }
  split; [exact H1|].
  eexists. split; [vm_compute; reflexivity|].
  refine (proj1 (pass_writes_only_mapped still still (fun s => eq_refl) (fun s => eq_refl)
                   oracle_ok d sim3 _ H1 _) 2 _ _).
  - vm_compute. reflexivity.
  - intros r m. destruct r as [| [| r]]; simpl.
    + intros [= <-]. simpl. intros Hin. apply list_elem_of_singleton in Hin. discriminate.
    + intros [= <-]. simpl. intros Hin. apply list_elem_of_singleton in Hin. discriminate.
    + discriminate.
  - simpl. intros Hin. apply list_elem_of_singleton in Hin. discriminate.
Defined.

Lemma initial_positions_record_bodies_witness :
  1 < length (robotConfigs demo2) /\ model demo2 = Some model2
  /\ data demo2 = true /\ simulation demo2 = Some sim2
  /\ robotPelvisBodyIds (Demo.setMultiRobotInitialPositions still demo2).1 !! 1 = Some 2
  /\ robotPelvisBodyIds (Demo.setMultiRobotInitialPositions still demo2).1 !! 2 = None.
Proof.
  assert (H1 : 1 < length (robotConfigs demo2)) by (simpl; lia).
  split; [exact H1|]. do 3 (split; [reflexivity|]).
  destruct (initial_positions_record_bodies still demo2 model2 sim2 H1 eq_refl eq_refl
              eq_refl) as (Hids & _ & _).
  split; [exact (Hids 1) | exact (Hids 2)].
Defined.

Lemma broadcast_asks_every_runner_witness :
  simulation demo2h = Some sim2
  /\ exists d' tr,
       requestMotion demo2h (VString "dance") VNull false = Some (d', tr, false)
       /\ Config.motion <$> robotConfigs d' = [Some "dance"; None]
       /\ current_motion (params d') = "default".
Proof.
  split; [reflexivity|].
  destruct (broadcast_asks_every_runner demo2h "dance" VNull false sim2)
    as (d' & tr & E & _ & Hrc & Hp & _);
    [discriminate | discriminate | reflexivity | now left |].
  exists d', tr. split; [exact E|]. split.
  - apply list_eq. intros i. rewrite list_lookup_fmap, (Hrc i).
    destruct i as [| [| i]]; reflexivity.
  - now rewrite Hp.
Defined.

Lemma requestMotion_touches_motions_only_witness :
  simulation demo2t = Some sim2
  /\ exists d' tr b,
       requestMotion demo2t (VString "dance") (VNumber (of_Z 7)) true = Some (d', tr, b)
       /\ paused (params d') = paused (params demo2t)
       /\ length (robotConfigs d') = 2.
Proof.
  split; [reflexivity|].
  destruct (requestMotion_touches_motions_only demo2t (VString "dance") (VNumber (of_Z 7))
              true sim2 eq_refl) as (d' & tr & b & E & _ & Hp & _ & Hlen & _).
  exists d', tr, b. repeat split; assumption.
Defined.

Lemma render_scale_within_bounds_witness :
  within (renderScale initial)
  /\ Forall scale_given [SetRenderScale (of_Z 5); WindowResize; SetRenderScale pzero]
  /\ Forall ratio_within
       (perform_all (fun s => s) [SetRenderScale (of_Z 5); WindowResize; SetRenderScale pzero]
          initial).2
  /\ renderScale (setRenderScale (fun s => s) (of_Z 5) initial).1 = lit_2.
Proof.
  assert (H1 : within (renderScale initial)) by (split; reflexivity).
  assert (H2 : Forall scale_given
                 [SetRenderScale (of_Z 5); WindowResize; SetRenderScale pzero]).
  { repeat constructor; discriminate. }
  split; [exact H1|]. split; [exact H2|].
  destruct (render_scale_within_bounds (fun s => s) (fun s => eq_refl) _ initial H1 H2)
    as (_ & Hf & Hx).
  split; [exact Hf|]. apply (Hx (of_Z 5)). reflexivity.
Defined.

Lemma follow_index_not_clamped_above_witness :
  followBodyId (setFollowRobotIndex demo2p view0 (of_Z 1)) = Some 2%Z
  /\ followBodyId (setFollowRobotIndex demo2p view0 (of_Z (-3))) = Some 1%Z
  /\ followBodyId (setFollowRobotIndex demo2p view0 (of_Z 5)) = Some 1%Z.
Proof.
  assert (Hn : (Z.of_nat (array_length (robotPelvisBodyIds demo2p)) < 2 ^ 53)%Z)
    by (vm_compute; reflexivity).
  split; [|split].
  - destruct (follow_index_not_clamped_above demo2p view0 1) as (_ & H & _);
      [lia | exact Hn |].
    apply (H 2). reflexivity.
  - destruct (follow_index_not_clamped_above demo2p view0 (-3)) as (_ & H & _);
      [lia | exact Hn |].
    apply (H 1). reflexivity.
  - destruct (follow_index_not_clamped_above demo2p view0 5) as (_ & _ & H & _);
      [lia | exact Hn |].
    rewrite H; reflexivity.
Defined.

Lemma selected_robot_is_followed_witness :
  1 < length (robotConfigs demo2) /\ model demo2 = Some model2
  /\ pelvisBodyId_of model2 1 = Some 2
  /\ followBodyId
       (setFollowRobotIndex (Demo.setMultiRobotInitialPositions still demo2).1 view0 (of_Z 1))
     = Some 2%Z
  /\ bodyName model2 2 = list_ascii_of_string "robot2_pelvis".
Proof.
  assert (H1 : 1 < length (robotConfigs demo2)) by (simpl; lia).
  split; [exact H1|]. split; [reflexivity|]. split; [reflexivity|].
  destruct (selected_robot_is_followed still demo2 model2 sim2 view0 1 2 H1 eq_refl eq_refl
              eq_refl) as (Hf & Hname & _); [simpl; lia | simpl; lia | reflexivity |].
  split; [exact Hf | exact Hname].
Defined.

Lemma reset_keeps_configs_witness :
  robotConfigs (Demo.resetSimulation still still demo2).1 = robotConfigs demo2
  /\ current_motion (params (Demo.resetSimulation still still (set_current_motion "dance" demo2)).1)
     = "default".
Proof.
  split.
  - destruct (reset_keeps_configs still still demo2) as (Hf & _).
    cbn zeta in Hf. rewrite Hf. reflexivity.
  - destruct (reset_keeps_configs still still (set_current_motion "dance" demo2))
      as (_ & _ & H & _).
    apply H; [discriminate | now left].
Defined.

End ExtraWitnesses.
